(** * SPL parser: a shallow embedding of [parser.ts] and of the compiled
    [parser.js], with the properties of the specification stated over them.

    The recursive-descent parser is an object with two mutable fields, the
    lexer and the one-token lookahead; every method either returns or throws
    an [SPLError].  It is embedded as computations of a state-and-exception
    monad over a record holding these two fields.  Loops and the recursion
    through parentheses take a fuel argument. *)

From Stdlib Require Import String Ascii List Bool Arith NArith Lia.
From Stdlib Require DecimalString DecimalPos DecimalN.
Import ListNotations.

Open Scope string_scope.
Open Scope list_scope.

(** ** Tokens ([types.d.ts]) *)

Inductive TokenType : Type :=
| KEYWORD | IDENTIFIER | PLOT_FUNCTION | LPAREN | RPAREN | COMMA | STRING
| NUMBER | NULL | COMPARISON_OPERATOR | LOGICAL_OPERATOR
| AGGREGATION_FUNCTION | EOF.

Definition TokenType_eqb (a b : TokenType) : bool :=
  match a, b with
  | KEYWORD, KEYWORD | IDENTIFIER, IDENTIFIER | PLOT_FUNCTION, PLOT_FUNCTION
  | LPAREN, LPAREN | RPAREN, RPAREN | COMMA, COMMA | STRING, STRING
  | NUMBER, NUMBER | NULL, NULL | COMPARISON_OPERATOR, COMPARISON_OPERATOR
  | LOGICAL_OPERATOR, LOGICAL_OPERATOR
  | AGGREGATION_FUNCTION, AGGREGATION_FUNCTION | EOF, EOF => true
  | _, _ => false
  end.

(** The string a token type is at run time (the members of the union type). *)
Definition TokenType_name (t : TokenType) : string :=
  match t with
  | KEYWORD => "KEYWORD" | IDENTIFIER => "IDENTIFIER"
  | PLOT_FUNCTION => "PLOT_FUNCTION" | LPAREN => "LPAREN" | RPAREN => "RPAREN"
  | COMMA => "COMMA" | STRING => "STRING" | NUMBER => "NUMBER" | NULL => "NULL"
  | COMPARISON_OPERATOR => "COMPARISON_OPERATOR"
  | LOGICAL_OPERATOR => "LOGICAL_OPERATOR"
  | AGGREGATION_FUNCTION => "AGGREGATION_FUNCTION" | EOF => "EOF"
  end.

Record Token : Type := mkToken { type : TokenType; value : string }.

(** ** JavaScript values the parser computes with *)

(** [x ?? d], [!x] and [if (x)] on a value of type [string | undefined]:
    [undefined] and the empty string are the falsy ones. *)
Definition truthy (x : option string) : bool :=
  match x with
  | Some s => negb (String.eqb s EmptyString)
  | None => false
  end.

Definition nullish_or (x : option string) (d : string) : string :=
  match x with Some s => s | None => d end.

(** A JavaScript number.  [Number(text)] is interpreted where it is exact and
    needs no floating point: on a text of decimal digits denoting an integer
    up to 2^53, and on the empty text (which converts to 0).  Any other text
    is kept as the number [Number(text)] denotes, uninterpreted. *)
Inductive JsNumber : Type :=
| JsInt (n : N)
| JsNumberOf (text : string).

Definition is_digit (c : ascii) : bool :=
  ((48 <=? nat_of_ascii c) && (nat_of_ascii c <=? 57))%nat.

Fixpoint all_digits (s : string) : bool :=
  match s with
  | EmptyString => true
  | String c s' => is_digit c && all_digits s'
  end.

Fixpoint digits_value (acc : N) (s : string) : N :=
  match s with
  | EmptyString => acc
  | String c s' => digits_value (10 * acc + (N.of_nat (nat_of_ascii c) - 48)) s'
  end.

Definition Number (text : string) : JsNumber :=
  if all_digits text && (digits_value 0 text <=? 2 ^ 53)%N
  then JsInt (digits_value 0 text)
  else JsNumberOf text.

(** ** Text of the error messages *)

Definition dquote : string := String (ascii_of_nat 34) EmptyString.
Definition backslash : string := String (ascii_of_nat 92) EmptyString.

Definition hex_digit (n : nat) : string :=
  String (ascii_of_nat (if (n <? 10)%nat then 48 + n else 87 + n)) EmptyString.

(** The escape [JSON.stringify] writes for one character of a string.  A
    string is a sequence of bytes here; bytes from 128 up stand for the
    encoding of characters JSON copies unchanged. *)
Definition json_escape_char (c : ascii) : string :=
  let n := nat_of_ascii c in
  if (n =? 34)%nat then backslash ++ dquote
  else if (n =? 92)%nat then backslash ++ backslash
  else if (n =? 8)%nat then backslash ++ "b"
  else if (n =? 9)%nat then backslash ++ "t"
  else if (n =? 10)%nat then backslash ++ "n"
  else if (n =? 12)%nat then backslash ++ "f"
  else if (n =? 13)%nat then backslash ++ "r"
  else if (n <? 32)%nat then backslash ++ "u00" ++ hex_digit (n / 16) ++ hex_digit (n mod 16)
  else String c EmptyString.

Fixpoint json_escape (s : string) : string :=
  match s with
  | EmptyString => EmptyString
  | String c s' => json_escape_char c ++ json_escape s'
  end.

Definition json_string (s : string) : string := dquote ++ json_escape s ++ dquote.

(** Modelled from the spec: [lexer.ts], which builds the token objects, is not
    among the sources; a token is the record of a kind and a text of the
    spec, an object with the two properties [type] and [value] of the [Token]
    type declaration, in that order. *)
Definition JSON_stringify (t : Token) : string :=
  "{" ++ json_string "type" ++ ":" ++ json_string (TokenType_name (type t)) ++ ","
      ++ json_string "value" ++ ":" ++ json_string (value t) ++ "}".

(** A non-negative integer inside a template literal. *)
Definition decimal (n : nat) : string :=
  DecimalString.NilEmpty.string_of_uint (Nat.to_uint n).

(** [haystack.includes(needle)] *)
Fixpoint includes (needle haystack : string) : bool :=
  String.prefix needle haystack ||
  match haystack with
  | EmptyString => false
  | String _ rest => includes needle rest
  end.

(** ** The lexer *)

(** Modelled from the spec: [lexer.ts] is not among the sources.  The spec
    gives its contract: [nextToken()] returns the next token of a finite
    sequence and advances the scan position, and returns an end-of-input token
    forever once the input is exhausted; [currentPosition] is the scan offset.
    The lexer is the sequence of tokens still to be scanned, the number of
    tokens scanned so far, and the offset in the query text the scan has
    reached after each number of tokens. *)
Record Lexer : Type := mkLexer {
  pending : list Token;
  scanned : nat;
  offsetAfter : nat -> nat
}.

(** Modelled from the spec: the end-of-input token, with an empty text. *)
Definition eofToken : Token := mkToken EOF EmptyString.

Definition nextToken (lx : Lexer) : Token * Lexer :=
  match pending lx with
  | [] => (eofToken, lx)
  | t :: ts => (t, mkLexer ts (S (scanned lx)) (offsetAfter lx))
  end.

Definition currentPosition (lx : Lexer) : nat := offsetAfter lx (scanned lx).

(** ** The parser object and the monad of its methods *)

Record Parser : Type := mkParser {
  _lexer : Lexer;
  _currentToken : Token
}.

(** [constructor(lexer)] *)
Definition new_Parser (lexer : Lexer) : Parser :=
  let (t, lx) := nextToken lexer in mkParser lx t.

(** [exceptions.ts] is not among the sources; an [SPLError] is built from its
    message only. *)
Record SPLError : Type := mkSPLError { message : string }.

(** What a method call does: it returns a value, or throws, in both cases
    leaving the object in some state; [OutOfFuel] is the model's own, for a
    loop or a recursion cut short. *)
Inductive Result (A : Type) : Type :=
| Ok (a : A) (p : Parser)
| Throw (e : SPLError) (p : Parser)
| OutOfFuel.

Arguments Ok {A} a p.
Arguments Throw {A} e p.
Arguments OutOfFuel {A}.

Definition M (A : Type) : Type := Parser -> Result A.

Definition ret {A} (a : A) : M A := fun p => Ok a p.

Definition bind {A B} (m : M A) (k : A -> M B) : M B :=
  fun p =>
    match m p with
    | Ok a p' => k a p'
    | Throw e p' => Throw e p'
    | OutOfFuel => OutOfFuel
    end.

Definition throw {A} (msg : string) : M A := fun p => Throw (mkSPLError msg) p.

Definition out_of_fuel {A} : M A := fun _ => OutOfFuel.

Notation "x <- m ;; k" := (bind m (fun x => k))
  (at level 61, m at next level, right associativity).
Notation "m ;;; k" := (bind m (fun _ => k))
  (at level 61, right associativity).

(** Reading [this._currentToken] and [this._lexer.currentPosition]. *)
Definition currentToken : M Token := fun p => Ok (_currentToken p) p.
Definition lexerPosition : M nat := fun p => Ok (currentPosition (_lexer p)) p.

(** [this._currentToken = this._lexer.nextToken()] *)
Definition advance : M unit :=
  fun p => let (t, lx) := nextToken (_lexer p) in Ok tt (mkParser lx t).

Definition fmap {A B} (f : A -> B) (m : M A) : M B := a <- m ;; ret (f a).

(** ** Methods the two parsers share

    From [_consumeWhereClauseOptional] to the end, [parser.ts] (lines
    108-224) and the compiled parser (lines 106-212) have the same text. *)

Definition _consumeToken (tokenType : TokenType) (val : option string) : M Token :=
  token <- currentToken ;;
  if TokenType_eqb (type token) tokenType
     && (negb (truthy val) || String.eqb (value token) (nullish_or val EmptyString))
  then advance ;;; ret token
  else
    pos <- lexerPosition ;;
    throw ("Unexpected token " ++ JSON_stringify token ++ " at position " ++ decimal pos).

Inductive CompareValue : Type :=
| VString (s : string)
| VNumber (n : JsNumber)
| VNull.

Definition _consumeComparisonValue : M CompareValue :=
  token <- currentToken ;;
  advance ;;;
  match type token with
  | STRING => ret (VString (value token))
  | NUMBER => ret (VNumber (Number (value token)))
  | NULL => ret VNull
  | _ => throw "Equal comparison allowed only for string, number, and null"
  end.

#[local] Set Warnings "-register-all".

(** The predicate tree: one constructor for each object shape of
    [WhereCondition]. *)
Inductive WhereCondition : Type :=
| And (and : list WhereCondition)
| Or (or : list WhereCondition)
| Gt (key : string) (val : JsNumber)
| Gte (key : string) (val : JsNumber)
| Lt (key : string) (val : JsNumber)
| Lte (key : string) (val : JsNumber)
| Eq (key : string) (val : CompareValue)
| Neq (key : string) (val : CompareValue).

Definition _consumeComparison : M WhereCondition :=
  keyToken <- _consumeToken IDENTIFIER None ;;
  let key := value keyToken in
  opToken <- _consumeToken COMPARISON_OPERATOR None ;;
  let comparisonOperator := value opToken in
  if String.eqb comparisonOperator ">" then
    t <- _consumeToken NUMBER None ;; ret (Gt key (Number (value t)))
  else if String.eqb comparisonOperator ">=" then
    t <- _consumeToken NUMBER None ;; ret (Gte key (Number (value t)))
  else if String.eqb comparisonOperator "<" then
    t <- _consumeToken NUMBER None ;; ret (Lt key (Number (value t)))
  else if String.eqb comparisonOperator "<=" then
    t <- _consumeToken NUMBER None ;; ret (Lte key (Number (value t)))
  else if String.eqb comparisonOperator "=" then
    v <- _consumeComparisonValue ;; ret (Eq key v)
  else if String.eqb comparisonOperator "!=" then
    v <- _consumeComparisonValue ;; ret (Neq key v)
  else throw ("Invalid comparison operator " ++ comparisonOperator).

(** [_consumeConditionGroup], with the call of [_consumeCondition] it makes
    inside parentheses as a parameter. *)
Definition _consumeConditionGroup_of (condition : M WhereCondition) : M WhereCondition :=
  token <- currentToken ;;
  if TokenType_eqb (type token) IDENTIFIER then _consumeComparison
  else
    _consumeToken LPAREN None ;;;
    c <- condition ;;
    _consumeToken RPAREN None ;;;
    ret c.

(** The inner loop of [_consumeCondition]:
    [while (this._currentToken.value === "AND") { ... }] *)
Fixpoint and_loop (group : M WhereCondition) (fuel : nat)
    (innerConditions : list WhereCondition) : M (list WhereCondition) :=
  match fuel with
  | O => out_of_fuel
  | S fuel' =>
      token <- currentToken ;;
      if String.eqb (value token) "AND" then
        _consumeToken LOGICAL_OPERATOR None ;;;
        c <- group ;;
        and_loop group fuel' (innerConditions ++ [c])
      else ret innerConditions
  end.

(** The outer loop of [_consumeCondition]: [while (true) { ... }] *)
Fixpoint or_loop (group : M WhereCondition) (fuel : nat)
    (filters : list WhereCondition) : M (list WhereCondition) :=
  match fuel with
  | O => out_of_fuel
  | S fuel' =>
      first <- group ;;
      innerConditions <- and_loop group fuel' [first] ;;
      let innerCondition :=
        match innerConditions with
        | [c] => c
        | _ => And innerConditions
        end in
      let filters' := filters ++ [innerCondition] in
      token <- currentToken ;;
      if negb (String.eqb (value token) "OR") then ret filters'
      else advance ;;; or_loop group fuel' filters'
  end.

Fixpoint _consumeCondition (fuel : nat) : M WhereCondition :=
  match fuel with
  | O => out_of_fuel
  | S fuel' =>
      filters <- or_loop (_consumeConditionGroup_of (_consumeCondition fuel')) fuel' [] ;;
      match filters with
      | [c] => ret c
      | _ => ret (Or filters)
      end
  end.

Definition _consumeConditionGroup (fuel : nat) : M WhereCondition :=
  _consumeConditionGroup_of (_consumeCondition fuel).

Definition _consumeWhereClauseOptional (fuel : nat) : M (option WhereCondition) :=
  token <- currentToken ;;
  if negb (String.eqb (value token) "WHERE") then ret None
  else
    _consumeToken KEYWORD None ;;;
    fmap Some (_consumeCondition fuel).

Definition _consumeGroupByClauseOptional : M (option string) :=
  token <- currentToken ;;
  if negb (String.eqb (value token) "GROUPBY") then ret None
  else
    _consumeToken KEYWORD None ;;;
    t <- _consumeToken IDENTIFIER None ;;
    ret (Some (value t)).

Record LimitAndOffset : Type := mkLimitAndOffset {
  limit : JsNumber;
  offset : JsNumber
}.

Definition _consumeLimitAndOffsetClauseOptional : M (option LimitAndOffset) :=
  token <- currentToken ;;
  if negb (String.eqb (value token) "LIMIT") then ret None
  else
    _consumeToken KEYWORD None ;;;
    limitToken <- _consumeToken NUMBER None ;;
    let limit := Number (value limitToken) in
    token' <- currentToken ;;
    if negb (String.eqb (value token') "OFFSET") then
      ret (Some (mkLimitAndOffset limit (JsInt 0)))
    else
      _consumeToken KEYWORD None ;;;
      offsetToken <- _consumeToken NUMBER None ;;
      ret (Some (mkLimitAndOffset limit (Number (value offsetToken)))).

(** The loop of [_consumeSelectClause], the same in both parsers:
    [do { ... } while (this._currentToken.type !== "IDENTIFIER")] *)
Fixpoint select_loop {C : Type} (consumeColumn : M C) (fuel : nat)
    (selectColumns : list C) : M (list C) :=
  match fuel with
  | O => out_of_fuel
  | S fuel' =>
      c <- consumeColumn ;;
      let selectColumns' := selectColumns ++ [c] in
      _consumeToken COMMA None ;;;
      token <- currentToken ;;
      if negb (TokenType_eqb (type token) IDENTIFIER)
      then select_loop consumeColumn fuel' selectColumns'
      else ret selectColumns'
  end.

(** ** The compiled parser ([parser.js], with the types of [types.d.ts]) *)

Module JS.

Record ColumnMetadata : Type := mkColumnMetadata {
  identifier : option string;
  column : option string;
  aggregationFunction : option string
}.

Inductive PlotClause : Type :=
| BarPlotCall (plotFunction categoriesIdentifier valuesIdentifier : string)
| PointPlotCall (plotFunction xIdentifier yIdentifier : string).

Record SPLQuery : Type := mkSPLQuery {
  plotClause : option PlotClause;
  selectColumns : list ColumnMetadata;
  whereCondition : option WhereCondition;
  groupKey : option string;
  limitAndOffset : option LimitAndOffset
}.

Definition _consumePlotArgs (plotFunction : string) : M PlotClause :=
  if String.eqb plotFunction "BAR" then
    categoriesToken <- _consumeToken IDENTIFIER None ;;
    _consumeToken COMMA None ;;;
    valuesToken <- _consumeToken IDENTIFIER None ;;
    ret (BarPlotCall plotFunction (value categoriesToken) (value valuesToken))
  else if String.eqb plotFunction "LINE" || String.eqb plotFunction "SCATTER" then
    xToken <- _consumeToken IDENTIFIER None ;;
    _consumeToken COMMA None ;;;
    yToken <- _consumeToken IDENTIFIER None ;;
    ret (PointPlotCall plotFunction (value xToken) (value yToken))
  else throw ("Invalid plot type " ++ plotFunction).

Definition _consumePlotClauseOptional : M (option PlotClause) :=
  token <- currentToken ;;
  if negb (String.eqb (value token) "PLOT") then ret None
  else
    _consumeToken KEYWORD (Some "PLOT") ;;;
    plotFunction <- _consumeToken PLOT_FUNCTION None ;;
    _consumeToken LPAREN None ;;;
    plotClause <- _consumePlotArgs (value plotFunction) ;;
    _consumeToken RPAREN None ;;;
    ret (Some plotClause).

Definition _consumeColumn : M ColumnMetadata :=
  token <- currentToken ;;
  parsed <-
    (if TokenType_eqb (type token) AGGREGATION_FUNCTION then
       aggToken <- _consumeToken AGGREGATION_FUNCTION None ;;
       let aggregationFunction := value aggToken in
       _consumeToken LPAREN None ;;;
       column <-
         (if negb (String.eqb aggregationFunction "COUNT")
          then t <- _consumeToken IDENTIFIER None ;; ret (Some (value t))
          else ret None) ;;
       _consumeToken RPAREN None ;;;
       ret (column, Some aggregationFunction)
     else
       t <- _consumeToken IDENTIFIER None ;;
       ret (Some (value t), None)) ;;
  let column := fst parsed in
  let aggregationFunction := snd parsed in
  token' <- currentToken ;;
  alias <-
    (if String.eqb (value token') "AS" then
       _consumeToken KEYWORD None ;;;
       t <- _consumeToken IDENTIFIER None ;;
       ret (Some (value t))
     else ret None) ;;
  let identifier :=
    if negb (truthy alias) then
      if truthy aggregationFunction
      then Some (nullish_or aggregationFunction EmptyString
                   ++ "(" ++ nullish_or column EmptyString ++ ")")%string
      else column
    else alias in
  ret (mkColumnMetadata identifier column aggregationFunction).

Definition _consumeSelectClause (fuel : nat) : M (list ColumnMetadata) :=
  _consumeToken KEYWORD (Some "SELECT") ;;;
  select_loop _consumeColumn fuel [].

Definition parse (fuel : nat) : M SPLQuery :=
  plotClause <- _consumePlotClauseOptional ;;
  selectColumns <- _consumeSelectClause fuel ;;
  whereCondition <- _consumeWhereClauseOptional fuel ;;
  groupKey <- _consumeGroupByClauseOptional ;;
  limitAndOffset <- _consumeLimitAndOffsetClauseOptional ;;
  _consumeToken EOF None ;;;
  ret (mkSPLQuery plotClause selectColumns whereCondition groupKey limitAndOffset).

End JS.

(** ** The TypeScript source ([parser.ts])

    [types.ts] is not among the sources; the record fields are those of the
    object literals the methods return. *)

Module TS.

Record ColumnMetadata : Type := mkColumnMetadata {
  column : option string;
  displayName : option string;
  aggregationFunction : option string
}.

Inductive PlotClause : Type :=
| BarPlotCall (plotFunction : string) (categoriesColumn valuesColumn : ColumnMetadata)
| PointPlotCall (plotFunction : string) (xColumn yColumn : ColumnMetadata).

Record SPLQuery : Type := mkSPLQuery {
  plotClause : option PlotClause;
  selectColumns : list ColumnMetadata;
  whereCondition : option WhereCondition;
  groupKey : option string;
  limitAndOffset : option LimitAndOffset
}.

Definition _consumeColumn : M ColumnMetadata :=
  token <- currentToken ;;
  parsed <-
    (if TokenType_eqb (type token) AGGREGATION_FUNCTION then
       aggToken <- _consumeToken AGGREGATION_FUNCTION None ;;
       let aggregationFunction := value aggToken in
       _consumeToken LPAREN None ;;;
       column <-
         (if negb (String.eqb aggregationFunction "COUNT")
          then t <- _consumeToken IDENTIFIER None ;; ret (Some (value t))
          else ret None) ;;
       _consumeToken RPAREN None ;;;
       ret (column, Some aggregationFunction)
     else
       t <- _consumeToken IDENTIFIER None ;;
       ret (Some (value t), None)) ;;
  let column := fst parsed in
  let aggregationFunction := snd parsed in
  token' <- currentToken ;;
  displayName <-
    (if String.eqb (value token') "AS" then
       _consumeToken KEYWORD None ;;;
       t <- _consumeToken IDENTIFIER None ;;
       ret (Some (value t))
     else ret None) ;;
  ret (mkColumnMetadata column displayName aggregationFunction).

Definition _consumePlotArgs (plotFunction : string) : M PlotClause :=
  if String.eqb plotFunction "BAR" then
    categoriesColumn <- _consumeColumn ;;
    _consumeToken COMMA None ;;;
    valuesColumn <- _consumeColumn ;;
    ret (BarPlotCall plotFunction categoriesColumn valuesColumn)
  else if String.eqb plotFunction "LINE" || String.eqb plotFunction "SCATTER" then
    xColumn <- _consumeColumn ;;
    _consumeToken COMMA None ;;;
    yColumn <- _consumeColumn ;;
    ret (PointPlotCall plotFunction xColumn yColumn)
  else throw ("Invalid plot type " ++ plotFunction).

Definition _consumePlotClauseOptional : M (option PlotClause) :=
  token <- currentToken ;;
  if negb (String.eqb (value token) "PLOT") then ret None
  else
    _consumeToken KEYWORD (Some "PLOT") ;;;
    plotFunction <- _consumeToken PLOT_FUNCTION None ;;
    _consumeToken LPAREN None ;;;
    plotClause <- _consumePlotArgs (value plotFunction) ;;
    _consumeToken RPAREN None ;;;
    ret (Some plotClause).

Definition _consumeSelectClause (fuel : nat) : M (list ColumnMetadata) :=
  select_loop _consumeColumn fuel [].

Definition parse (fuel : nat) : M SPLQuery :=
  plotClause <- _consumePlotClauseOptional ;;
  selectColumns <- _consumeSelectClause fuel ;;
  whereCondition <- _consumeWhereClauseOptional fuel ;;
  groupKey <- _consumeGroupByClauseOptional ;;
  limitAndOffset <- _consumeLimitAndOffsetClauseOptional ;;
  _consumeToken EOF None ;;;
  ret (mkSPLQuery plotClause selectColumns whereCondition groupKey limitAndOffset).

End TS.

(** ** Running a parser on a token sequence *)

(** The parser built over a lexer that has [ts] still to scan, after [n]
    tokens. *)
Definition parser_on (ts : list Token) (n : nat) (off : nat -> nat) : Parser :=
  new_Parser (mkLexer ts n off).

(** The state after [this._currentToken = this._lexer.nextToken()]. *)
Definition step (p : Parser) : Parser :=
  mkParser (snd (nextToken (_lexer p))) (fst (nextToken (_lexer p))).

(** The condition of [_consumeToken]. *)
Definition accepts (tokenType : TokenType) (val : option string) (t : Token) : bool :=
  TokenType_eqb (type t) tokenType
  && (negb (truthy val) || String.eqb (value t) (nullish_or val EmptyString)).

(** The error [_consumeToken] throws in state [p]. *)
Definition unexpected_token (p : Parser) : SPLError :=
  mkSPLError ("Unexpected token " ++ JSON_stringify (_currentToken p)
              ++ " at position " ++ decimal (currentPosition (_lexer p))).

Definition lookahead (rest : list Token) : Token := hd eofToken rest.

(** The tokens of the words of the language. *)
Definition kw (s : string) : Token := mkToken KEYWORD s.
Definition ident (s : string) : Token := mkToken IDENTIFIER s.
Definition num (s : string) : Token := mkToken NUMBER s.
Definition cmp (s : string) : Token := mkToken COMPARISON_OPERATOR s.
Definition tAND : Token := mkToken LOGICAL_OPERATOR "AND".
Definition tOR : Token := mkToken LOGICAL_OPERATOR "OR".
Definition lparen : Token := mkToken LPAREN "(".
Definition rparen : Token := mkToken RPAREN ")".
Definition comma : Token := mkToken COMMA ",".

Definition remaining (p : Parser) : nat := length (pending (_lexer p)).

(** [p'] is a state the parser reaches from [p] by pulling at least one token
    from the lexer: the lexer has less to scan, or it is exhausted and the
    lookahead is its end-of-input token. *)
Definition consumed (p p' : Parser) : Prop :=
  remaining p' < remaining p \/ (remaining p' = 0 /\ _currentToken p' = eofToken).

Definition reached (p p' : Parser) : Prop := p' = p \/ consumed p p'.

(** A method that returns only after pulling a token, or after pulling any
    number of them, and one that is never cut short. *)
Definition consuming {A} (m : M A) : Prop :=
  forall p a p', m p = Ok a p' -> consumed p p'.
Definition reaching {A} (m : M A) : Prop :=
  forall p a p', m p = Ok a p' -> reached p p'.
Definition fuel_free {A} (m : M A) : Prop :=
  forall p, m p <> OutOfFuel.

(** The fuel [parse()] is run with on a lexer. *)
Definition fuel_for (lexer : Lexer) : nat := S (length (pending lexer)).

(** [parse()] on a lexer, with the fuel that is enough for it. *)
Definition JS_parse (lexer : Lexer) : Result JS.SPLQuery :=
  JS.parse (fuel_for lexer) (new_Parser lexer).
Definition TS_parse (lexer : Lexer) : Result TS.SPLQuery :=
  TS.parse (fuel_for lexer) (new_Parser lexer).

(** What the specification calls collapsing: a sequence of exactly one
    operand is that operand, any other is wrapped. *)
Definition and_of (operands : list WhereCondition) : WhereCondition :=
  match operands with
  | [c] => c
  | _ => And operands
  end.

Definition or_of (operands : list WhereCondition) : WhereCondition :=
  match operands with
  | [c] => c
  | _ => Or operands
  end.

(** A condition unit: a token sequence that [_consumeConditionGroup] parses to
    a tree, whatever follows it. *)
Definition is_unit (fuel0 : nat) (u : list Token * WhereCondition) : Prop :=
  forall fuel rest n off,
    fuel0 <= fuel ->
    _consumeConditionGroup fuel (parser_on (fst u ++ rest) n off)
    = Ok (snd u) (parser_on rest (length (fst u) + n) off).

(** The tokens of units separated by AND, and of such groups separated by OR. *)
Definition and_tail (units : list (list Token * WhereCondition)) : list Token :=
  concat (map (fun u => tAND :: fst u) units).

Definition group_tokens (g : list (list Token * WhereCondition)) : list Token :=
  match g with
  | [] => []
  | u :: units => fst u ++ and_tail units
  end.

Definition or_tail (groups : list (list (list Token * WhereCondition))) : list Token :=
  concat (map (fun g => tOR :: group_tokens g) groups).

Definition condition_tokens (groups : list (list (list Token * WhereCondition)))
  : list Token :=
  match groups with
  | [] => []
  | g :: gs => group_tokens g ++ or_tail gs
  end.

Definition group_tree (g : list (list Token * WhereCondition)) : WhereCondition :=
  and_of (map snd g).

Definition condition_tree (groups : list (list (list Token * WhereCondition)))
  : WhereCondition :=
  or_of (map group_tree groups).

Definition groups_size (groups : list (list (list Token * WhereCondition))) : nat :=
  list_sum (map (fun g => S (length g)) groups).

(** What the specification says a comparison is parsed to: [>], [>=], [<],
    [<=] take a number on the right, [=] and [!=] a string, a number or null,
    and nothing else is a comparison. *)
Definition equality_operand (rhs : Token) : option CompareValue :=
  match type rhs with
  | STRING => Some (VString (value rhs))
  | NUMBER => Some (VNumber (Number (value rhs)))
  | NULL => Some VNull
  | _ => None
  end.

Definition relational_operand (rhs : Token) : option JsNumber :=
  match type rhs with
  | NUMBER => Some (Number (value rhs))
  | _ => None
  end.

Definition comparison_of (key op : string) (rhs : Token) : option WhereCondition :=
  if String.eqb op ">" then option_map (Gt key) (relational_operand rhs)
  else if String.eqb op ">=" then option_map (Gte key) (relational_operand rhs)
  else if String.eqb op "<" then option_map (Lt key) (relational_operand rhs)
  else if String.eqb op "<=" then option_map (Lte key) (relational_operand rhs)
  else if String.eqb op "=" then option_map (Eq key) (equality_operand rhs)
  else if String.eqb op "!=" then option_map (Neq key) (equality_operand rhs)
  else None.

Definition comparison_operators : list string := [">"; ">="; "<"; "<="; "="; "!="].

(** The invariant of the predicate tree in the data model: every [And] and
    every [Or] has at least two children. *)
Fixpoint no_singleton (c : WhereCondition) : bool :=
  match c with
  | And l => (2 <=? length l)%nat && forallb no_singleton l
  | Or l => (2 <=? length l)%nat && forallb no_singleton l
  | _ => true
  end.

(** ** The returned objects as JavaScript values

    The two parsers return objects with different property names; as
    JavaScript values they can be compared. *)

Inductive JsValue : Type :=
| JsUndefined
| JsNull
| JsString (s : string)
| JsNum (n : JsNumber)
| JsArray (items : list JsValue)
| JsObject (props : list (string * JsValue)).

Definition optional {A} (f : A -> JsValue) (x : option A) : JsValue :=
  match x with
  | Some a => f a
  | None => JsUndefined
  end.

Fixpoint lookup (name : string) (props : list (string * JsValue)) : JsValue :=
  match props with
  | [] => JsUndefined
  | (k, v) :: props' => if String.eqb k name then v else lookup name props'
  end.

(** [o.name], on an object. *)
Definition get (o : JsValue) (name : string) : JsValue :=
  match o with
  | JsObject props => lookup name props
  | _ => JsUndefined
  end.

Definition value_object (v : CompareValue) : JsValue :=
  match v with
  | VString s => JsString s
  | VNumber n => JsNum n
  | VNull => JsNull
  end.

Definition key_value (key : string) (v : JsValue) : JsValue :=
  JsObject [("key", JsString key); ("value", v)].

Fixpoint condition_object (c : WhereCondition) : JsValue :=
  match c with
  | And l => JsObject [("and", JsArray (map condition_object l))]
  | Or l => JsObject [("or", JsArray (map condition_object l))]
  | Gt k v => JsObject [("gt", key_value k (JsNum v))]
  | Gte k v => JsObject [("gte", key_value k (JsNum v))]
  | Lt k v => JsObject [("lt", key_value k (JsNum v))]
  | Lte k v => JsObject [("lte", key_value k (JsNum v))]
  | Eq k v => JsObject [("eq", key_value k (value_object v))]
  | Neq k v => JsObject [("neq", key_value k (value_object v))]
  end.

Definition limit_object (l : LimitAndOffset) : JsValue :=
  JsObject [("limit", JsNum (limit l)); ("offset", JsNum (offset l))].

Definition JS_column_object (c : JS.ColumnMetadata) : JsValue :=
  JsObject [("identifier", optional JsString (JS.identifier c));
            ("column", optional JsString (JS.column c));
            ("aggregationFunction", optional JsString (JS.aggregationFunction c))].

Definition TS_column_object (c : TS.ColumnMetadata) : JsValue :=
  JsObject [("column", optional JsString (TS.column c));
            ("displayName", optional JsString (TS.displayName c));
            ("aggregationFunction", optional JsString (TS.aggregationFunction c))].

Definition JS_plot_object (c : JS.PlotClause) : JsValue :=
  match c with
  | JS.BarPlotCall f categories values =>
      JsObject [("plotFunction", JsString f);
                ("categoriesIdentifier", JsString categories);
                ("valuesIdentifier", JsString values)]
  | JS.PointPlotCall f x y =>
      JsObject [("plotFunction", JsString f);
                ("xIdentifier", JsString x);
                ("yIdentifier", JsString y)]
  end.

Definition TS_plot_object (c : TS.PlotClause) : JsValue :=
  match c with
  | TS.BarPlotCall f categories values =>
      JsObject [("plotFunction", JsString f);
                ("categoriesColumn", TS_column_object categories);
                ("valuesColumn", TS_column_object values)]
  | TS.PointPlotCall f x y =>
      JsObject [("plotFunction", JsString f);
                ("xColumn", TS_column_object x);
                ("yColumn", TS_column_object y)]
  end.

Definition JS_query_object (q : JS.SPLQuery) : JsValue :=
  JsObject [("plotClause", optional JS_plot_object (JS.plotClause q));
            ("selectColumns", JsArray (map JS_column_object (JS.selectColumns q)));
            ("whereCondition", optional condition_object (JS.whereCondition q));
            ("groupKey", optional JsString (JS.groupKey q));
            ("limitAndOffset", optional limit_object (JS.limitAndOffset q))].

Definition TS_query_object (q : TS.SPLQuery) : JsValue :=
  JsObject [("plotClause", optional TS_plot_object (TS.plotClause q));
            ("selectColumns", JsArray (map TS_column_object (TS.selectColumns q)));
            ("whereCondition", optional condition_object (TS.whereCondition q));
            ("groupKey", optional JsString (TS.groupKey q));
            ("limitAndOffset", optional limit_object (TS.limitAndOffset q))].

(** Behavioural equivalence of two runs: both return structurally equal
    objects, or both throw after consuming the same tokens. *)
Definition same_outcome (ts : Result TS.SPLQuery) (js : Result JS.SPLQuery) : Prop :=
  match ts, js with
  | Ok q1 p1, Ok q2 p2 => TS_query_object q1 = JS_query_object q2 /\ p1 = p2
  | Throw _ p1, Throw _ p2 => p1 = p2
  | OutOfFuel, OutOfFuel => True
  | _, _ => False
  end.

(** ** Columns as they are written *)

Definition agg (f : string) : Token := mkToken AGGREGATION_FUNCTION f.
Definition plotfn (f : string) : Token := mkToken PLOT_FUNCTION f.

(** A select column of the grammar: a bare column, [COUNT()], or another
    aggregation function applied to a column; each with or without an alias. *)
Inductive ColumnSyntax : Type :=
| Bare (x : string)
| CountAll
| AggregationOf (f x : string).

Definition alias_tokens (alias : option string) : list Token :=
  match alias with
  | Some a => [kw "AS"; ident a]
  | None => []
  end.

Definition column_tokens (s : ColumnSyntax) (alias : option string) : list Token :=
  match s with
  | Bare x => [ident x]
  | CountAll => [agg "COUNT"; lparen; rparen]
  | AggregationOf f x => [agg f; lparen; ident x; rparen]
  end ++ alias_tokens alias.

(** The lexer's words: an aggregation other than COUNT has a name, and so has
    an alias. *)
Definition column_syntax_ok (s : ColumnSyntax) (alias : option string) : bool :=
  match s with
  | AggregationOf f _ => negb (String.eqb f "COUNT") && negb (String.eqb f EmptyString)
  | _ => true
  end
  && match alias with
     | Some a => negb (String.eqb a EmptyString)
     | None => true
     end.

(** The descriptor the specification gives a column: the identifier is the
    alias if one is given, otherwise [FUNC(column)] for an aggregation, and
    the bare column name otherwise; [COUNT] has no column. *)
Definition described_column (s : ColumnSyntax) : option string :=
  match s with
  | Bare x => Some x
  | CountAll => None
  | AggregationOf _ x => Some x
  end.

Definition described_aggregation (s : ColumnSyntax) : option string :=
  match s with
  | Bare _ => None
  | CountAll => Some "COUNT"
  | AggregationOf f _ => Some f
  end.

Definition described_identifier (s : ColumnSyntax) (alias : option string) : string :=
  match alias with
  | Some a => a
  | None =>
      match s with
      | Bare x => x
      | CountAll => "COUNT()"
      | AggregationOf f x => f ++ "(" ++ x ++ ")"
      end
  end.

Definition JS_descriptor (s : ColumnSyntax) (alias : option string) : JS.ColumnMetadata :=
  JS.mkColumnMetadata (Some (described_identifier s alias))
    (described_column s) (described_aggregation s).

(** What [parser.ts] returns for the same column. *)
Definition TS_descriptor (s : ColumnSyntax) (alias : option string) : TS.ColumnMetadata :=
  TS.mkColumnMetadata (described_column s) alias (described_aggregation s).

(** The identifier the compiled [_consumeColumn] computes (lines 96-103) from
    what [parser.ts] returns as [displayName]. *)
Definition with_identifier (d : TS.ColumnMetadata) : JS.ColumnMetadata :=
  let identifier :=
    if negb (truthy (TS.displayName d)) then
      if truthy (TS.aggregationFunction d)
      then Some (nullish_or (TS.aggregationFunction d) EmptyString
                   ++ "(" ++ nullish_or (TS.column d) EmptyString ++ ")")%string
      else TS.column d
    else TS.displayName d in
  JS.mkColumnMetadata identifier (TS.column d) (TS.aggregationFunction d).

(** The descriptor [parser.ts] returns for a bare column without alias. *)
Definition bare_column (x : string) : TS.ColumnMetadata :=
  TS.mkColumnMetadata (Some x) None None.

(** The lexer has nothing left and the lookahead is its end-of-input token. *)
Definition exhausted (p : Parser) : Prop :=
  remaining p = 0 /\ _currentToken p = eofToken.

(** ** Vocabulary of the further properties *)

(** The state after pulling [k] tokens from the lexer. *)
Definition pull (k : nat) (p : Parser) : Parser := Nat.iter k step p.

(** A method that only moves the parser forward: whether it returns or
    throws, the state it leaves is the one it found after some number of
    tokens pulled from the lexer. *)
Definition forward {A} (m : M A) : Prop :=
  forall p,
    match m p with
    | Ok _ p' => exists k, p' = pull k p
    | Throw _ p' => exists k, p' = pull k p
    | OutOfFuel => True
    end.

(** A method all of whose errors satisfy [E], a property of the error and of
    the state it is thrown in. *)
Definition throwing {A} (E : SPLError -> Parser -> Prop) (m : M A) : Prop :=
  forall p e p', m p = Throw e p' -> E e p'.

(** The errors of the parser. *)
Definition is_unexpected_token (e : SPLError) (p : Parser) : Prop :=
  e = unexpected_token p.

Definition is_invalid_plot_type (e : SPLError) : Prop :=
  exists f, e = mkSPLError ("Invalid plot type " ++ f)
            /\ f <> "BAR" /\ f <> "LINE" /\ f <> "SCATTER".

Definition is_invalid_operator (e : SPLError) : Prop :=
  exists op, e = mkSPLError ("Invalid comparison operator " ++ op)
             /\ ~ In op comparison_operators.

Definition is_invalid_operand (e : SPLError) : Prop :=
  e = mkSPLError "Equal comparison allowed only for string, number, and null".

Definition parse_error (e : SPLError) (p : Parser) : Prop :=
  is_unexpected_token e p \/ is_invalid_plot_type e.

Definition condition_error (e : SPLError) (p : Parser) : Prop :=
  is_unexpected_token e p \/ is_invalid_operator e \/ is_invalid_operand e.

(** The columns of a select clause as they are written for the parser: each
    one followed by a comma. *)
Definition column_and_comma (c : ColumnSyntax * option string) : list Token :=
  column_tokens (fst c) (snd c) ++ [comma].

Definition select_tokens (columns : list (ColumnSyntax * option string)) : list Token :=
  concat (map column_and_comma columns).

Definition starts_with_aggregation (c : ColumnSyntax * option string) : bool :=
  match fst c with
  | Bare _ => false
  | _ => true
  end.

Definition column_ok (c : ColumnSyntax * option string) : bool :=
  column_syntax_ok (fst c) (snd c).

Definition JS_descriptor_of (c : ColumnSyntax * option string) : JS.ColumnMetadata :=
  JS_descriptor (fst c) (snd c).

Definition TS_descriptor_of (c : ColumnSyntax * option string) : TS.ColumnMetadata :=
  TS_descriptor (fst c) (snd c).

(** The plot clause of [parser.ts] for a plot function and two columns. *)
Definition TS_plot_call (f : string) (x y : TS.ColumnMetadata) : TS.PlotClause :=
  if String.eqb f "BAR" then TS.BarPlotCall f x y else TS.PointPlotCall f x y.

(** A plot clause as it is written: PLOT, the plot function and two arguments
    in parentheses. *)
Definition plot_arguments (x y : ColumnSyntax * option string) : list Token :=
  column_tokens (fst x) (snd x) ++ comma :: column_tokens (fst y) (snd y) ++ [rparen].

Definition plot_tokens (f : string) (x y : ColumnSyntax * option string) : list Token :=
  kw "PLOT" :: plotfn f :: lparen :: plot_arguments x y.

Definition is_plot_function (f : string) : bool :=
  String.eqb f "BAR" || String.eqb f "LINE" || String.eqb f "SCATTER".

(** ** Conditions as they are written

    A predicate tree written back as tokens: a comparison as its three
    tokens, the operands of an [And] separated by AND and those of an [Or] by
    OR, an operand that is itself an [And] or an [Or] in parentheses. *)

Definition number_text (v : JsNumber) : string :=
  match v with
  | JsInt n => DecimalString.NilEmpty.string_of_uint (N.to_uint n)
  | JsNumberOf text => text
  end.

Definition value_token (v : CompareValue) : Token :=
  match v with
  | VString s => mkToken STRING s
  | VNumber n => num (number_text n)
  | VNull => mkToken NULL "null"
  end.

Definition in_parentheses (tokens : list Token) : list Token :=
  lparen :: tokens ++ [rparen].

Definition operand_tokens (c : WhereCondition) (tokens : list Token) : list Token :=
  match c with
  | And _ | Or _ => in_parentheses tokens
  | _ => tokens
  end.

Definition separated (separator : Token) (operands : list (list Token)) : list Token :=
  match operands with
  | [] => []
  | o :: os => o ++ concat (map (cons separator) os)
  end.

Fixpoint print_condition (c : WhereCondition) : list Token :=
  match c with
  | And l => separated tAND (map (fun o => operand_tokens o (print_condition o)) l)
  | Or l => separated tOR (map (fun o => operand_tokens o (print_condition o)) l)
  | Gt key v => [ident key; cmp ">"; num (number_text v)]
  | Gte key v => [ident key; cmp ">="; num (number_text v)]
  | Lt key v => [ident key; cmp "<"; num (number_text v)]
  | Lte key v => [ident key; cmp "<="; num (number_text v)]
  | Eq key v => [ident key; cmp "="; value_token v]
  | Neq key v => [ident key; cmp "!="; value_token v]
  end.

(** The numbers [Number] gives: an integer up to 2^53, or the number of a
    text that is not the digits of such an integer. *)
Definition number_ok (v : JsNumber) : bool :=
  match v with
  | JsInt n => (n <=? 2 ^ 53)%N
  | JsNumberOf text => negb (all_digits text && (digits_value 0 text <=? 2 ^ 53)%N)
  end.

Definition value_ok (v : CompareValue) : bool :=
  match v with
  | VNumber n => number_ok n
  | _ => true
  end.

(** The trees the WHERE clause can return: every [And] and [Or] has at least
    two operands, and every number is one [Number] gives. *)
Fixpoint well_formed (c : WhereCondition) : bool :=
  match c with
  | And l => (2 <=? length l)%nat && forallb well_formed l
  | Or l => (2 <=? length l)%nat && forallb well_formed l
  | Gt _ v | Gte _ v | Lt _ v | Lte _ v => number_ok v
  | Eq _ v | Neq _ v => value_ok v
  end.

(** [_consumeCondition] parses the tokens to the tree, before anything that
    does not go on with AND or OR. *)
Definition parses_to (fuel0 : nat) (tokens : list Token) (c : WhereCondition) : Prop :=
  forall fuel rest n off,
    fuel0 <= fuel ->
    value (lookahead rest) <> "AND" -> value (lookahead rest) <> "OR" ->
    _consumeCondition fuel (parser_on (tokens ++ rest) n off)
    = Ok c (parser_on rest (length tokens + n) off).

Definition operand_unit (c : WhereCondition) : list Token * WhereCondition :=
  (operand_tokens c (print_condition c), c).

(** * Properties *)


(** ** The monad and [_consumeToken] *)

Lemma TokenType_eqb_eq (a b : TokenType) : TokenType_eqb a b = true <-> a = b.
Proof. destruct a, b; simpl; split; intros H; try reflexivity; discriminate H. Qed.

Lemma TokenType_eqb_refl (a : TokenType) : TokenType_eqb a a = true.
Proof. apply TokenType_eqb_eq; reflexivity. Qed.

Lemma TokenType_eqb_neq (a b : TokenType) : TokenType_eqb a b = false <-> a <> b.
Proof.
  split.
  - intros H E. apply TokenType_eqb_eq in E. congruence.
  - intros H. destruct (TokenType_eqb a b) eqn:E; [|reflexivity].
    apply TokenType_eqb_eq in E. contradiction.
Qed.

Lemma bind_Ok_inv {A B} (m : M A) (k : A -> M B) p b p' :
  bind m k p = Ok b p' -> exists a p1, m p = Ok a p1 /\ k a p1 = Ok b p'.
Proof.
  unfold bind. destruct (m p) as [a p1| |]; intros H; try discriminate H.
  exists a, p1. split; [reflexivity | exact H].
Qed.

Lemma bind_Throw_inv {A B} (m : M A) (k : A -> M B) p e p' :
  bind m k p = Throw e p' ->
  m p = Throw e p' \/ exists a p1, m p = Ok a p1 /\ k a p1 = Throw e p'.
Proof.
  unfold bind. destruct (m p) as [a p1|e1 p1|]; intros H; try discriminate H.
  - right. exists a, p1. split; [reflexivity | exact H].
  - left. injection H as -> ->. reflexivity.
Qed.

Lemma bind_eq_Ok {A B} (m : M A) (k : A -> M B) p a p1 :
  m p = Ok a p1 -> bind m k p = k a p1.
Proof. unfold bind. intros ->. reflexivity. Qed.

Lemma bind_eq_Throw {A B} (m : M A) (k : A -> M B) p e p1 :
  m p = Throw e p1 -> bind m k p = Throw e p1.
Proof. unfold bind. intros ->. reflexivity. Qed.

Lemma consumeToken_eq tokenType val p :
  _consumeToken tokenType val p =
  if accepts tokenType val (_currentToken p)
  then Ok (_currentToken p) (step p)
  else Throw (unexpected_token p) p.
Proof.
  unfold _consumeToken, accepts, bind, currentToken, lexerPosition, advance, throw,
    ret, step, unexpected_token.
  destruct (TokenType_eqb _ _ && _); [|reflexivity].
  destruct (nextToken (_lexer p)); reflexivity.
Qed.

Lemma consumeToken_Ok_inv tokenType val p t p' :
  _consumeToken tokenType val p = Ok t p' ->
  type (_currentToken p) = tokenType /\ t = _currentToken p /\ p' = step p.
Proof.
  rewrite consumeToken_eq. unfold accepts.
  destruct (TokenType_eqb _ _) eqn:E; simpl; [|discriminate].
  destruct (negb _ || _); [|discriminate].
  intros H. injection H as <- <-. apply TokenType_eqb_eq in E. auto.
Qed.

Lemma consumeToken_Throw_inv tokenType val p e p' :
  _consumeToken tokenType val p = Throw e p' ->
  e = unexpected_token p /\ p' = p.
Proof.
  rewrite consumeToken_eq. destruct (accepts _ _ _); [discriminate|].
  intros H. injection H as <- <-. auto.
Qed.

Lemma advance_eq p : advance p = Ok tt (step p).
Proof. unfold advance, step. destruct (nextToken (_lexer p)); reflexivity. Qed.

Lemma parser_on_cons t ts n off :
  parser_on (t :: ts) n off = mkParser (mkLexer ts (S n) off) t.
Proof. reflexivity. Qed.

Lemma parser_on_current ts n off :
  _currentToken (parser_on ts n off) = lookahead ts.
Proof. destruct ts; reflexivity. Qed.

Lemma step_parser_on t ts n off :
  step (parser_on (t :: ts) n off) = parser_on ts (S n) off.
Proof. destruct ts; reflexivity. Qed.

(** Consuming the token the parser is on. *)
Lemma consumeToken_parser_on tokenType t ts n off :
  type t = tokenType ->
  _consumeToken tokenType None (parser_on (t :: ts) n off)
  = Ok t (parser_on ts (S n) off).
Proof.
  intros <-. rewrite consumeToken_eq, step_parser_on.
  unfold accepts. rewrite parser_on_cons. simpl.
  rewrite TokenType_eqb_refl. reflexivity.
Qed.

(** Splits a hypothesis [bind m k p = Ok b p'] into the two runs. *)
Ltac bind_inv H a p1 Hm :=
  apply bind_Ok_inv in H; destruct H as (a & p1 & Hm & H).

Lemma currentToken_Ok_inv p t p' :
  currentToken p = Ok t p' -> t = _currentToken p /\ p' = p.
Proof. unfold currentToken. intros H. injection H as <- <-. auto. Qed.

(** ** The select-clause loop *)

(** The loop returns only on an IDENTIFIER lookahead, with at least the
    column of its first round. *)
Lemma select_loop_Ok {C} (consumeColumn : M C) fuel :
  forall acc p cols p',
    select_loop consumeColumn fuel acc p = Ok cols p' ->
    type (_currentToken p') = IDENTIFIER /\ length acc < length cols.
Proof.
  induction fuel as [|fuel IH]; intros acc p cols p' H; simpl in H.
  - discriminate H.
  - bind_inv H c p1 Hc. bind_inv H t p2 Ht. bind_inv H t' p3 Hcur.
    apply currentToken_Ok_inv in Hcur. destruct Hcur as [-> ->].
    destruct (TokenType_eqb (type (_currentToken p2)) IDENTIFIER) eqn:E; simpl in H.
    + injection H as <- <-. apply TokenType_eqb_eq in E.
      split; [exact E|]. rewrite length_app. simpl. lia.
    + apply IH in H. destruct H as [H1 H2]. split; [exact H1|].
      rewrite length_app in H2. simpl in H2. lia.
Qed.

(** On an IDENTIFIER lookahead the three optional clauses return nothing and
    consume nothing, or throw. *)
Lemma where_on_identifier fuel p w p' :
  type (_currentToken p) = IDENTIFIER ->
  _consumeWhereClauseOptional fuel p = Ok w p' -> w = None /\ p' = p.
Proof.
  intros Hty H. unfold _consumeWhereClauseOptional in H.
  bind_inv H t p1 Hcur. apply currentToken_Ok_inv in Hcur. destruct Hcur as [-> ->].
  destruct (negb _).
  - injection H as <- <-. auto.
  - bind_inv H t p1 Hk. apply consumeToken_Ok_inv in Hk.
    destruct Hk as [Hk _]. congruence.
Qed.

Lemma groupBy_on_identifier p g p' :
  type (_currentToken p) = IDENTIFIER ->
  _consumeGroupByClauseOptional p = Ok g p' -> g = None /\ p' = p.
Proof.
  intros Hty H. unfold _consumeGroupByClauseOptional in H.
  bind_inv H t p1 Hcur. apply currentToken_Ok_inv in Hcur. destruct Hcur as [-> ->].
  destruct (negb _).
  - injection H as <- <-. auto.
  - bind_inv H t p1 Hk. apply consumeToken_Ok_inv in Hk.
    destruct Hk as [Hk _]. congruence.
Qed.

Lemma limit_on_identifier p l p' :
  type (_currentToken p) = IDENTIFIER ->
  _consumeLimitAndOffsetClauseOptional p = Ok l p' -> l = None /\ p' = p.
Proof.
  intros Hty H. unfold _consumeLimitAndOffsetClauseOptional in H.
  bind_inv H t p1 Hcur. apply currentToken_Ok_inv in Hcur. destruct Hcur as [-> ->].
  destruct (negb _).
  - injection H as <- <-. auto.
  - bind_inv H t p1 Hk. apply consumeToken_Ok_inv in Hk.
    destruct Hk as [Hk _]. congruence.
Qed.

(** After a select clause that returned, the end-of-input check is reached on
    an IDENTIFIER and fails: [parse()] returns no query, whatever the input. *)
Lemma clauses_after_select fuel p2 w p3 g p4 l p5 :
  type (_currentToken p2) = IDENTIFIER ->
  _consumeWhereClauseOptional fuel p2 = Ok w p3 ->
  _consumeGroupByClauseOptional p3 = Ok g p4 ->
  _consumeLimitAndOffsetClauseOptional p4 = Ok l p5 ->
  p5 = p2 /\ w = None /\ g = None /\ l = None.
Proof.
  intros Hty Hw Hg Hl.
  destruct (where_on_identifier _ _ _ _ Hty Hw) as [-> ->].
  destruct (groupBy_on_identifier _ _ _ Hty Hg) as [-> ->].
  destruct (limit_on_identifier _ _ _ Hty Hl) as [-> ->]. auto.
Qed.

Lemma JS_select_Ok fuel p cols p' :
  JS._consumeSelectClause fuel p = Ok cols p' ->
  type (_currentToken p') = IDENTIFIER /\ 1 <= length cols.
Proof.
  unfold JS._consumeSelectClause. intros H. bind_inv H t p1 Ht.
  apply select_loop_Ok in H. simpl in H. destruct H; split; [assumption|lia].
Qed.

Lemma TS_select_Ok fuel p cols p' :
  TS._consumeSelectClause fuel p = Ok cols p' ->
  type (_currentToken p') = IDENTIFIER /\ 1 <= length cols.
Proof.
  unfold TS._consumeSelectClause. intros H.
  apply select_loop_Ok in H. simpl in H. destruct H; split; [assumption|lia].
Qed.

Lemma JS_parse_never_returns fuel p q p' : JS.parse fuel p <> Ok q p'.
Proof.
  intros H. unfold JS.parse in H.
  bind_inv H plot p1 Hplot. bind_inv H cols p2 Hsel. bind_inv H w p3 Hw.
  bind_inv H g p4 Hg. bind_inv H l p5 Hl. bind_inv H t p6 Heof.
  apply JS_select_Ok in Hsel. destruct Hsel as [Hty _].
  destruct (clauses_after_select _ _ _ _ _ _ _ _ Hty Hw Hg Hl) as (-> & _).
  apply consumeToken_Ok_inv in Heof. destruct Heof as [Heof _]. congruence.
Qed.

Lemma TS_parse_never_returns fuel p q p' : TS.parse fuel p <> Ok q p'.
Proof.
  intros H. unfold TS.parse in H.
  bind_inv H plot p1 Hplot. bind_inv H cols p2 Hsel. bind_inv H w p3 Hw.
  bind_inv H g p4 Hg. bind_inv H l p5 Hl. bind_inv H t p6 Heof.
  apply TS_select_Ok in Hsel. destruct Hsel as [Hty _].
  destruct (clauses_after_select _ _ _ _ _ _ _ _ Hty Hw Hg Hl) as (-> & _).
  apply consumeToken_Ok_inv in Heof. destruct Heof as [Heof _]. congruence.
Qed.

(** ** Fuel: the loops of [parse()] end *)

Lemma consumed_step p : consumed p (step p).
Proof.
  unfold consumed, step, remaining, nextToken.
  destruct (pending (_lexer p)) as [|t ts] eqn:E; simpl.
  - right. rewrite E. auto.
  - left. lia.
Qed.

Lemma consumed_trans p p1 p2 : consumed p p1 -> consumed p1 p2 -> consumed p p2.
Proof. unfold consumed. intros [H1|H1] [H2|H2]; try (right; assumption); left; lia. Qed.

Lemma reached_consumed p p1 p2 : reached p p1 -> consumed p1 p2 -> consumed p p2.
Proof. intros [->|H1] H2; [exact H2 | eapply consumed_trans; eassumption]. Qed.

Lemma consumed_reached p p1 p2 : consumed p p1 -> reached p1 p2 -> consumed p p2.
Proof. intros H1 [->|H2]; [exact H1 | eapply consumed_trans; eassumption]. Qed.

Lemma reached_trans p p1 p2 : reached p p1 -> reached p1 p2 -> reached p p2.
Proof.
  intros [->|H1] H2; [exact H2|]. right. eapply consumed_reached; eassumption.
Qed.

Lemma reached_remaining p p' : reached p p' -> remaining p' <= remaining p.
Proof. intros [->|[H|[H _]]]; lia. Qed.

Lemma consuming_reaching {A} (m : M A) : consuming m -> reaching m.
Proof. intros H p a p' E. right. eapply H; eassumption. Qed.

Lemma reaching_ret {A} (a : A) : reaching (ret a).
Proof. intros p b p' H. injection H as <- <-. left. reflexivity. Qed.

Lemma reaching_currentToken : reaching currentToken.
Proof. intros p b p' H. injection H as <- <-. left. reflexivity. Qed.

Lemma consuming_consumeToken ty v : consuming (_consumeToken ty v).
Proof.
  intros p t p' H. apply consumeToken_Ok_inv in H. destruct H as (_ & _ & ->).
  apply consumed_step.
Qed.

Lemma consuming_advance : consuming advance.
Proof.
  intros p t p' H. rewrite advance_eq in H. injection H as _ <-. apply consumed_step.
Qed.

Lemma reaching_throw {A} msg : reaching (@throw A msg).
Proof. intros p a p' H. discriminate H. Qed.

Lemma reaching_bind {A B} (m : M A) (k : A -> M B) :
  reaching m -> (forall a, reaching (k a)) -> reaching (bind m k).
Proof.
  intros Hm Hk p b p' H. bind_inv H a p1 E.
  eapply reached_trans; [eapply Hm | eapply Hk]; eassumption.
Qed.

Lemma consuming_bind_l {A B} (m : M A) (k : A -> M B) :
  consuming m -> (forall a, reaching (k a)) -> consuming (bind m k).
Proof.
  intros Hm Hk p b p' H. bind_inv H a p1 E.
  eapply consumed_reached; [eapply Hm | eapply Hk]; eassumption.
Qed.

Lemma consuming_bind_r {A B} (m : M A) (k : A -> M B) :
  reaching m -> (forall a, consuming (k a)) -> consuming (bind m k).
Proof.
  intros Hm Hk p b p' H. bind_inv H a p1 E.
  eapply reached_consumed; [eapply Hm | eapply Hk]; eassumption.
Qed.

Lemma fuel_free_ret {A} (a : A) : fuel_free (ret a).
Proof. intros p H. discriminate H. Qed.

Lemma fuel_free_throw {A} msg : fuel_free (@throw A msg).
Proof. intros p H. discriminate H. Qed.

Lemma fuel_free_currentToken : fuel_free currentToken.
Proof. intros p H. discriminate H. Qed.

Lemma fuel_free_advance : fuel_free advance.
Proof. intros p H. rewrite advance_eq in H. discriminate H. Qed.

Lemma fuel_free_consumeToken ty v : fuel_free (_consumeToken ty v).
Proof.
  intros p H. rewrite consumeToken_eq in H. destruct (accepts ty v _); discriminate H.
Qed.

Lemma fuel_free_bind {A B} (m : M A) (k : A -> M B) :
  fuel_free m -> (forall a, fuel_free (k a)) -> fuel_free (bind m k).
Proof.
  intros Hm Hk p H. unfold bind in H. destruct (m p) as [a p1|e p1|] eqn:E.
  - exact (Hk a p1 H).
  - discriminate H.
  - exact (Hm p E).
Qed.

Create HintDb spl discriminated.
#[local] Hint Resolve reaching_ret reaching_currentToken reaching_throw
  consuming_consumeToken consuming_advance consuming_reaching
  fuel_free_ret fuel_free_throw fuel_free_currentToken fuel_free_advance
  fuel_free_consumeToken : spl.

(** Takes a goal about a method apart along its binds and conditionals. *)
Ltac fuel_free_tac :=
  repeat first
    [ solve [auto with spl]
    | progress cbv zeta
    | match goal with |- fuel_free (match ?c with _ => _ end) => destruct c end
    | apply fuel_free_bind; [|intro] ].

Ltac reaching_tac :=
  repeat first
    [ solve [auto with spl]
    | progress cbv zeta
    | match goal with |- reaching (match ?c with _ => _ end) => destruct c end
    | apply reaching_bind; [|intro] ].

Lemma JS_consumeColumn_fuel_free : fuel_free JS._consumeColumn.
Proof. unfold JS._consumeColumn. fuel_free_tac. Qed.

Lemma TS_consumeColumn_fuel_free : fuel_free TS._consumeColumn.
Proof. unfold TS._consumeColumn. fuel_free_tac. Qed.

Lemma JS_consumeColumn_consuming : consuming JS._consumeColumn.
Proof.
  unfold JS._consumeColumn.
  apply consuming_bind_r; [auto with spl|intro token].
  apply consuming_bind_l; [|intro; reaching_tac].
  destruct (TokenType_eqb _ _);
    (apply consuming_bind_l; [auto with spl|intro; reaching_tac]).
Qed.

Lemma TS_consumeColumn_consuming : consuming TS._consumeColumn.
Proof.
  unfold TS._consumeColumn.
  apply consuming_bind_r; [auto with spl|intro token].
  apply consuming_bind_l; [|intro; reaching_tac].
  destruct (TokenType_eqb _ _);
    (apply consuming_bind_l; [auto with spl|intro; reaching_tac]).
Qed.

#[local] Hint Resolve JS_consumeColumn_fuel_free TS_consumeColumn_fuel_free
  JS_consumeColumn_consuming TS_consumeColumn_consuming : spl.

Lemma JS_plot_fuel_free : fuel_free JS._consumePlotClauseOptional.
Proof. unfold JS._consumePlotClauseOptional, JS._consumePlotArgs. fuel_free_tac. Qed.

Lemma TS_plot_fuel_free : fuel_free TS._consumePlotClauseOptional.
Proof. unfold TS._consumePlotClauseOptional, TS._consumePlotArgs. fuel_free_tac. Qed.

Lemma JS_plot_reaching : reaching JS._consumePlotClauseOptional.
Proof. unfold JS._consumePlotClauseOptional, JS._consumePlotArgs. reaching_tac. Qed.

Lemma TS_plot_reaching : reaching TS._consumePlotClauseOptional.
Proof. unfold TS._consumePlotClauseOptional, TS._consumePlotArgs. reaching_tac. Qed.

Lemma groupBy_fuel_free : fuel_free _consumeGroupByClauseOptional.
Proof. unfold _consumeGroupByClauseOptional. fuel_free_tac. Qed.

Lemma limit_fuel_free : fuel_free _consumeLimitAndOffsetClauseOptional.
Proof. unfold _consumeLimitAndOffsetClauseOptional. fuel_free_tac. Qed.

Lemma where_on_identifier_fuel_free fuel p :
  type (_currentToken p) = IDENTIFIER ->
  _consumeWhereClauseOptional fuel p <> OutOfFuel.
Proof.
  intros Hty. unfold _consumeWhereClauseOptional, bind at 1, currentToken.
  destruct (negb _); [discriminate|].
  unfold bind at 1. rewrite consumeToken_eq. unfold accepts. rewrite Hty. discriminate.
Qed.

(** Every round of the select loop pulls two tokens; with more fuel than the
    lexer has tokens to scan the loop is not cut short. *)
Lemma select_loop_fuel {C} (consumeColumn : M C) :
  consuming consumeColumn -> fuel_free consumeColumn ->
  forall fuel acc p,
    remaining p < fuel -> select_loop consumeColumn fuel acc p <> OutOfFuel.
Proof.
  intros Hc Hf. induction fuel as [|fuel IH]; intros acc p Hlt; [lia|].
  simpl. unfold bind at 1.
  destruct (consumeColumn p) as [c p1|e p1|] eqn:E1; [|discriminate|destruct (Hf p E1)].
  apply Hc in E1. unfold bind at 1. rewrite consumeToken_eq.
  destruct (accepts COMMA None (_currentToken p1)) eqn:Ea; [|discriminate].
  assert (Hp1 : remaining p1 < remaining p).
  { destruct E1 as [E1|[_ E1]]; [exact E1|].
    rewrite E1 in Ea. discriminate Ea. }
  unfold bind at 1, currentToken.
  destruct (negb _); [|discriminate].
  apply IH. pose proof (reached_remaining p1 (step p1) (or_intror (consumed_step p1))).
  lia.
Qed.

Lemma remaining_new_Parser lexer :
  remaining (new_Parser lexer) < S (length (pending lexer)).
Proof.
  unfold new_Parser, nextToken, remaining. destruct lexer as [[|t ts] n off]; simpl; lia.
Qed.

Lemma clauses_after_select_fuel_free {Q} fuel p2 (k : option WhereCondition ->
    option string -> option LimitAndOffset -> Q) :
  type (_currentToken p2) = IDENTIFIER ->
  (whereCondition <- _consumeWhereClauseOptional fuel ;;
   groupKey <- _consumeGroupByClauseOptional ;;
   limitAndOffset <- _consumeLimitAndOffsetClauseOptional ;;
   _consumeToken EOF None ;;;
   ret (k whereCondition groupKey limitAndOffset)) p2 <> OutOfFuel.
Proof.
  intros Hty. unfold bind at 1.
  destruct (_consumeWhereClauseOptional fuel p2) as [w p3|e p3|] eqn:E3;
    [|discriminate|destruct (where_on_identifier_fuel_free _ _ Hty E3)].
  apply fuel_free_bind; [apply groupBy_fuel_free|intro].
  apply fuel_free_bind; [apply limit_fuel_free|intro].
  fuel_free_tac.
Qed.

Lemma JS_parse_fuel lexer fuel :
  fuel_for lexer <= fuel -> JS.parse fuel (new_Parser lexer) <> OutOfFuel.
Proof.
  intros Hfuel. pose proof (remaining_new_Parser lexer) as Hrem.
  unfold fuel_for in Hfuel. unfold JS.parse, bind at 1.
  destruct (JS._consumePlotClauseOptional _) as [plot p1|e p1|] eqn:E1;
    [|discriminate|destruct (JS_plot_fuel_free _ E1)].
  apply JS_plot_reaching, reached_remaining in E1.
  unfold bind at 1.
  destruct (JS._consumeSelectClause fuel p1) as [cols p2|e p2|] eqn:E2; [|discriminate|].
  - apply JS_select_Ok in E2. destruct E2 as [Hty _].
    apply (clauses_after_select_fuel_free fuel p2 (JS.mkSPLQuery plot cols) Hty).
  - exfalso. unfold JS._consumeSelectClause, bind in E2. rewrite consumeToken_eq in E2.
    destruct (accepts _ _ _); [|discriminate E2].
    revert E2. apply select_loop_fuel; auto with spl.
    pose proof (reached_remaining p1 (step p1) (or_intror (consumed_step p1))). lia.
Qed.

Lemma TS_parse_fuel lexer fuel :
  fuel_for lexer <= fuel -> TS.parse fuel (new_Parser lexer) <> OutOfFuel.
Proof.
  intros Hfuel. pose proof (remaining_new_Parser lexer) as Hrem.
  unfold fuel_for in Hfuel. unfold TS.parse, bind at 1.
  destruct (TS._consumePlotClauseOptional _) as [plot p1|e p1|] eqn:E1;
    [|discriminate|destruct (TS_plot_fuel_free _ E1)].
  apply TS_plot_reaching, reached_remaining in E1.
  unfold bind at 1.
  destruct (TS._consumeSelectClause fuel p1) as [cols p2|e p2|] eqn:E2; [|discriminate|].
  - apply TS_select_Ok in E2. destruct E2 as [Hty _].
    apply (clauses_after_select_fuel_free fuel p2 (TS.mkSPLQuery plot cols) Hty).
  - exfalso. unfold TS._consumeSelectClause in E2.
    revert E2. apply select_loop_fuel; auto with spl. lia.
Qed.

(** Whatever the tokens, [parse()] ends by throwing. *)
Lemma JS_parse_always_throws lexer fuel :
  fuel_for lexer <= fuel ->
  exists e p, JS.parse fuel (new_Parser lexer) = Throw e p.
Proof.
  intros Hfuel. destruct (JS.parse fuel (new_Parser lexer)) as [q p|e p|] eqn:E.
  - destruct (JS_parse_never_returns _ _ _ _ E).
  - exists e, p. reflexivity.
  - destruct (JS_parse_fuel _ _ Hfuel E).
Qed.

Lemma TS_parse_always_throws lexer fuel :
  fuel_for lexer <= fuel ->
  exists e p, TS.parse fuel (new_Parser lexer) = Throw e p.
Proof.
  intros Hfuel. destruct (TS.parse fuel (new_Parser lexer)) as [q p|e p|] eqn:E.
  - destruct (TS_parse_never_returns _ _ _ _ E).
  - exists e, p. reflexivity.
  - destruct (TS_parse_fuel _ _ Hfuel E).
Qed.

(** ** The WHERE condition: precedence and shape *)

Lemma and_loop_units fuel0 gfuel units :
  Forall (is_unit fuel0) units -> fuel0 <= gfuel ->
  forall fuel acc rest n off,
    length units < fuel ->
    value (lookahead rest) <> "AND" ->
    and_loop (_consumeConditionGroup gfuel) fuel acc
      (parser_on (and_tail units ++ rest) n off)
    = Ok (acc ++ map snd units) (parser_on rest (length (and_tail units) + n) off).
Proof.
  intros Hunits Hg. induction Hunits as [|u units Hu _ IH];
    intros fuel acc rest n off Hfuel Hrest;
    (destruct fuel as [|fuel]; [simpl in Hfuel; lia|]).
  - simpl. unfold bind, currentToken. rewrite parser_on_current.
    apply String.eqb_neq in Hrest. rewrite Hrest, app_nil_r. reflexivity.
  - unfold and_tail. simpl concat. fold (and_tail units).
    rewrite <- !app_comm_cons, <- app_assoc.
    cbn [and_loop]. unfold bind at 1, currentToken. rewrite parser_on_current.
    cbn [lookahead hd tAND value String.eqb Ascii.eqb Bool.eqb].
    unfold bind at 1. rewrite consumeToken_parser_on by reflexivity.
    unfold bind at 1. rewrite (Hu gfuel _ _ _ Hg).
    rewrite IH; [| simpl in Hfuel; lia | assumption].
    rewrite <- app_assoc. simpl. rewrite !length_app.
    f_equal. f_equal. lia.
Qed.

Lemma or_loop_groups fuel0 gfuel gs :
  Forall (Forall (is_unit fuel0)) gs -> Forall (fun g => g <> []) gs ->
  fuel0 <= gfuel ->
  forall fuel g acc rest n off,
    Forall (is_unit fuel0) g -> g <> [] ->
    length g + groups_size gs < fuel ->
    value (lookahead rest) <> "AND" -> value (lookahead rest) <> "OR" ->
    or_loop (_consumeConditionGroup gfuel) fuel acc
      (parser_on (condition_tokens (g :: gs) ++ rest) n off)
    = Ok (acc ++ map group_tree (g :: gs))
         (parser_on rest (length (condition_tokens (g :: gs)) + n) off).
Proof.
  intros Hgs Hne Hg. induction gs as [|g' gs IH];
    intros fuel g acc rest n off Hug Hgne Hfuel Hand Hor;
    (destruct g as [|u units]; [congruence|]);
    (destruct fuel as [|fuel]; [simpl in Hfuel; lia|]);
    inversion Hug as [|? ? Hu Hunits]; subst.
  - cbn [condition_tokens group_tokens or_tail map concat]. rewrite app_nil_r.
    rewrite <- app_assoc. cbn [or_loop]. unfold bind at 1.
    rewrite (Hu gfuel _ _ _ Hg).
    unfold bind at 1.
    rewrite (and_loop_units fuel0 gfuel units Hunits Hg);
      [| simpl in Hfuel; lia | assumption].
    unfold bind at 1, currentToken. rewrite parser_on_current.
    apply String.eqb_neq in Hor. rewrite Hor. cbn [negb app].
    unfold ret, group_tree, and_of. cbn [map]. rewrite !length_app. f_equal. f_equal. lia.
  - inversion Hgs as [|? ? Hug' Hgs']; inversion Hne as [|? ? Hg'ne Hne']; subst.
    cbn [condition_tokens group_tokens or_tail map concat].
    fold (or_tail gs). rewrite <- !app_assoc.
    cbn [or_loop]. unfold bind at 1.
    rewrite (Hu gfuel _ _ _ Hg).
    unfold bind at 1. rewrite <- app_comm_cons.
    rewrite (and_loop_units fuel0 gfuel units Hunits Hg);
      [| simpl in Hfuel; lia | simpl; discriminate].
    unfold bind at 1, currentToken. rewrite parser_on_current.
    cbn [lookahead hd tOR value String.eqb Ascii.eqb Bool.eqb negb].
    unfold bind at 1. rewrite advance_eq, step_parser_on.
    specialize (IH Hgs' Hne' fuel g' (acc ++ [and_of (snd u :: map snd units)])
                  rest (S (length (and_tail units) + (length (fst u) + n))) off
                  Hug' Hg'ne).
    cbn [condition_tokens] in IH. rewrite <- app_assoc in IH.
    unfold and_of in IH. cbn [app].
    rewrite IH; [| unfold groups_size in *; simpl in *; lia | assumption | assumption].
    rewrite <- app_assoc. cbn [map app]. unfold group_tree at 2. unfold and_of.
    cbn [map]. rewrite !length_app.
    cbn [length]. rewrite !length_app. f_equal. f_equal. lia.
Qed.

Lemma consumeCondition_groups fuel0 groups rest n off fuel :
  groups <> [] ->
  Forall (fun g => g <> []) groups ->
  Forall (Forall (is_unit fuel0)) groups ->
  value (lookahead rest) <> "AND" -> value (lookahead rest) <> "OR" ->
  fuel0 + groups_size groups < fuel ->
  _consumeCondition fuel (parser_on (condition_tokens groups ++ rest) n off)
  = Ok (condition_tree groups)
       (parser_on rest (length (condition_tokens groups) + n) off).
Proof.
  intros Hne Hgne Hunits Hand Hor Hfuel.
  destruct groups as [|g gs]; [congruence|].
  destruct fuel as [|fuel]; [lia|].
  inversion Hgne as [|? ? Hg Hgs]; inversion Hunits as [|? ? Hug Hugs]; subst.
  cbn [_consumeCondition]. unfold bind.
  fold (_consumeConditionGroup fuel).
  rewrite (or_loop_groups fuel0 fuel gs Hugs Hgs); try assumption.
  - unfold condition_tree, or_of. cbn [app].
    destruct (map group_tree (g :: gs)) as [|c [|c' l]]; reflexivity.
  - unfold groups_size in Hfuel. simpl in Hfuel. lia.
  - unfold groups_size in *. simpl in Hfuel. lia.
Qed.

Lemma consumeComparison_parser_on key op rhs rest n off :
  _consumeComparison (parser_on (ident key :: cmp op :: rhs :: rest) n off)
  = match comparison_of key op rhs with
    | Some c => Ok c (parser_on rest (3 + n) off)
    | None =>
        if existsb (String.eqb op) comparison_operators then
          if existsb (String.eqb op) ["="; "!="] then
            Throw (mkSPLError "Equal comparison allowed only for string, number, and null")
                  (parser_on rest (3 + n) off)
          else Throw (unexpected_token (parser_on (rhs :: rest) (2 + n) off))
                     (parser_on (rhs :: rest) (2 + n) off)
        else Throw (mkSPLError ("Invalid comparison operator " ++ op))
                   (parser_on (rhs :: rest) (2 + n) off)
    end.
Proof.
  unfold _consumeComparison. unfold bind at 1.
  rewrite consumeToken_parser_on by reflexivity.
  unfold bind at 1. rewrite consumeToken_parser_on by reflexivity.
  unfold comparison_of. cbn [value cmp].
  assert (Hrel : forall (mk : string -> JsNumber -> WhereCondition),
    (t <- _consumeToken NUMBER None ;; ret (mk (value (ident key)) (Number (value t))))
      (parser_on (rhs :: rest) (2 + n) off)
    = match option_map (mk key) (relational_operand rhs) with
      | Some c => Ok c (parser_on rest (3 + n) off)
      | None => Throw (unexpected_token (parser_on (rhs :: rest) (2 + n) off))
                      (parser_on (rhs :: rest) (2 + n) off)
      end).
  { intros mk. unfold bind. rewrite consumeToken_eq, step_parser_on.
    unfold accepts, relational_operand. rewrite parser_on_cons. cbn [_currentToken].
    destruct (type rhs); reflexivity. }
  assert (Heq : forall (mk : string -> CompareValue -> WhereCondition),
    (v <- _consumeComparisonValue ;; ret (mk (value (ident key)) v))
      (parser_on (rhs :: rest) (2 + n) off)
    = match option_map (mk key) (equality_operand rhs) with
      | Some c => Ok c (parser_on rest (3 + n) off)
      | None => Throw (mkSPLError "Equal comparison allowed only for string, number, and null")
                      (parser_on rest (3 + n) off)
      end).
  { intros mk. unfold bind at 1, _consumeComparisonValue, bind at 1, currentToken.
    unfold bind at 1. rewrite advance_eq, step_parser_on.
    unfold equality_operand. rewrite parser_on_cons. cbn [_currentToken].
    destruct (type rhs); reflexivity. }
  unfold comparison_operators. cbn [existsb].
  destruct (String.eqb op ">") eqn:E1;
    [apply String.eqb_eq in E1; subst op; rewrite Hrel; destruct (option_map _ _); reflexivity|].
  destruct (String.eqb op ">=") eqn:E2;
    [apply String.eqb_eq in E2; subst op; rewrite Hrel; destruct (option_map _ _); reflexivity|].
  destruct (String.eqb op "<") eqn:E3;
    [apply String.eqb_eq in E3; subst op; rewrite Hrel; destruct (option_map _ _); reflexivity|].
  destruct (String.eqb op "<=") eqn:E4;
    [apply String.eqb_eq in E4; subst op; rewrite Hrel; destruct (option_map _ _); reflexivity|].
  destruct (String.eqb op "=") eqn:E5;
    [apply String.eqb_eq in E5; subst op; rewrite Heq; destruct (option_map _ _); reflexivity|].
  destruct (String.eqb op "!=") eqn:E6;
    [apply String.eqb_eq in E6; subst op; rewrite Heq; destruct (option_map _ _); reflexivity|].
  reflexivity.
Qed.

(** A comparison is a condition unit. *)
Lemma comparison_is_unit key op rhs c :
  comparison_of key op rhs = Some c ->
  is_unit 0 ([ident key; cmp op; rhs], c).
Proof.
  intros Hc fuel rest n off _. cbn [fst snd app length].
  unfold _consumeConditionGroup, _consumeConditionGroup_of, bind at 1, currentToken.
  rewrite parser_on_current. cbn [lookahead hd type ident TokenType_eqb].
  rewrite consumeComparison_parser_on, Hc. reflexivity.
Qed.

(** A condition in parentheses is a condition unit. *)
Lemma parenthesized_is_unit fuel0 toks c :
  (forall fuel rest n off,
     fuel0 <= fuel ->
     _consumeCondition fuel (parser_on (toks ++ rparen :: rest) n off)
     = Ok c (parser_on (rparen :: rest) (length toks + n) off)) ->
  is_unit fuel0 (lparen :: toks ++ [rparen], c).
Proof.
  intros Hc fuel rest n off Hfuel. cbn [fst snd].
  unfold _consumeConditionGroup, _consumeConditionGroup_of, bind at 1, currentToken.
  rewrite <- !app_comm_cons, <- app_assoc. cbn [app].
  rewrite parser_on_current. cbn [lookahead hd type lparen TokenType_eqb].
  unfold bind at 1. rewrite consumeToken_parser_on by reflexivity.
  unfold bind at 1. rewrite (Hc fuel rest (S n) off Hfuel).
  unfold bind at 1. rewrite consumeToken_parser_on by reflexivity.
  unfold ret. cbn [length]. rewrite length_app. cbn [length].
  f_equal. f_equal. lia.
Qed.

Lemma is_unit_weaken fuel0 fuel1 u : fuel0 <= fuel1 -> is_unit fuel0 u -> is_unit fuel1 u.
Proof. intros Hle Hu fuel rest n off Hfuel. apply Hu. lia. Qed.

(** Groups of units in parentheses are a unit again: the units of a condition
    are comparisons and conditions in parentheses, to any depth. *)
Lemma parenthesized_groups_is_unit fuel0 groups :
  groups <> [] ->
  Forall (fun g => g <> []) groups ->
  Forall (Forall (is_unit fuel0)) groups ->
  is_unit (S (fuel0 + groups_size groups))
    (lparen :: condition_tokens groups ++ [rparen], condition_tree groups).
Proof.
  intros Hne Hgne Hunits. apply parenthesized_is_unit.
  intros fuel rest n off Hfuel.
  apply (consumeCondition_groups fuel0 groups (rparen :: rest) n off fuel);
    try assumption; try (simpl; discriminate); lia.
Qed.


(** C1: in a WHERE clause AND binds tighter than OR.  The tokens of
    OR-separated groups of AND-separated condition units, after the keyword
    WHERE and before a token that is neither AND nor OR, are parsed by
    [_consumeWhereClauseOptional] to the flat [Or] of the groups, each the flat
    [And] of its units, a single operand standing for itself.  Instantiated at
    [WHERE a=1 OR b=2 AND c=3] it gives the tree of the specification. *)
Theorem where_and_binds_tighter_than_or fuel0 groups rest n off fuel :
  groups <> [] ->
  Forall (fun g => g <> []) groups ->
  Forall (Forall (is_unit fuel0)) groups ->
  value (lookahead rest) <> "AND" -> value (lookahead rest) <> "OR" ->
  fuel0 + groups_size groups < fuel ->
  _consumeWhereClauseOptional fuel
    (parser_on (kw "WHERE" :: condition_tokens groups ++ rest) n off)
  = Ok (Some (condition_tree groups))
       (parser_on rest (length (condition_tokens groups) + S n) off).
Proof.
  intros Hne Hgne Hunits Hand Hor Hfuel.
  unfold _consumeWhereClauseOptional, bind at 1, currentToken.
  rewrite parser_on_current. cbn [lookahead hd kw value String.eqb Ascii.eqb Bool.eqb negb].
  unfold bind at 1. rewrite consumeToken_parser_on by reflexivity.
  unfold fmap, bind.
  rewrite (consumeCondition_groups fuel0 groups rest (S n) off fuel); auto.
Qed.

Lemma where_and_binds_tighter_than_or_example :
  _consumeWhereClauseOptional 10
    (parser_on [kw "WHERE"; ident "a"; cmp "="; num "1"; tOR;
                ident "b"; cmp "="; num "2"; tAND;
                ident "c"; cmp "="; num "3"] 0 (fun n => n))
  = Ok (Some (Or [Eq "a" (VNumber (JsInt 1));
                  And [Eq "b" (VNumber (JsInt 2)); Eq "c" (VNumber (JsInt 3))]]))
       (parser_on [] 12 (fun n => n)).
Proof.
  exact (where_and_binds_tighter_than_or 0
    [ [([ident "a"; cmp "="; num "1"], Eq "a" (VNumber (JsInt 1)))];
      [([ident "b"; cmp "="; num "2"], Eq "b" (VNumber (JsInt 2)));
       ([ident "c"; cmp "="; num "3"], Eq "c" (VNumber (JsInt 3)))] ]
    [] 0 (fun n => n) 10
    ltac:(discriminate)
    ltac:(repeat constructor; discriminate)
    ltac:(repeat constructor; apply comparison_is_unit; reflexivity)
    ltac:(simpl; discriminate) ltac:(simpl; discriminate)
    ltac:(vm_compute; lia)).
Defined.

(** The same clause, whatever fuel is left over and whatever the offsets. *)
Example precedence_any_fuel fuel off :
  _consumeWhereClauseOptional (5 + fuel)
    (parser_on [kw "WHERE"; ident "a"; cmp "="; num "1"; tOR;
                ident "b"; cmp "="; num "2"; tAND;
                ident "c"; cmp "="; num "3"] 0 off)
  = Ok (Some (Or [Eq "a" (VNumber (JsInt 1));
                  And [Eq "b" (VNumber (JsInt 2)); Eq "c" (VNumber (JsInt 3))]]))
       (parser_on [] 12 off).
Proof. reflexivity. Qed.

(** Parentheses group against the precedence. *)
Example parentheses_any_fuel fuel off :
  _consumeWhereClauseOptional (6 + fuel)
    (parser_on [kw "WHERE"; lparen; ident "a"; cmp "="; num "1"; tOR;
                ident "b"; cmp "="; num "2"; rparen; tAND;
                ident "c"; cmp "="; num "3"] 0 off)
  = Ok (Some (And [Or [Eq "a" (VNumber (JsInt 1)); Eq "b" (VNumber (JsInt 2))];
                   Eq "c" (VNumber (JsInt 3))]))
       (parser_on [] 14 off).
Proof. reflexivity. Qed.

(** ** Comparisons *)

(** C5: in a comparison [key op rhs] with one of the six operators, [>],
    [>=], [<] and [<=] accept only a NUMBER token on the right and [=] and
    [!=] exactly a STRING, NUMBER or NULL token ([comparison_of] says so in
    the words of the specification); [_consumeComparison] returns the
    comparison when the operand is accepted and throws, returning nothing,
    when it is not. *)
Theorem comparison_operand_kinds key op rhs rest n off :
  In op comparison_operators ->
  match comparison_of key op rhs with
  | Some c =>
      _consumeComparison (parser_on (ident key :: cmp op :: rhs :: rest) n off)
      = Ok c (parser_on rest (3 + n) off)
  | None =>
      exists e p,
        _consumeComparison (parser_on (ident key :: cmp op :: rhs :: rest) n off)
        = Throw e p
  end.
Proof.
  intros Hop. rewrite consumeComparison_parser_on.
  destruct (comparison_of key op rhs) as [c|]; [reflexivity|].
  assert (Hex : existsb (String.eqb op) comparison_operators = true).
  { apply existsb_exists. exists op. split; [exact Hop | apply String.eqb_refl]. }
  rewrite Hex. clear Hex.
  destruct (existsb (String.eqb op) ["="; "!="]); eexists; eexists; reflexivity.
Qed.

Lemma comparison_operand_kinds_example :
  exists e p,
    _consumeComparison (parser_on [ident "a"; cmp "="; ident "TRUE"] 0 (fun n => n))
    = Throw e p.
Proof.
  exact (comparison_operand_kinds "a" "=" (ident "TRUE") [] 0 (fun n => n)
           ltac:(simpl; auto 10)).
Defined.

(** The clause [WHERE a = TRUE] is rejected for the kind of its literal, and
    the query [SELECT a WHERE a = TRUE] is rejected by both parsers. *)
Example where_equals_true_rejected fuel off :
  _consumeWhereClauseOptional (2 + fuel)
    (parser_on [kw "WHERE"; ident "a"; cmp "="; ident "TRUE"] 0 off)
  = Throw (mkSPLError "Equal comparison allowed only for string, number, and null")
          (parser_on [] 4 off).
Proof. reflexivity. Qed.

Example select_where_equals_true_rejected off :
  (exists e p,
     JS_parse (mkLexer [kw "SELECT"; ident "a"; kw "WHERE"; ident "a"; cmp "=";
                        ident "TRUE"] 0 off) = Throw e p)
  /\ (exists e p,
     TS_parse (mkLexer [kw "SELECT"; ident "a"; kw "WHERE"; ident "a"; cmp "=";
                        ident "TRUE"] 0 off) = Throw e p).
Proof. split; eexists; eexists; reflexivity. Qed.

(** ** The invariants of the data model *)

Lemma consumeComparison_leaf p c p' :
  _consumeComparison p = Ok c p' -> no_singleton c = true.
Proof.
  unfold _consumeComparison. intros H.
  bind_inv H k p1 Hk. bind_inv H o p2 Ho.
  repeat match type of H with
         | (if ?b then _ else _) _ = _ => destruct b
         end;
    try (bind_inv H t p3 Ht; injection H as <- <-; reflexivity).
  discriminate H.
Qed.

Lemma consumeConditionGroup_of_no_singleton (condition : M WhereCondition) :
  (forall p c p', condition p = Ok c p' -> no_singleton c = true) ->
  forall p c p',
    _consumeConditionGroup_of condition p = Ok c p' -> no_singleton c = true.
Proof.
  intros Hcond p c p' H. unfold _consumeConditionGroup_of in H.
  bind_inv H t p1 Ht. destruct (TokenType_eqb _ _).
  - eapply consumeComparison_leaf; eassumption.
  - bind_inv H l p2 Hl. bind_inv H c' p3 Hc. bind_inv H r p4 Hr.
    injection H as <- <-. eapply Hcond; eassumption.
Qed.

Lemma forallb_snoc {A} (f : A -> bool) l x :
  forallb f (l ++ [x]) = forallb f l && f x.
Proof. rewrite forallb_app. simpl. rewrite andb_true_r. reflexivity. Qed.

Lemma and_loop_no_singleton (group : M WhereCondition) :
  (forall p c p', group p = Ok c p' -> no_singleton c = true) ->
  forall fuel acc p l p',
    and_loop group fuel acc p = Ok l p' ->
    forallb no_singleton acc = true ->
    forallb no_singleton l = true /\ length acc <= length l.
Proof.
  intros Hgroup. induction fuel as [|fuel IH]; intros acc p l p' H Hacc; simpl in H.
  - discriminate H.
  - bind_inv H t p1 Ht. destruct (String.eqb _ _).
    + bind_inv H a p2 Ha. bind_inv H c p3 Hc.
      apply IH in H.
      * destruct H as [H1 H2]. split; [exact H1|].
        rewrite length_app in H2. simpl in H2. lia.
      * rewrite forallb_snoc, Hacc. simpl. eapply Hgroup; eassumption.
    + injection H as <- <-. split; [exact Hacc | lia].
Qed.

Lemma and_of_no_singleton l :
  forallb no_singleton l = true -> 1 <= length l -> no_singleton (and_of l) = true.
Proof.
  intros Hl Hlen. destruct l as [|c [|c' l]]; simpl in *; try lia.
  - rewrite andb_true_r in Hl. exact Hl.
  - exact Hl.
Qed.

Lemma or_of_no_singleton l :
  forallb no_singleton l = true -> 1 <= length l -> no_singleton (or_of l) = true.
Proof.
  intros Hl Hlen. destruct l as [|c [|c' l]]; simpl in *; try lia.
  - rewrite andb_true_r in Hl. exact Hl.
  - exact Hl.
Qed.

Lemma or_loop_no_singleton (group : M WhereCondition) :
  (forall p c p', group p = Ok c p' -> no_singleton c = true) ->
  forall fuel acc p l p',
    or_loop group fuel acc p = Ok l p' ->
    forallb no_singleton acc = true ->
    forallb no_singleton l = true /\ length acc < length l.
Proof.
  intros Hgroup. induction fuel as [|fuel IH]; intros acc p l p' H Hacc; simpl in H.
  - discriminate H.
  - bind_inv H c p1 Hc. bind_inv H inner p2 Hinner. bind_inv H t p3 Ht.
    apply and_loop_no_singleton in Hinner;
      [|exact Hgroup|simpl; rewrite (Hgroup _ _ _ Hc); reflexivity].
    destruct Hinner as [Hin Hlen]. simpl in Hlen.
    assert (Hnew : forallb no_singleton (acc ++ [and_of inner]) = true).
    { rewrite forallb_snoc, Hacc. simpl. apply and_of_no_singleton; assumption. }
    change (match inner with [c0] => c0 | _ => And inner end) with (and_of inner) in H.
    destruct (negb _).
    + injection H as <- <-. split; [exact Hnew|]. rewrite length_app. simpl. lia.
    + bind_inv H u p4 Hu. apply IH in H; [|exact Hnew].
      destruct H as [H1 H2]. split; [exact H1|].
      rewrite length_app in H2. simpl in H2. lia.
Qed.

Lemma consumeCondition_no_singleton fuel :
  forall p c p', _consumeCondition fuel p = Ok c p' -> no_singleton c = true.
Proof.
  induction fuel as [|fuel IH]; intros p c p' H; simpl in H.
  - discriminate H.
  - bind_inv H filters p1 Hf.
    apply or_loop_no_singleton in Hf;
      [|apply consumeConditionGroup_of_no_singleton; exact IH|reflexivity].
    destruct Hf as [Hall Hlen]. simpl in Hlen.
    assert (Hc : c = or_of filters).
    { destruct filters as [|c0 [|c1 l]]; injection H as <- <-; reflexivity. }
    subst c. apply or_of_no_singleton; [exact Hall | lia].
Qed.

(** C7: what the parser returns satisfies the invariants of the data model.
    The select columns a select clause returns are at least one, in both
    parsers; every [And] and every [Or] of the tree a WHERE clause returns
    has at least two children, a group of one operand being that operand:
    [WHERE (a>1)] is parsed to the comparison itself. *)
Theorem returned_query_invariants :
  (forall fuel p cols p',
     JS._consumeSelectClause fuel p = Ok cols p' -> 1 <= length cols)
  /\ (forall fuel p cols p',
     TS._consumeSelectClause fuel p = Ok cols p' -> 1 <= length cols)
  /\ (forall fuel p w p',
     _consumeWhereClauseOptional fuel p = Ok (Some w) p' -> no_singleton w = true)
  /\ (forall fuel off,
     _consumeWhereClauseOptional (4 + fuel)
       (parser_on [kw "WHERE"; lparen; ident "a"; cmp ">"; num "1"; rparen] 0 off)
     = Ok (Some (Gt "a" (JsInt 1))) (parser_on [] 6 off)).
Proof.
  split; [|split; [|split]].
  - intros fuel p cols p' H. apply JS_select_Ok in H. apply H.
  - intros fuel p cols p' H. apply TS_select_Ok in H. apply H.
  - intros fuel p w p' H. unfold _consumeWhereClauseOptional in H.
    bind_inv H t p1 Ht. destruct (negb _); [discriminate H|].
    bind_inv H k p2 Hk. unfold fmap in H. bind_inv H c p3 Hc.
    injection H as <- <-. eapply consumeCondition_no_singleton; eassumption.
  - reflexivity.
Qed.

(** The invariants at work: the select clause of [SELECT a, b] returns a
    column, and the WHERE clause [WHERE a>1 AND b>2 OR c>3] a tree without
    singleton nodes. *)
Lemma returned_query_invariants_example :
  1 <= length [JS.mkColumnMetadata (Some "a") (Some "a") None]
  /\ no_singleton (Or [And [Gt "a" (JsInt 1); Gt "b" (JsInt 2)]; Gt "c" (JsInt 3)])
     = true.
Proof.
  split.
  - exact (proj1 returned_query_invariants 2
             (parser_on [kw "SELECT"; ident "a"; comma; ident "b"] 0 (fun n => n))
             [JS.mkColumnMetadata (Some "a") (Some "a") None]
             (parser_on [ident "b"] 3 (fun n => n)) eq_refl).
  - exact (proj1 (proj2 (proj2 returned_query_invariants)) 10
             (parser_on [kw "WHERE"; ident "a"; cmp ">"; num "1"; tAND;
                         ident "b"; cmp ">"; num "2"; tOR;
                         ident "c"; cmp ">"; num "3"] 0 (fun n => n))
             (Or [And [Gt "a" (JsInt 1); Gt "b" (JsInt 2)]; Gt "c" (JsInt 3)])
             (parser_on [] 12 (fun n => n)) eq_refl).
Defined.

(** ** The select clause and the end of the query *)

(** C2: the select loop asks for a comma after every column, the last one
    too, and goes on while the lookahead after the comma is not an
    IDENTIFIER.  The query [SELECT a], whose only column is followed by the
    end of input, and the query [SELECT a WHERE a > 1], whose only column is
    followed by the next clause, are not accepted: the compiled parser throws
    on the token after the column, where it wants the comma ([parser.ts]
    throws on the keyword SELECT already). *)
Theorem select_last_column_needs_comma off :
  JS_parse (mkLexer [kw "SELECT"; ident "a"] 0 off)
  = Throw (unexpected_token (parser_on [] 2 off)) (parser_on [] 2 off)
  /\ JS_parse (mkLexer [kw "SELECT"; ident "a"; kw "WHERE"; ident "a"; cmp ">"; num "1"]
                0 off)
     = Throw (unexpected_token
                (parser_on [kw "WHERE"; ident "a"; cmp ">"; num "1"] 2 off))
             (parser_on [kw "WHERE"; ident "a"; cmp ">"; num "1"] 2 off)
  /\ TS_parse (mkLexer [kw "SELECT"; ident "a"] 0 off)
     = Throw (unexpected_token (parser_on [kw "SELECT"; ident "a"] 0 off))
             (parser_on [kw "SELECT"; ident "a"] 0 off)
  /\ TS_parse (mkLexer [ident "a"] 0 off)
     = Throw (unexpected_token (parser_on [] 1 off)) (parser_on [] 1 off).
Proof. repeat split; reflexivity. Qed.

(** The message of the first of these errors, at character offsets. *)
Example select_a_message :
  JS_parse (mkLexer [kw "SELECT"; ident "a"] 0 (fun n => 7 * n))
  = Throw (mkSPLError
             ("Unexpected token {" ++ dquote ++ "type" ++ dquote ++ ":"
              ++ dquote ++ "EOF" ++ dquote ++ "," ++ dquote ++ "value" ++ dquote
              ++ ":" ++ dquote ++ dquote ++ "} at position 14"))
          (parser_on [] 2 (fun n => 7 * n)).
Proof. reflexivity. Qed.

(** A round of the select loop whose column is not followed by a comma
    throws, whatever the token is. *)
Lemma select_loop_needs_comma {C} (consumeColumn : M C) fuel acc p c p1 :
  consumeColumn p = Ok c p1 ->
  type (_currentToken p1) <> COMMA ->
  select_loop consumeColumn (S fuel) acc p = Throw (unexpected_token p1) p1.
Proof.
  intros Hc Hty. cbn [select_loop]. unfold bind at 1. rewrite Hc.
  unfold bind at 1. rewrite consumeToken_eq. unfold accepts.
  apply TokenType_eqb_neq in Hty. rewrite Hty. reflexivity.
Qed.

(** ** LIMIT and OFFSET *)

(** The clause itself: an absent OFFSET is 0. *)
Lemma limit_without_offset text rest n off :
  value (lookahead rest) <> "OFFSET" ->
  _consumeLimitAndOffsetClauseOptional (parser_on (kw "LIMIT" :: num text :: rest) n off)
  = Ok (Some (mkLimitAndOffset (Number text) (JsInt 0))) (parser_on rest (2 + n) off).
Proof.
  intros Hrest. unfold _consumeLimitAndOffsetClauseOptional, bind at 1, currentToken.
  rewrite parser_on_current. cbn [lookahead hd kw value String.eqb Ascii.eqb Bool.eqb negb].
  unfold bind at 1. rewrite consumeToken_parser_on by reflexivity.
  unfold bind at 1. rewrite consumeToken_parser_on by reflexivity.
  unfold bind at 1, currentToken. rewrite parser_on_current.
  apply String.eqb_neq in Hrest. rewrite Hrest. reflexivity.
Qed.

Lemma limit_with_offset text text' rest n off :
  _consumeLimitAndOffsetClauseOptional
    (parser_on (kw "LIMIT" :: num text :: kw "OFFSET" :: num text' :: rest) n off)
  = Ok (Some (mkLimitAndOffset (Number text) (Number text'))) (parser_on rest (4 + n) off).
Proof.
  unfold _consumeLimitAndOffsetClauseOptional, bind at 1, currentToken.
  rewrite parser_on_current. cbn [lookahead hd kw value String.eqb Ascii.eqb Bool.eqb negb].
  unfold bind at 1. rewrite consumeToken_parser_on by reflexivity.
  unfold bind at 1. rewrite consumeToken_parser_on by reflexivity.
  unfold bind at 1, currentToken. rewrite parser_on_current.
  cbn [lookahead hd kw value String.eqb Ascii.eqb Bool.eqb negb].
  unfold bind at 1. rewrite consumeToken_parser_on by reflexivity.
  unfold bind at 1. rewrite consumeToken_parser_on by reflexivity.
  reflexivity.
Qed.

Example limit_10 rest n off :
  value (lookahead rest) <> "OFFSET" ->
  _consumeLimitAndOffsetClauseOptional (parser_on (kw "LIMIT" :: num "10" :: rest) n off)
  = Ok (Some (mkLimitAndOffset (JsInt 10) (JsInt 0))) (parser_on rest (2 + n) off).
Proof. apply limit_without_offset. Qed.

Example limit_10_offset_5 rest n off :
  _consumeLimitAndOffsetClauseOptional
    (parser_on (kw "LIMIT" :: num "10" :: kw "OFFSET" :: num "5" :: rest) n off)
  = Ok (Some (mkLimitAndOffset (JsInt 10) (JsInt 5))) (parser_on rest (4 + n) off).
Proof. apply limit_with_offset. Qed.

(** C6: on the queries [SELECT a LIMIT 10] and [SELECT a LIMIT 10 OFFSET 5]
    [parse()] does not reach the LIMIT clause: the select loop, on the keyword
    LIMIT where it wants a comma, throws, and no [limitAndOffset] is
    returned. *)
Theorem select_limit_not_reached off :
  JS_parse (mkLexer [kw "SELECT"; ident "a"; kw "LIMIT"; num "10"] 0 off)
  = Throw (unexpected_token (parser_on [kw "LIMIT"; num "10"] 2 off))
          (parser_on [kw "LIMIT"; num "10"] 2 off)
  /\ JS_parse (mkLexer [kw "SELECT"; ident "a"; kw "LIMIT"; num "10";
                        kw "OFFSET"; num "5"] 0 off)
     = Throw (unexpected_token
                (parser_on [kw "LIMIT"; num "10"; kw "OFFSET"; num "5"] 2 off))
             (parser_on [kw "LIMIT"; num "10"; kw "OFFSET"; num "5"] 2 off)
  /\ (exists e p,
        TS_parse (mkLexer [kw "SELECT"; ident "a"; kw "LIMIT"; num "10"] 0 off)
        = Throw e p)
  /\ (exists e p,
        TS_parse (mkLexer [kw "SELECT"; ident "a"; kw "LIMIT"; num "10";
                           kw "OFFSET"; num "5"] 0 off)
        = Throw e p).
Proof. repeat split; try reflexivity; eexists; eexists; reflexivity. Qed.

(** C8: the end-of-input step is not where a valid query with tokens after
    it is rejected.  On [SELECT a LIMIT 10] followed by any tokens the
    compiled parser throws in the select loop, on the keyword LIMIT where the
    loop wants a comma, with those tokens still in the lexer: the error is the
    same whatever they are, and the same when there are none.  [parser.ts]
    throws on the keyword SELECT, and on LIMIT when the query is written
    without SELECT. *)
Theorem trailing_tokens_not_reached trailing off :
  JS_parse (mkLexer (kw "SELECT" :: ident "a" :: kw "LIMIT" :: num "10" :: trailing) 0 off)
  = Throw (unexpected_token (parser_on (kw "LIMIT" :: num "10" :: trailing) 2 off))
          (parser_on (kw "LIMIT" :: num "10" :: trailing) 2 off)
  /\ TS_parse (mkLexer (kw "SELECT" :: ident "a" :: kw "LIMIT" :: num "10" :: trailing)
                 0 off)
     = Throw (unexpected_token
                (parser_on (kw "SELECT" :: ident "a" :: kw "LIMIT" :: num "10" :: trailing)
                   0 off))
             (parser_on (kw "SELECT" :: ident "a" :: kw "LIMIT" :: num "10" :: trailing)
                0 off)
  /\ TS_parse (mkLexer (ident "a" :: kw "LIMIT" :: num "10" :: trailing) 0 off)
     = Throw (unexpected_token (parser_on (kw "LIMIT" :: num "10" :: trailing) 1 off))
             (parser_on (kw "LIMIT" :: num "10" :: trailing) 1 off).
Proof. repeat split. Qed.

(** On [SELECT a LIMIT 10 x] the error names the keyword LIMIT, at the
    position after it, and not the token [x]. *)
Example select_limit_trailing_message :
  JS_parse (mkLexer [kw "SELECT"; ident "a"; kw "LIMIT"; num "10"; ident "x"] 0
              (fun n => 10 * n))
  = Throw (mkSPLError
             ("Unexpected token {" ++ dquote ++ "type" ++ dquote ++ ":" ++ dquote
              ++ "KEYWORD" ++ dquote ++ "," ++ dquote ++ "value" ++ dquote ++ ":"
              ++ dquote ++ "LIMIT" ++ dquote ++ "} at position 30"))
          (parser_on [kw "LIMIT"; num "10"; ident "x"] 2 (fun n => 10 * n)).
Proof. reflexivity. Qed.

(** ** Error messages *)

Lemma prefix_app s t : String.prefix s (s ++ t) = true.
Proof.
  induction s as [|c s IH]; simpl.
  - destruct t; reflexivity.
  - destruct (ascii_dec c c) as [_|Hc]; [exact IH | congruence].
Qed.

Lemma prefix_refl s : String.prefix s s = true.
Proof.
  induction s as [|c s IH]; simpl; [reflexivity|].
  destruct (ascii_dec c c) as [_|Hc]; [exact IH | congruence].
Qed.

Lemma string_app_assoc (a b c : string) : ((a ++ b) ++ c = a ++ (b ++ c))%string.
Proof. induction a as [|x a IH]; simpl; [reflexivity | rewrite IH; reflexivity]. Qed.

Lemma includes_app a s b : includes s (a ++ s ++ b) = true.
Proof.
  induction a as [|c a IH].
  - cbn [String.append]. destruct (s ++ b)%string eqn:E;
      cbn [includes]; rewrite <- E, prefix_app; reflexivity.
  - cbn [String.append includes]. rewrite IH. apply orb_true_r.
Qed.

Lemma includes_app_end a s : includes s (a ++ s) = true.
Proof.
  induction a as [|c a IH].
  - cbn [String.append]. destruct s as [|c s]; [reflexivity|].
    cbn [includes]. rewrite prefix_refl. reflexivity.
  - cbn [String.append includes]. rewrite IH. apply orb_true_r.
Qed.

(** C9, as the code has it: the error for an unexpected token, thrown by
    [_consumeToken], has a message that includes the JSON text of the
    offending token and the scan position of the lexer at the time of the
    failure, and leaves the parser on that token.  The three other errors do
    not: an unknown plot function and an unknown comparison operator are
    reported by their text alone, and an unsupported equality operand by a
    fixed message. *)
Theorem error_messages :
  (forall tokenType val p e p',
     _consumeToken tokenType val p = Throw e p' ->
     p' = p
     /\ message e = ("Unexpected token " ++ JSON_stringify (_currentToken p)
                     ++ " at position " ++ decimal (currentPosition (_lexer p)))%string
     /\ includes (JSON_stringify (_currentToken p)) (message e) = true
     /\ includes (decimal (currentPosition (_lexer p))) (message e) = true)
  /\ (forall plotFunction p,
     plotFunction <> "BAR" -> plotFunction <> "LINE" -> plotFunction <> "SCATTER" ->
     JS._consumePlotArgs plotFunction p
     = Throw (mkSPLError ("Invalid plot type " ++ plotFunction)) p
     /\ TS._consumePlotArgs plotFunction p
        = Throw (mkSPLError ("Invalid plot type " ++ plotFunction)) p)
  /\ (forall key op rhs rest n off,
     ~ In op comparison_operators ->
     _consumeComparison (parser_on (ident key :: cmp op :: rhs :: rest) n off)
     = Throw (mkSPLError ("Invalid comparison operator " ++ op))
             (parser_on (rhs :: rest) (2 + n) off))
  /\ (forall p,
     equality_operand (_currentToken p) = None ->
     _consumeComparisonValue p
     = Throw (mkSPLError "Equal comparison allowed only for string, number, and null")
             (step p)).
Proof.
  split; [|split; [|split]].
  - intros tokenType val p e p' H. apply consumeToken_Throw_inv in H.
    destruct H as [-> ->]. split; [reflexivity|]. split; [reflexivity|].
    unfold unexpected_token. cbn [message]. split.
    + apply includes_app.
    + rewrite <- !string_app_assoc. apply includes_app_end.
  - intros f p Hbar Hline Hscatter.
    apply String.eqb_neq in Hbar, Hline, Hscatter.
    unfold JS._consumePlotArgs, TS._consumePlotArgs.
    rewrite Hbar, Hline, Hscatter. split; reflexivity.
  - intros key op rhs rest n off Hop. rewrite consumeComparison_parser_on.
    assert (Hex : existsb (String.eqb op) comparison_operators = false).
    { destruct (existsb _ _) eqn:E; [|reflexivity].
      apply existsb_exists in E. destruct E as (x & Hin & Hx).
      apply String.eqb_eq in Hx. subst x. contradiction. }
    assert (Hc : comparison_of key op rhs = None).
    { unfold comparison_operators in Hex. cbn [existsb] in Hex.
      repeat (apply orb_false_elim in Hex; destruct Hex as [? Hex]).
      unfold comparison_of.
      repeat match goal with H : String.eqb op _ = false |- _ => rewrite H; clear H end.
      reflexivity. }
    rewrite Hc, Hex. reflexivity.
  - intros p Hp. unfold _consumeComparisonValue, bind at 1, currentToken.
    unfold bind at 1. rewrite advance_eq. unfold equality_operand in Hp.
    destruct (type (_currentToken p)); try discriminate Hp; reflexivity.
Qed.

(** The instances: the four errors on inputs that raise them. *)
Lemma error_messages_example :
  includes (decimal 14)
    (message (unexpected_token (parser_on [] 2 (fun n => 7 * n)))) = true
  /\ JS._consumePlotArgs "PIE" (parser_on [ident "a"] 3 (fun n => n))
     = Throw (mkSPLError "Invalid plot type PIE") (parser_on [ident "a"] 3 (fun n => n))
  /\ _consumeComparison (parser_on [ident "a"; cmp ">>"; num "1"] 0 (fun n => n))
     = Throw (mkSPLError "Invalid comparison operator >>")
             (parser_on [num "1"] 2 (fun n => n))
  /\ _consumeComparisonValue (parser_on [ident "TRUE"] 3 (fun n => n))
     = Throw (mkSPLError "Equal comparison allowed only for string, number, and null")
             (parser_on [] 4 (fun n => n)).
Proof.
  split; [|split; [|split]].
  - exact (proj2 (proj2 (proj2 (proj1 error_messages COMMA None
             (parser_on [] 2 (fun n => 7 * n))
             (unexpected_token (parser_on [] 2 (fun n => 7 * n)))
             (parser_on [] 2 (fun n => 7 * n)) eq_refl)))).
  - exact (proj1 (proj1 (proj2 error_messages) "PIE"
             (parser_on [ident "a"] 3 (fun n => n))
             ltac:(discriminate) ltac:(discriminate) ltac:(discriminate))).
  - exact (proj1 (proj2 (proj2 error_messages)) "a" ">>" (num "1") [] 0 (fun n => n)
             ltac:(simpl; intuition discriminate)).
  - exact (proj2 (proj2 (proj2 error_messages))
             (parser_on [ident "TRUE"] 3 (fun n => n)) eq_refl).
Defined.

(** C9 fails as stated: the error for [WHERE a = TRUE] names neither the
    offending token nor a position, and the error for a plot function that is
    none of BAR, LINE and SCATTER has no position. *)
Lemma error_without_token_and_position :
  (exists e p,
     _consumeWhereClauseOptional 2
       (parser_on [kw "WHERE"; ident "a"; cmp "="; ident "TRUE"] 0 (fun n => n))
     = Throw e p
     /\ includes (JSON_stringify (ident "TRUE")) (message e) = false
     /\ includes "TRUE" (message e) = false
     /\ includes (decimal (currentPosition (_lexer p))) (message e) = false)
  /\ (exists e p,
     JS_parse (mkLexer [kw "PLOT"; plotfn "PIE"; lparen; ident "a"; comma; ident "b";
                        rparen; kw "SELECT"; ident "a"; comma; ident "b"] 0 (fun n => n))
     = Throw e p
     /\ includes (decimal (currentPosition (_lexer p))) (message e) = false).
Proof.
  split; eexists; eexists; (split; [reflexivity|]); repeat split; reflexivity.
Qed.

(** ** Column descriptors *)

(** Runs a method on a parser that stands on given tokens: reads the
    lookahead and consumes the tokens of the expected types, as far as the
    conditions on the way are decided. *)
Ltac run :=
  unfold bind, currentToken, ret;
  repeat first
    [ rewrite parser_on_current
    | rewrite consumeToken_parser_on by reflexivity
    | progress cbn [lookahead hd type value kw ident num cmp agg plotfn lparen
                    rparen comma tAND tOR TokenType_eqb String.eqb Ascii.eqb
                    Bool.eqb negb fst snd orb andb] ].

Lemma column_syntax_ok_alias s a :
  column_syntax_ok s (Some a) = true -> String.eqb a EmptyString = false.
Proof.
  unfold column_syntax_ok. intros H. apply andb_prop in H. destruct H as [_ H].
  apply negb_true_iff in H. exact H.
Qed.

Lemma column_syntax_ok_aggregation f x alias :
  column_syntax_ok (AggregationOf f x) alias = true ->
  String.eqb f "COUNT" = false /\ String.eqb f EmptyString = false.
Proof.
  unfold column_syntax_ok. intros H. apply andb_prop in H. destruct H as [H _].
  apply andb_prop in H. destruct H as [H1 H2].
  apply negb_true_iff in H1, H2. auto.
Qed.

Lemma JS_consumeColumn_syntax s alias rest n off :
  column_syntax_ok s alias = true ->
  (alias = None -> value (lookahead rest) <> "AS") ->
  JS._consumeColumn (parser_on (column_tokens s alias ++ rest) n off)
  = Ok (JS_descriptor s alias)
       (parser_on rest (length (column_tokens s alias) + n) off).
Proof.
  intros Hok Hrest. unfold JS._consumeColumn, JS_descriptor.
  destruct s as [x| |f x]; cbn [column_tokens app];
    (destruct alias as [a|];
     cbn [alias_tokens app length described_identifier described_column
          described_aggregation];
     [ pose proof (column_syntax_ok_alias _ _ Hok) as Ha
     | specialize (Hrest eq_refl); apply String.eqb_neq in Hrest ]).
  - run. unfold truthy. rewrite Ha. reflexivity.
  - run. rewrite Hrest. reflexivity.
  - run. unfold truthy. rewrite Ha. reflexivity.
  - run. rewrite Hrest. reflexivity.
  - destruct (column_syntax_ok_aggregation _ _ _ Hok) as [Hcount Hname].
    run. rewrite Hcount. run. unfold truthy. rewrite Ha. reflexivity.
  - destruct (column_syntax_ok_aggregation _ _ _ Hok) as [Hcount Hname].
    run. rewrite Hcount. run. rewrite Hrest. unfold truthy.
    cbn [negb]. rewrite Hname. reflexivity.
Qed.

Lemma TS_consumeColumn_syntax s alias rest n off :
  column_syntax_ok s alias = true ->
  (alias = None -> value (lookahead rest) <> "AS") ->
  TS._consumeColumn (parser_on (column_tokens s alias ++ rest) n off)
  = Ok (TS_descriptor s alias)
       (parser_on rest (length (column_tokens s alias) + n) off).
Proof.
  intros Hok Hrest. unfold TS._consumeColumn, TS_descriptor.
  destruct s as [x| |f x]; cbn [column_tokens app];
    (destruct alias as [a|];
     cbn [alias_tokens app length described_identifier described_column
          described_aggregation];
     [ | specialize (Hrest eq_refl); apply String.eqb_neq in Hrest ]).
  - run. reflexivity.
  - run. rewrite Hrest. reflexivity.
  - run. reflexivity.
  - run. rewrite Hrest. reflexivity.
  - destruct (column_syntax_ok_aggregation _ _ _ Hok) as [Hcount Hname].
    run. rewrite Hcount. run. reflexivity.
  - destruct (column_syntax_ok_aggregation _ _ _ Hok) as [Hcount Hname].
    run. rewrite Hcount. run. rewrite Hrest. reflexivity.
Qed.

(** The compiled [_consumeColumn] is the one of [parser.ts] followed by the
    computation of the identifier. *)
Lemma JS_consumeColumn_with_identifier p :
  JS._consumeColumn p = fmap with_identifier TS._consumeColumn p.
Proof.
  unfold JS._consumeColumn, TS._consumeColumn, fmap, with_identifier, bind, ret,
    currentToken.
  match goal with
  | |- context [match ?x with Ok _ _ => _ | _ => _ end] => destruct x as [parsed p1|e p1|]
  end; try reflexivity.
  match goal with
  | |- context [match ?x with Ok _ _ => _ | _ => _ end] => destruct x as [alias p2|e p2|]
  end; reflexivity.
Qed.

Lemma TS_consumeColumn_Ok_inv p d p' :
  TS._consumeColumn p = Ok d p' ->
  (TS.aggregationFunction d = Some "COUNT" /\ TS.column d = None)
  \/ (TS.aggregationFunction d <> Some "COUNT" /\ exists x, TS.column d = Some x).
Proof.
  unfold TS._consumeColumn. intros H.
  bind_inv H t p1 Ht. bind_inv H parsed p2 Hparsed. bind_inv H t' p3 Ht'.
  bind_inv H dn p4 Hdn. injection H as <- <-. cbn [TS.aggregationFunction TS.column].
  destruct (TokenType_eqb _ _).
  - bind_inv Hparsed a q1 Ha. bind_inv Hparsed l q2 Hl. bind_inv Hparsed c q3 Hc.
    bind_inv Hparsed r q4 Hr. injection Hparsed as <- <-. cbn [fst snd].
    destruct (String.eqb (value a) "COUNT") eqn:E; cbn [negb] in Hc.
    + injection Hc as <- <-. apply String.eqb_eq in E. rewrite E. left. auto.
    + bind_inv Hc x q5 Hx. injection Hc as <- <-. right. split.
      * intros Heq. injection Heq as Heq. rewrite Heq in E. discriminate E.
      * eexists. reflexivity.
  - bind_inv Hparsed x q1 Hx. injection Hparsed as <- <-. cbn [fst snd].
    right. split; [discriminate | eexists; reflexivity].
Qed.


(** Every descriptor [parser.ts] returns is the descriptor of a column as it
    is written. *)
Lemma TS_consumeColumn_descriptor p d p' :
  TS._consumeColumn p = Ok d p' ->
  exists s, d = TS_descriptor s (TS.displayName d).
Proof.
  intros H. apply TS_consumeColumn_Ok_inv in H.
  destruct d as [col dn ag]. cbn [TS.column TS.displayName TS.aggregationFunction] in *.
  destruct H as [[-> ->]|[Hag [x ->]]].
  - exists CountAll. reflexivity.
  - destruct ag as [f|].
    + exists (AggregationOf f x). reflexivity.
    + exists (Bare x). reflexivity.
Qed.

Lemma with_identifier_descriptor s alias :
  column_syntax_ok s alias = true ->
  with_identifier (TS_descriptor s alias) = JS_descriptor s alias.
Proof.
  intros Hok. unfold with_identifier, TS_descriptor, JS_descriptor.
  cbn [TS.column TS.displayName TS.aggregationFunction].
  destruct alias as [a|].
  - pose proof (column_syntax_ok_alias _ _ Hok) as Ha.
    unfold truthy at 1. rewrite Ha. reflexivity.
  - destruct s as [x| |f x]; try reflexivity.
    destruct (column_syntax_ok_aggregation _ _ _ Hok) as [_ Hname].
    cbn [truthy negb described_aggregation]. rewrite Hname. reflexivity.
Qed.

(** C3, as the code has it.  For a select column written as a bare column,
    [COUNT()] or [FUNC(column)], with or without [AS alias]: the compiled
    [_consumeColumn] returns the descriptor whose identifier is the alias if
    there is one, [FUNC(column)] otherwise for an aggregation and the bare
    column otherwise, whose column is absent for COUNT and present for every
    other aggregation; [_consumeColumn] of [parser.ts] returns the column, the
    aggregation and, as [displayName], the alias or nothing.  And every
    descriptor the compiled [_consumeColumn] returns is the descriptor of such
    a column, the one [parser.ts] returns without identifier. *)
Theorem column_descriptors :
  (forall s alias rest n off,
     column_syntax_ok s alias = true ->
     (alias = None -> value (lookahead rest) <> "AS") ->
     JS._consumeColumn (parser_on (column_tokens s alias ++ rest) n off)
     = Ok (JS_descriptor s alias)
          (parser_on rest (length (column_tokens s alias) + n) off)
     /\ TS._consumeColumn (parser_on (column_tokens s alias ++ rest) n off)
        = Ok (TS_descriptor s alias)
             (parser_on rest (length (column_tokens s alias) + n) off))
  /\ (forall p c p',
        JS._consumeColumn p = Ok c p' ->
        exists s alias,
          TS._consumeColumn p = Ok (TS_descriptor s alias) p'
          /\ JS.column c = described_column s
          /\ JS.aggregationFunction c = described_aggregation s
          /\ (column_syntax_ok s alias = true -> c = JS_descriptor s alias)).
Proof.
  split.
  - intros s alias rest n off Hok Hrest. split.
    + apply JS_consumeColumn_syntax; assumption.
    + apply TS_consumeColumn_syntax; assumption.
  - intros p c p' H. rewrite JS_consumeColumn_with_identifier in H.
    unfold fmap in H. bind_inv H d p1 Hd. injection H as <- <-.
    destruct (TS_consumeColumn_descriptor _ _ _ Hd) as [s Hs].
    exists s, (TS.displayName d). rewrite <- Hs.
    split; [exact Hd|]. rewrite Hs at 1 2. split; [reflexivity|].
    split; [reflexivity|].
    intros Hok. rewrite Hs. apply with_identifier_descriptor. exact Hok.
Qed.

(** The two columns of the specification's example, each where it stands in
    the query. *)
Lemma column_descriptors_example :
  (JS._consumeColumn
     (parser_on [agg "COUNT"; lparen; rparen; kw "AS"; ident "total"; comma] 1 (fun n => n))
   = Ok (JS.mkColumnMetadata (Some "total") None (Some "COUNT"))
        (parser_on [comma] 6 (fun n => n))
   /\ TS._consumeColumn
        (parser_on [agg "COUNT"; lparen; rparen; kw "AS"; ident "total"; comma] 1 (fun n => n))
      = Ok (TS.mkColumnMetadata None (Some "total") (Some "COUNT"))
           (parser_on [comma] 6 (fun n => n)))
  /\ (JS._consumeColumn
        (parser_on [agg "AVG"; lparen; ident "x"; rparen; kw "AS"; ident "avgx";
                    kw "WHERE"] 7 (fun n => n))
      = Ok (JS.mkColumnMetadata (Some "avgx") (Some "x") (Some "AVG"))
           (parser_on [kw "WHERE"] 13 (fun n => n))
      /\ TS._consumeColumn
           (parser_on [agg "AVG"; lparen; ident "x"; rparen; kw "AS"; ident "avgx";
                       kw "WHERE"] 7 (fun n => n))
         = Ok (TS.mkColumnMetadata (Some "x") (Some "avgx") (Some "AVG"))
              (parser_on [kw "WHERE"] 13 (fun n => n))).
Proof.
  split.
  - exact (proj1 column_descriptors CountAll (Some "total") [comma] 1 (fun n => n)
             eq_refl ltac:(discriminate)).
  - exact (proj1 column_descriptors (AggregationOf "AVG" "x") (Some "avgx")
             [kw "WHERE"] 7 (fun n => n) eq_refl ltac:(discriminate)).
Defined.

(** Without an alias the identifier is synthesized by the compiled parser. *)
Example column_identifier_synthesized rest n off :
  value (lookahead rest) <> "AS" ->
  JS._consumeColumn (parser_on (agg "AVG" :: lparen :: ident "x" :: rparen :: rest) n off)
  = Ok (JS.mkColumnMetadata (Some "AVG(x)") (Some "x") (Some "AVG"))
       (parser_on rest (4 + n) off).
Proof.
  intros H.
  exact (JS_consumeColumn_syntax (AggregationOf "AVG" "x") None rest n off eq_refl
           (fun _ => H)).
Qed.

(** C3 fails as stated: the descriptor [parser.ts] returns for [AVG(x)] has
    no identifier, and on the query
    [SELECT COUNT() AS total, AVG(x) AS avgx WHERE x>0] both parsers throw
    (the compiled one on WHERE, where the select loop wants a comma) and
    return no select columns. *)
Lemma column_descriptor_counterexample :
  (exists d p,
     TS._consumeColumn (parser_on [agg "AVG"; lparen; ident "x"; rparen] 0 (fun n => n))
     = Ok d p
     /\ get (TS_column_object d) "identifier" = JsUndefined
     /\ get (TS_column_object d) "identifier" <> JsString "AVG(x)")
  /\ JS_parse (mkLexer [kw "SELECT"; agg "COUNT"; lparen; rparen; kw "AS"; ident "total";
                        comma; agg "AVG"; lparen; ident "x"; rparen; kw "AS";
                        ident "avgx"; kw "WHERE"; ident "x"; cmp ">"; num "0"]
                0 (fun n => n))
     = Throw (unexpected_token
                (parser_on [kw "WHERE"; ident "x"; cmp ">"; num "0"] 13 (fun n => n)))
             (parser_on [kw "WHERE"; ident "x"; cmp ">"; num "0"] 13 (fun n => n))
  /\ (exists e p,
     TS_parse (mkLexer [kw "SELECT"; agg "COUNT"; lparen; rparen; kw "AS"; ident "total";
                        comma; agg "AVG"; lparen; ident "x"; rparen; kw "AS";
                        ident "avgx"; kw "WHERE"; ident "x"; cmp ">"; num "0"]
                0 (fun n => n))
     = Throw e p).
Proof.
  split; [|split].
  - exists (TS.mkColumnMetadata (Some "x") None (Some "AVG")), (parser_on [] 4 (fun n => n)).
    split; [reflexivity|]. split; [reflexivity|discriminate].
  - reflexivity.
  - eexists. eexists. vm_compute. reflexivity.
Qed.

(** ** The plot clause *)

Lemma plot_clause_on_identifiers f a b rest n off :
  JS._consumePlotClauseOptional
    (parser_on (kw "PLOT" :: plotfn f :: lparen :: ident a :: comma :: ident b
                :: rparen :: rest) n off)
  = (if String.eqb f "BAR" then
       Ok (Some (JS.BarPlotCall "BAR" a b)) (parser_on rest (7 + n) off)
     else if String.eqb f "LINE" || String.eqb f "SCATTER" then
       Ok (Some (JS.PointPlotCall f a b)) (parser_on rest (7 + n) off)
     else
       Throw (mkSPLError ("Invalid plot type " ++ f))
             (parser_on (ident a :: comma :: ident b :: rparen :: rest) (3 + n) off))
  /\ TS._consumePlotClauseOptional
       (parser_on (kw "PLOT" :: plotfn f :: lparen :: ident a :: comma :: ident b
                   :: rparen :: rest) n off)
     = (if String.eqb f "BAR" then
          Ok (Some (TS.BarPlotCall "BAR" (bare_column a) (bare_column b)))
             (parser_on rest (7 + n) off)
        else if String.eqb f "LINE" || String.eqb f "SCATTER" then
          Ok (Some (TS.PointPlotCall f (bare_column a) (bare_column b)))
             (parser_on rest (7 + n) off)
        else
          Throw (mkSPLError ("Invalid plot type " ++ f))
                (parser_on (ident a :: comma :: ident b :: rparen :: rest) (3 + n) off)).
Proof.
  assert (Ha : forall m rest', TS._consumeColumn (parser_on (ident a :: comma :: rest') m off)
                 = Ok (bare_column a) (parser_on (comma :: rest') (1 + m) off)).
  { intros m rest'.
    exact (TS_consumeColumn_syntax (Bare a) None (comma :: rest') m off eq_refl
             ltac:(discriminate)). }
  assert (Hb : forall m rest', TS._consumeColumn (parser_on (ident b :: rparen :: rest') m off)
                 = Ok (bare_column b) (parser_on (rparen :: rest') (1 + m) off)).
  { intros m rest'.
    exact (TS_consumeColumn_syntax (Bare b) None (rparen :: rest') m off eq_refl
             ltac:(discriminate)). }
  split.
  - unfold JS._consumePlotClauseOptional, JS._consumePlotArgs, accepts. run.
    rewrite consumeToken_eq, step_parser_on. unfold accepts. rewrite parser_on_cons.
    cbn [_currentToken kw type value TokenType_eqb truthy nullish_or String.eqb
         Ascii.eqb Bool.eqb negb andb orb].
    run.
    destruct (String.eqb f "BAR") eqn:Ebar.
    + apply String.eqb_eq in Ebar. subst f. run. reflexivity.
    + destruct (String.eqb f "LINE" || String.eqb f "SCATTER"); run; reflexivity.
  - unfold TS._consumePlotClauseOptional, TS._consumePlotArgs, accepts. run.
    rewrite consumeToken_eq, step_parser_on. unfold accepts. rewrite parser_on_cons.
    cbn [_currentToken kw type value TokenType_eqb truthy nullish_or String.eqb
         Ascii.eqb Bool.eqb negb andb orb].
    run.
    destruct (String.eqb f "BAR") eqn:Ebar.
    + apply String.eqb_eq in Ebar. subst f. rewrite Ha. run. rewrite Hb. run.
      reflexivity.
    + destruct (String.eqb f "LINE" || String.eqb f "SCATTER").
      * rewrite Ha. run. rewrite Hb. run. reflexivity.
      * reflexivity.
Qed.

(** C4, as the code has it.  After [PLOT f (a, b)] with two identifiers: the
    compiled parser returns the BAR clause with the two identifiers as
    categories and values when [f] is BAR, the point clause with them as x and
    y when [f] is LINE or SCATTER, and throws for any other [f];
    [parser.ts] dispatches the same way and returns the two arguments as
    column descriptors. *)
Theorem plot_dispatch f a b rest n off :
  JS._consumePlotClauseOptional
    (parser_on (kw "PLOT" :: plotfn f :: lparen :: ident a :: comma :: ident b
                :: rparen :: rest) n off)
  = (if String.eqb f "BAR" then
       Ok (Some (JS.BarPlotCall "BAR" a b)) (parser_on rest (7 + n) off)
     else if String.eqb f "LINE" || String.eqb f "SCATTER" then
       Ok (Some (JS.PointPlotCall f a b)) (parser_on rest (7 + n) off)
     else
       Throw (mkSPLError ("Invalid plot type " ++ f))
             (parser_on (ident a :: comma :: ident b :: rparen :: rest) (3 + n) off))
  /\ TS._consumePlotClauseOptional
       (parser_on (kw "PLOT" :: plotfn f :: lparen :: ident a :: comma :: ident b
                   :: rparen :: rest) n off)
     = (if String.eqb f "BAR" then
          Ok (Some (TS.BarPlotCall "BAR" (bare_column a) (bare_column b)))
             (parser_on rest (7 + n) off)
        else if String.eqb f "LINE" || String.eqb f "SCATTER" then
          Ok (Some (TS.PointPlotCall f (bare_column a) (bare_column b)))
             (parser_on rest (7 + n) off)
        else
          Throw (mkSPLError ("Invalid plot type " ++ f))
                (parser_on (ident a :: comma :: ident b :: rparen :: rest) (3 + n) off)).
Proof. apply plot_clause_on_identifiers. Qed.

(** The plot clauses of the specification's two examples, in the compiled
    parser. *)
Example plot_bar_category_value off :
  JS._consumePlotClauseOptional
    (parser_on [kw "PLOT"; plotfn "BAR"; lparen; ident "category"; comma; ident "value";
                rparen; kw "SELECT"; ident "category"; comma; ident "value"] 0 off)
  = Ok (Some (JS.BarPlotCall "BAR" "category" "value"))
       (parser_on [kw "SELECT"; ident "category"; comma; ident "value"] 7 off).
Proof. reflexivity. Qed.

Example plot_line_x_y off :
  JS._consumePlotClauseOptional
    (parser_on [kw "PLOT"; plotfn "LINE"; lparen; ident "x"; comma; ident "y";
                rparen; kw "SELECT"; ident "x"; comma; ident "y"] 0 off)
  = Ok (Some (JS.PointPlotCall "LINE" "x" "y"))
       (parser_on [kw "SELECT"; ident "x"; comma; ident "y"] 7 off).
Proof. reflexivity. Qed.

(** C4 fails as stated: on [PLOT BAR(category, value) SELECT category, value]
    the plot clause of [parser.ts] has no [categoriesIdentifier]; its payload
    is two column descriptors. *)
Lemma plot_clause_counterexample :
  exists c p,
    TS._consumePlotClauseOptional
      (parser_on [kw "PLOT"; plotfn "BAR"; lparen; ident "category"; comma;
                  ident "value"; rparen; kw "SELECT"; ident "category"; comma;
                  ident "value"] 0 (fun n => n))
    = Ok (Some c) p
    /\ get (TS_plot_object c) "categoriesIdentifier" = JsUndefined
    /\ get (TS_plot_object c) "categoriesColumn"
       = JsObject [("column", JsString "category"); ("displayName", JsUndefined);
                   ("aggregationFunction", JsUndefined)]
    /\ TS_plot_object c
       <> JsObject [("plotFunction", JsString "BAR");
                    ("categoriesIdentifier", JsString "category");
                    ("valuesIdentifier", JsString "value")].
Proof.
  exists (TS.BarPlotCall "BAR" (bare_column "category") (bare_column "value")),
    (parser_on [kw "SELECT"; ident "category"; comma; ident "value"] 7 (fun n => n)).
  split; [reflexivity|]. split; [reflexivity|]. split; [reflexivity|].
  discriminate.
Qed.

(** ** The two parsers compared *)

Lemma select_loop_ext {C} (c1 c2 : M C) :
  (forall p, c1 p = c2 p) ->
  forall fuel acc p, select_loop c1 fuel acc p = select_loop c2 fuel acc p.
Proof.
  intros Hc. induction fuel as [|fuel IH]; intros acc p; [reflexivity|].
  cbn [select_loop]. unfold bind, currentToken. rewrite Hc.
  destruct (c2 p) as [c p1|e p1|]; [|reflexivity|reflexivity].
  destruct (_consumeToken COMMA None p1) as [t p2|e p2|]; [|reflexivity|reflexivity].
  destruct (negb _); [apply IH | reflexivity].
Qed.

Lemma select_loop_fmap {A B} (f : A -> B) (consumeColumn : M A) :
  forall fuel acc p,
    select_loop (fmap f consumeColumn) fuel (map f acc) p
    = fmap (map f) (select_loop consumeColumn fuel acc) p.
Proof.
  induction fuel as [|fuel IH]; intros acc p; [reflexivity|].
  cbn [select_loop]. unfold fmap, bind, ret, currentToken in *.
  destruct (consumeColumn p) as [c p1|e p1|]; [|reflexivity|reflexivity].
  destruct (_consumeToken COMMA None p1) as [t p2|e p2|]; [|reflexivity|reflexivity].
  replace (map f acc ++ [f c]) with (map f (acc ++ [c]))
    by (rewrite map_app; reflexivity).
  destruct (negb _); [apply IH | reflexivity].
Qed.

(** The compiled select clause is the one of [parser.ts], after the keyword
    SELECT and with the identifiers computed. *)
Lemma JS_select_after_keyword fuel p :
  JS._consumeSelectClause fuel p
  = (_consumeToken KEYWORD (Some "SELECT") ;;;
     fmap (map with_identifier) (TS._consumeSelectClause fuel)) p.
Proof.
  unfold JS._consumeSelectClause, TS._consumeSelectClause, bind at 1 2.
  destruct (_consumeToken KEYWORD (Some "SELECT") p) as [t p1|e p1|];
    [|reflexivity|reflexivity].
  rewrite (select_loop_ext _ _ JS_consumeColumn_with_identifier).
  exact (select_loop_fmap with_identifier TS._consumeColumn fuel [] p1).
Qed.

(** C10, as the code has it.  The two parsers are not equivalent; they are
    related as follows.  The compiled [_consumeColumn] consumes what the one
    of [parser.ts] consumes and returns its column and aggregation with the
    identifier computed from its [displayName]; the compiled select clause is
    the select clause of [parser.ts] run after the keyword SELECT has been
    consumed; on a plot clause with two identifiers both consume the same
    tokens, the compiled parser returning the identifiers and [parser.ts]
    column descriptors. *)
Theorem parsers_related :
  (forall p, JS._consumeColumn p = fmap with_identifier TS._consumeColumn p)
  /\ (forall fuel p,
        JS._consumeSelectClause fuel p
        = (_consumeToken KEYWORD (Some "SELECT") ;;;
           fmap (map with_identifier) (TS._consumeSelectClause fuel)) p)
  /\ (forall f a b rest n off,
        f = "BAR" \/ f = "LINE" \/ f = "SCATTER" ->
        exists js ts,
          JS._consumePlotClauseOptional
            (parser_on (kw "PLOT" :: plotfn f :: lparen :: ident a :: comma :: ident b
                        :: rparen :: rest) n off)
          = Ok (Some js) (parser_on rest (7 + n) off)
          /\ TS._consumePlotClauseOptional
               (parser_on (kw "PLOT" :: plotfn f :: lparen :: ident a :: comma
                           :: ident b :: rparen :: rest) n off)
             = Ok (Some ts) (parser_on rest (7 + n) off)
          /\ get (JS_plot_object js) "plotFunction" = JsString f
          /\ get (TS_plot_object ts) "plotFunction" = JsString f
          /\ (get (JS_plot_object js) "categoriesIdentifier" = JsString a
              /\ get (TS_plot_object ts) "categoriesColumn"
                 = TS_column_object (bare_column a)
              /\ get (JS_plot_object js) "valuesIdentifier" = JsString b
              /\ get (TS_plot_object ts) "valuesColumn"
                 = TS_column_object (bare_column b)
              \/ get (JS_plot_object js) "xIdentifier" = JsString a
                 /\ get (TS_plot_object ts) "xColumn" = TS_column_object (bare_column a)
                 /\ get (JS_plot_object js) "yIdentifier" = JsString b
                 /\ get (TS_plot_object ts) "yColumn"
                    = TS_column_object (bare_column b))).
Proof.
  split; [exact JS_consumeColumn_with_identifier|].
  split; [exact JS_select_after_keyword|].
  intros f a b rest n off Hf.
  destruct (plot_clause_on_identifiers f a b rest n off) as [Hjs Hts].
  rewrite Hjs, Hts.
  destruct Hf as [Hf|[Hf|Hf]]; subst f; cbn [String.eqb Ascii.eqb Bool.eqb orb];
    eexists; eexists; (split; [reflexivity|]); (split; [reflexivity|]);
    (split; [reflexivity|]); (split; [reflexivity|]).
  - left. repeat split.
  - right. repeat split.
  - right. repeat split.
Qed.

(** The relation at work on the column [AVG(x)] and on the plot clause
    [PLOT LINE(x, y)]. *)
Lemma parsers_related_example :
  JS._consumeColumn (parser_on [agg "AVG"; lparen; ident "x"; rparen] 0 (fun n => n))
  = Ok (JS.mkColumnMetadata (Some "AVG(x)") (Some "x") (Some "AVG"))
       (parser_on [] 4 (fun n => n))
  /\ exists js ts,
       JS._consumePlotClauseOptional
         (parser_on [kw "PLOT"; plotfn "LINE"; lparen; ident "x"; comma; ident "y";
                     rparen] 0 (fun n => n))
       = Ok (Some js) (parser_on [] 7 (fun n => n))
       /\ TS._consumePlotClauseOptional
            (parser_on [kw "PLOT"; plotfn "LINE"; lparen; ident "x"; comma; ident "y";
                        rparen] 0 (fun n => n))
          = Ok (Some ts) (parser_on [] 7 (fun n => n)).
Proof.
  split.
  - rewrite (proj1 parsers_related). reflexivity.
  - destruct (proj2 (proj2 parsers_related) "LINE" "x" "y" [] 0 (fun n => n)
                (or_intror (or_introl eq_refl))) as (js & ts & Hjs & Hts & _).
    exists js, ts. split; assumption.
Defined.

(** C10 fails as stated.  On [SELECT a, b] the two parsers throw after
    consuming different tokens: [parser.ts] on the keyword SELECT, the
    compiled parser on [b]; the select clause of the one throws where the
    other returns; the descriptors of the column [a] differ as objects; and so
    do the plot clauses of [PLOT BAR(a, b)]. *)
Lemma parsers_not_equivalent :
  ~ same_outcome
      (TS_parse (mkLexer [kw "SELECT"; ident "a"; comma; ident "b"] 0 (fun n => n)))
      (JS_parse (mkLexer [kw "SELECT"; ident "a"; comma; ident "b"] 0 (fun n => n)))
  /\ (TS._consumeSelectClause 3
        (parser_on [kw "SELECT"; ident "a"; comma; ident "b"] 0 (fun n => n))
      = Throw (unexpected_token
                 (parser_on [kw "SELECT"; ident "a"; comma; ident "b"] 0 (fun n => n)))
              (parser_on [kw "SELECT"; ident "a"; comma; ident "b"] 0 (fun n => n))
      /\ JS._consumeSelectClause 3
           (parser_on [kw "SELECT"; ident "a"; comma; ident "b"] 0 (fun n => n))
         = Ok [JS.mkColumnMetadata (Some "a") (Some "a") None]
              (parser_on [ident "b"] 3 (fun n => n)))
  /\ (exists js ts p,
        JS._consumeColumn (parser_on [ident "a"] 0 (fun n => n)) = Ok js p
        /\ TS._consumeColumn (parser_on [ident "a"] 0 (fun n => n)) = Ok ts p
        /\ JS_column_object js <> TS_column_object ts
        /\ get (JS_column_object js) "identifier" = JsString "a"
        /\ get (TS_column_object ts) "identifier" = JsUndefined)
  /\ (exists js ts p,
        JS._consumePlotClauseOptional
          (parser_on [kw "PLOT"; plotfn "BAR"; lparen; ident "a"; comma; ident "b";
                      rparen] 0 (fun n => n)) = Ok (Some js) p
        /\ TS._consumePlotClauseOptional
             (parser_on [kw "PLOT"; plotfn "BAR"; lparen; ident "a"; comma; ident "b";
                         rparen] 0 (fun n => n)) = Ok (Some ts) p
        /\ JS_plot_object js <> TS_plot_object ts).
Proof.
  split; [|split; [|split]].
  - vm_compute. intros H. discriminate H.
  - split; reflexivity.
  - exists (JS.mkColumnMetadata (Some "a") (Some "a") None), (bare_column "a"),
      (parser_on [] 1 (fun n => n)).
    split; [reflexivity|]. split; [reflexivity|]. split; [discriminate|].
    split; reflexivity.
  - exists (JS.BarPlotCall "BAR" "a" "b"),
      (TS.BarPlotCall "BAR" (bare_column "a") (bare_column "b")),
      (parser_on [] 7 (fun n => n)).
    split; [reflexivity|]. split; [reflexivity|]. discriminate.
Qed.

(** [parser.ts] takes any column as a plot argument, the compiled parser an
    identifier only. *)
Example plot_arguments_as_columns off :
  TS._consumePlotClauseOptional
    (parser_on [kw "PLOT"; plotfn "BAR"; lparen; ident "c"; kw "AS"; ident "k"; comma;
                agg "SUM"; lparen; ident "v"; rparen; rparen] 0 off)
  = Ok (Some (TS.BarPlotCall "BAR"
                (TS.mkColumnMetadata (Some "c") (Some "k") None)
                (TS.mkColumnMetadata (Some "v") None (Some "SUM"))))
       (parser_on [] 12 off)
  /\ JS._consumePlotClauseOptional
       (parser_on [kw "PLOT"; plotfn "BAR"; lparen; ident "c"; kw "AS"; ident "k"; comma;
                   agg "SUM"; lparen; ident "v"; rparen; rparen] 0 off)
     = Throw (unexpected_token
                (parser_on [kw "AS"; ident "k"; comma; agg "SUM"; lparen; ident "v";
                            rparen; rparen] 4 off))
             (parser_on [kw "AS"; ident "k"; comma; agg "SUM"; lparen; ident "v";
                         rparen; rparen] 4 off).
Proof. split; reflexivity. Qed.

(** ** Fuel: the loops of the WHERE clause end

    With three units of fuel more than the lexer has tokens to scan, the
    condition parser is not cut short. *)

Lemma consumeComparison_fuel_free : fuel_free _consumeComparison.
Proof. unfold _consumeComparison, _consumeComparisonValue. fuel_free_tac. Qed.

Lemma consumeComparison_consuming : consuming _consumeComparison.
Proof.
  unfold _consumeComparison, _consumeComparisonValue.
  apply consuming_bind_l; [auto with spl|intro; reaching_tac].
Qed.

Lemma consumeConditionGroup_of_consuming (c : M WhereCondition) :
  reaching c -> consuming (_consumeConditionGroup_of c).
Proof.
  intros Hc. unfold _consumeConditionGroup_of.
  apply consuming_bind_r; [auto with spl|intro token].
  destruct (TokenType_eqb _ _); [apply consumeComparison_consuming|].
  apply consuming_bind_l; [auto with spl|intro].
  apply reaching_bind; [exact Hc|intro]. reaching_tac.
Qed.

Lemma and_loop_reaching (g : M WhereCondition) :
  reaching g -> forall fuel acc, reaching (and_loop g fuel acc).
Proof.
  intros Hg. induction fuel as [|fuel IH]; intros acc.
  - intros p a p' H. discriminate H.
  - cbn [and_loop]. apply reaching_bind; [auto with spl|intro token].
    destruct (String.eqb _ _); [|auto with spl].
    apply reaching_bind; [auto with spl|intro].
    apply reaching_bind; [exact Hg|intro]. apply IH.
Qed.

Lemma or_loop_reaching (g : M WhereCondition) :
  reaching g -> forall fuel acc, reaching (or_loop g fuel acc).
Proof.
  intros Hg. induction fuel as [|fuel IH]; intros acc.
  - intros p a p' H. discriminate H.
  - cbn [or_loop]. apply reaching_bind; [exact Hg|intro c].
    apply reaching_bind; [apply and_loop_reaching; exact Hg|intro inner].
    apply reaching_bind; [auto with spl|intro token].
    destruct (negb _); [auto with spl|].
    apply reaching_bind; [auto with spl|intro]. apply IH.
Qed.

Lemma consumeCondition_reaching fuel : reaching (_consumeCondition fuel).
Proof.
  induction fuel as [|fuel IH].
  - intros p a p' H. discriminate H.
  - cbn [_consumeCondition]. apply reaching_bind.
    + apply or_loop_reaching, consuming_reaching, consumeConditionGroup_of_consuming.
      exact IH.
    + intros [|c [|c' l]]; auto with spl.
Qed.

Lemma consumeConditionGroup_of_exhausted (c : M WhereCondition) p :
  exhausted p -> _consumeConditionGroup_of c p = Throw (unexpected_token p) p.
Proof.
  intros [_ Hcur]. unfold _consumeConditionGroup_of, bind at 1, currentToken.
  rewrite Hcur. cbn [type eofToken TokenType_eqb].
  unfold bind at 1. rewrite consumeToken_eq. unfold accepts. rewrite Hcur. reflexivity.
Qed.

Lemma consumed_exhausted p p' : exhausted p -> consumed p p' -> exhausted p'.
Proof. intros [Hr _] [H|H]; [lia | exact H]. Qed.

Lemma reached_exhausted p p' : exhausted p -> reached p p' -> exhausted p'.
Proof. intros He [->|H]; [exact He | eapply consumed_exhausted; eassumption]. Qed.

Section LoopFuel.

Variable g : M WhereCondition.
Variable r : nat.
Hypothesis g_consuming : consuming g.
Hypothesis g_exhausted : forall q c q', exhausted q -> g q <> Ok c q'.
Hypothesis g_fuel : forall q, remaining q <= r -> g q <> OutOfFuel.

Lemma and_loop_fuel fuel :
  forall acc p,
    remaining p <= r -> remaining p < fuel -> and_loop g fuel acc p <> OutOfFuel.
Proof.
  induction fuel as [|fuel IH]; intros acc p Hr Hlt; [lia|].
  cbn [and_loop]. unfold bind at 1, currentToken.
  destruct (String.eqb _ _); [|discriminate].
  unfold bind at 1. rewrite consumeToken_eq.
  destruct (accepts _ _ _); [|discriminate].
  pose proof (consumed_step p) as Hstep. unfold bind at 1.
  assert (Hr1 : remaining (step p) <= r).
  { pose proof (reached_remaining _ _ (or_intror Hstep)). lia. }
  destruct (g (step p)) as [c p2|e p2|] eqn:E;
    [|discriminate|destruct (g_fuel _ Hr1 E)].
  pose proof (g_consuming _ _ _ E) as Hc.
  pose proof (reached_remaining _ _ (or_intror Hc)) as Hle.
  destruct Hstep as [Hstep|Hstep].
  - apply IH; lia.
  - destruct (g_exhausted _ _ _ Hstep E).
Qed.

Lemma or_loop_fuel fuel :
  forall acc p,
    remaining p <= r -> remaining p + 1 < fuel -> or_loop g fuel acc p <> OutOfFuel.
Proof.
  induction fuel as [|fuel IH]; intros acc p Hr Hlt; [lia|].
  cbn [or_loop]. unfold bind at 1.
  destruct (g p) as [c p2|e p2|] eqn:E; [|discriminate|destruct (g_fuel _ Hr E)].
  pose proof (g_consuming _ _ _ E) as Hc.
  pose proof (reached_remaining _ _ (or_intror Hc)) as Hle.
  unfold bind at 1.
  destruct (and_loop g fuel [c] p2) as [inner p3|e p3|] eqn:E2; [|discriminate|].
  2:{ exfalso. refine (and_loop_fuel fuel [c] p2 _ _ E2); lia. }
  pose proof (and_loop_reaching g (consuming_reaching g g_consuming) _ _ _ _ _ E2)
    as Hreach.
  pose proof (reached_remaining _ _ Hreach) as Hle3.
  unfold bind at 1, currentToken.
  destruct (String.eqb (value (_currentToken p3)) "OR") eqn:Eor;
    cbn [negb]; [|discriminate].
  unfold bind at 1. rewrite advance_eq.
  pose proof (reached_remaining _ _ (or_intror (consumed_step p3))) as Hle4.
  destruct Hc as [Hc|Hc].
  - apply IH; lia.
  - exfalso. destruct (reached_exhausted _ _ Hc Hreach) as [_ Hcur].
    rewrite Hcur in Eor. discriminate Eor.
Qed.

End LoopFuel.

Lemma consumeCondition_exhausted fuel p :
  exhausted p -> _consumeCondition (2 + fuel) p = Throw (unexpected_token p) p.
Proof.
  intros He. cbn [_consumeCondition Nat.add or_loop]. unfold bind.
  rewrite consumeConditionGroup_of_exhausted by exact He. reflexivity.
Qed.

Lemma consumeCondition_fuel fuel :
  forall p, remaining p + 3 <= fuel -> _consumeCondition fuel p <> OutOfFuel.
Proof.
  induction fuel as [|fuel IH]; intros p Hfuel; [lia|].
  cbn [_consumeCondition]. unfold bind.
  destruct (or_loop _ fuel [] p) as [filters p1|e p1|] eqn:E.
  - destruct filters as [|c [|c' l]]; discriminate.
  - discriminate.
  - exfalso. revert E.
    refine (or_loop_fuel _ (remaining p) _ _ _ fuel [] p _ _); try lia.
    + apply consumeConditionGroup_of_consuming, consumeCondition_reaching.
    + intros q c q' He H. rewrite consumeConditionGroup_of_exhausted in H by exact He.
      discriminate H.
    + intros q Hq. unfold _consumeConditionGroup_of, bind at 1, currentToken.
      destruct (TokenType_eqb _ _); [apply consumeComparison_fuel_free|].
      unfold bind at 1. rewrite consumeToken_eq.
      destruct (accepts _ _ _); [|discriminate].
      unfold bind at 1.
      destruct (_consumeCondition fuel (step q)) as [c q2|e q2|] eqn:Ec;
        [|discriminate|].
      * apply fuel_free_bind; [auto with spl|intro; auto with spl].
      * exfalso. destruct (consumed_step q) as [Hs|Hs].
        -- refine (IH (step q) _ Ec). lia.
        -- destruct fuel as [|[|fuel]]; try lia.
           change (S (S fuel)) with (2 + fuel) in Ec.
           rewrite (consumeCondition_exhausted fuel _ Hs) in Ec. discriminate Ec.
Qed.

(** The WHERE clause is parsed to an end, with a result or an error. *)
Lemma where_fuel fuel p :
  remaining p + 3 <= fuel -> _consumeWhereClauseOptional fuel p <> OutOfFuel.
Proof.
  intros Hfuel. unfold _consumeWhereClauseOptional, bind at 1, currentToken.
  destruct (negb _); [discriminate|].
  unfold bind at 1. rewrite consumeToken_eq.
  destruct (accepts _ _ _); [|discriminate].
  unfold fmap, bind.
  destruct (_consumeCondition fuel (step p)) as [c p1|e p1|] eqn:E;
    [discriminate|discriminate|].
  exfalso. refine (consumeCondition_fuel fuel (step p) _ E).
  pose proof (reached_remaining _ _ (or_intror (consumed_step p))). lia.
Qed.

(** ** Fuel: more of it changes nothing

    A run that was not cut short gives the same result with any larger
    fuel. *)

Lemma and_loop_mono (g g' : M WhereCondition) :
  (forall p, g p <> OutOfFuel -> g' p = g p) ->
  forall fuel fuel' acc p,
    fuel <= fuel' ->
    and_loop g fuel acc p <> OutOfFuel ->
    and_loop g' fuel' acc p = and_loop g fuel acc p.
Proof.
  intros Hg. induction fuel as [|fuel IH]; intros fuel' acc p Hle H.
  - exfalso. apply H. reflexivity.
  - destruct fuel' as [|fuel']; [lia|]. cbn [and_loop] in *.
    unfold bind, currentToken in *.
    destruct (String.eqb _ _); [|reflexivity].
    destruct (_consumeToken LOGICAL_OPERATOR None p) as [t p1|e p1|];
      [|reflexivity|reflexivity].
    destruct (g p1) as [c p2|e p2|] eqn:E.
    + rewrite Hg, E by (rewrite E; discriminate). apply IH; [lia | exact H].
    + rewrite Hg, E by (rewrite E; discriminate). reflexivity.
    + exfalso. apply H. reflexivity.
Qed.

Lemma or_loop_mono (g g' : M WhereCondition) :
  (forall p, g p <> OutOfFuel -> g' p = g p) ->
  forall fuel fuel' acc p,
    fuel <= fuel' ->
    or_loop g fuel acc p <> OutOfFuel ->
    or_loop g' fuel' acc p = or_loop g fuel acc p.
Proof.
  intros Hg. induction fuel as [|fuel IH]; intros fuel' acc p Hle H.
  - exfalso. apply H. reflexivity.
  - destruct fuel' as [|fuel']; [lia|]. cbn [or_loop] in *.
    unfold bind, currentToken, advance in *.
    destruct (g p) as [c p1|e p1|] eqn:E.
    + rewrite Hg, E by (rewrite E; discriminate).
      destruct (and_loop g fuel [c] p1) as [inner p2|e p2|] eqn:E2.
      * rewrite (and_loop_mono g g' Hg fuel fuel'), E2
          by (lia || (rewrite E2; discriminate)).
        destruct (negb _); [reflexivity|].
        destruct (nextToken (_lexer p2)) as [t lx].
        apply IH; [lia | exact H].
      * rewrite (and_loop_mono g g' Hg fuel fuel'), E2
          by (lia || (rewrite E2; discriminate)).
        reflexivity.
      * exfalso. apply H. reflexivity.
    + rewrite Hg, E by (rewrite E; discriminate). reflexivity.
    + exfalso. apply H. reflexivity.
Qed.

Lemma consumeConditionGroup_of_mono (c c' : M WhereCondition) :
  (forall p, c p <> OutOfFuel -> c' p = c p) ->
  forall p,
    _consumeConditionGroup_of c p <> OutOfFuel ->
    _consumeConditionGroup_of c' p = _consumeConditionGroup_of c p.
Proof.
  intros Hc p H. unfold _consumeConditionGroup_of, bind, currentToken in *.
  destruct (TokenType_eqb _ _); [reflexivity|].
  destruct (_consumeToken LPAREN None p) as [t p1|e p1|]; [|reflexivity|reflexivity].
  destruct (c p1) as [x p2|e p2|] eqn:E.
  - rewrite Hc, E by (rewrite E; discriminate). reflexivity.
  - rewrite Hc, E by (rewrite E; discriminate). reflexivity.
  - exfalso. apply H. reflexivity.
Qed.

Lemma consumeCondition_mono fuel :
  forall fuel' p,
    fuel <= fuel' ->
    _consumeCondition fuel p <> OutOfFuel ->
    _consumeCondition fuel' p = _consumeCondition fuel p.
Proof.
  induction fuel as [|fuel IH]; intros fuel' p Hle H.
  - exfalso. apply H. reflexivity.
  - destruct fuel' as [|fuel']; [lia|]. cbn [_consumeCondition] in *.
    unfold bind in *.
    assert (Hg : forall q,
      _consumeConditionGroup_of (_consumeCondition fuel) q <> OutOfFuel ->
      _consumeConditionGroup_of (_consumeCondition fuel') q
      = _consumeConditionGroup_of (_consumeCondition fuel) q).
    { apply consumeConditionGroup_of_mono. intros q Hq. apply IH; [lia | exact Hq]. }
    destruct (or_loop (_consumeConditionGroup_of (_consumeCondition fuel)) fuel [] p)
      as [filters p1|e p1|] eqn:E.
    + rewrite (or_loop_mono _ _ Hg fuel fuel'), E by (lia || (rewrite E; discriminate)).
      reflexivity.
    + rewrite (or_loop_mono _ _ Hg fuel fuel'), E by (lia || (rewrite E; discriminate)).
      reflexivity.
    + exfalso. apply H. reflexivity.
Qed.

Lemma where_mono fuel fuel' p :
  fuel <= fuel' ->
  _consumeWhereClauseOptional fuel p <> OutOfFuel ->
  _consumeWhereClauseOptional fuel' p = _consumeWhereClauseOptional fuel p.
Proof.
  intros Hle H. unfold _consumeWhereClauseOptional, fmap, bind, currentToken in *.
  destruct (negb _); [reflexivity|].
  destruct (_consumeToken KEYWORD None p) as [t p1|e p1|]; [|reflexivity|reflexivity].
  destruct (_consumeCondition fuel p1) as [c p2|e p2|] eqn:E.
  - rewrite (consumeCondition_mono fuel fuel'), E by (lia || (rewrite E; discriminate)).
    reflexivity.
  - rewrite (consumeCondition_mono fuel fuel'), E by (lia || (rewrite E; discriminate)).
    reflexivity.
  - exfalso. apply H. reflexivity.
Qed.

Lemma select_loop_mono {C} (consumeColumn : M C) :
  forall fuel fuel' acc p,
    fuel <= fuel' ->
    select_loop consumeColumn fuel acc p <> OutOfFuel ->
    select_loop consumeColumn fuel' acc p = select_loop consumeColumn fuel acc p.
Proof.
  induction fuel as [|fuel IH]; intros fuel' acc p Hle H.
  - exfalso. apply H. reflexivity.
  - destruct fuel' as [|fuel']; [lia|]. cbn [select_loop] in *.
    unfold bind, currentToken in *.
    destruct (consumeColumn p) as [c p1|e p1|]; [|reflexivity|reflexivity].
    destruct (_consumeToken COMMA None p1) as [t p2|e p2|]; [|reflexivity|reflexivity].
    destruct (negb _); [|reflexivity].
    apply IH; [lia | exact H].
Qed.

Lemma JS_select_mono fuel fuel' p :
  fuel <= fuel' ->
  JS._consumeSelectClause fuel p <> OutOfFuel ->
  JS._consumeSelectClause fuel' p = JS._consumeSelectClause fuel p.
Proof.
  intros Hle H. unfold JS._consumeSelectClause, bind in *.
  destruct (_consumeToken KEYWORD (Some "SELECT") p) as [t p1|e p1|];
    [|reflexivity|reflexivity].
  apply select_loop_mono; assumption.
Qed.

Lemma TS_select_mono fuel fuel' p :
  fuel <= fuel' ->
  TS._consumeSelectClause fuel p <> OutOfFuel ->
  TS._consumeSelectClause fuel' p = TS._consumeSelectClause fuel p.
Proof. intros Hle H. apply select_loop_mono; assumption. Qed.

Lemma JS_parse_mono fuel fuel' p :
  fuel <= fuel' ->
  JS.parse fuel p <> OutOfFuel ->
  JS.parse fuel' p = JS.parse fuel p.
Proof.
  intros Hle H. unfold JS.parse, bind in *.
  destruct (JS._consumePlotClauseOptional p) as [plot p1|e p1|];
    [|reflexivity|reflexivity].
  destruct (JS._consumeSelectClause fuel p1) as [cols p2|e p2|] eqn:E1.
  - rewrite (JS_select_mono fuel fuel'), E1 by (lia || (rewrite E1; discriminate)).
    destruct (_consumeWhereClauseOptional fuel p2) as [w p3|e p3|] eqn:E2.
    + rewrite (where_mono fuel fuel'), E2 by (lia || (rewrite E2; discriminate)).
      reflexivity.
    + rewrite (where_mono fuel fuel'), E2 by (lia || (rewrite E2; discriminate)).
      reflexivity.
    + exfalso. apply H. reflexivity.
  - rewrite (JS_select_mono fuel fuel'), E1 by (lia || (rewrite E1; discriminate)).
    reflexivity.
  - exfalso. apply H. reflexivity.
Qed.

Lemma TS_parse_mono fuel fuel' p :
  fuel <= fuel' ->
  TS.parse fuel p <> OutOfFuel ->
  TS.parse fuel' p = TS.parse fuel p.
Proof.
  intros Hle H. unfold TS.parse, bind in *.
  destruct (TS._consumePlotClauseOptional p) as [plot p1|e p1|];
    [|reflexivity|reflexivity].
  destruct (TS._consumeSelectClause fuel p1) as [cols p2|e p2|] eqn:E1.
  - rewrite (TS_select_mono fuel fuel'), E1 by (lia || (rewrite E1; discriminate)).
    destruct (_consumeWhereClauseOptional fuel p2) as [w p3|e p3|] eqn:E2.
    + rewrite (where_mono fuel fuel'), E2 by (lia || (rewrite E2; discriminate)).
      reflexivity.
    + rewrite (where_mono fuel fuel'), E2 by (lia || (rewrite E2; discriminate)).
      reflexivity.
    + exfalso. apply H. reflexivity.
  - rewrite (TS_select_mono fuel fuel'), E1 by (lia || (rewrite E1; discriminate)).
    reflexivity.
  - exfalso. apply H. reflexivity.
Qed.

(** [parse()] on a lexer gives one result, a thrown error, with the fuel of
    [fuel_for] and with any larger fuel. *)
Lemma JS_parse_total lexer :
  exists e p,
    JS_parse lexer = Throw e p
    /\ forall fuel, fuel_for lexer <= fuel ->
         JS.parse fuel (new_Parser lexer) = Throw e p.
Proof.
  destruct (JS_parse_always_throws lexer (fuel_for lexer) (le_n _)) as (e & p & H).
  exists e, p. split; [exact H|]. intros fuel Hle.
  rewrite (JS_parse_mono (fuel_for lexer) fuel), H;
    [reflexivity | exact Hle | rewrite H; discriminate].
Qed.

Lemma TS_parse_total lexer :
  exists e p,
    TS_parse lexer = Throw e p
    /\ forall fuel, fuel_for lexer <= fuel ->
         TS.parse fuel (new_Parser lexer) = Throw e p.
Proof.
  destruct (TS_parse_always_throws lexer (fuel_for lexer) (le_n _)) as (e & p & H).
  exists e, p. split; [exact H|]. intros fuel Hle.
  rewrite (TS_parse_mono (fuel_for lexer) fuel), H;
    [reflexivity | exact Hle | rewrite H; discriminate].
Qed.

(** * Further properties of the parser *)

(** ** What [parse()] does on every input *)

(** X1: [parse()] returns a query on no input.  On every lexer it ends by
    throwing, the same error in the same state whatever fuel is left over, in
    the compiled parser and in [parser.ts]; and from no state, with no fuel,
    does it return. *)
Theorem parse_returns_no_query lexer :
  (exists e p, forall k, JS.parse (fuel_for lexer + k) (new_Parser lexer) = Throw e p)
  /\ (exists e p, forall k, TS.parse (fuel_for lexer + k) (new_Parser lexer) = Throw e p)
  /\ (forall fuel p q p', JS.parse fuel p <> Ok q p')
  /\ (forall fuel p q p', TS.parse fuel p <> Ok q p').
Proof.
  split; [|split; [|split]].
  - destruct (JS_parse_total lexer) as (e & p & _ & H).
    exists e, p. intros k. apply H. lia.
  - destruct (TS_parse_total lexer) as (e & p & _ & H).
    exists e, p. intros k. apply H. lia.
  - exact JS_parse_never_returns.
  - exact TS_parse_never_returns.
Qed.

(** A clause keyword is recognised by its text and then consumed as a
    KEYWORD: on a lookahead with the text of the keyword and another type the
    clause throws, on that token. *)
Lemma where_keyword_text p fuel :
  value (_currentToken p) = "WHERE" -> type (_currentToken p) <> KEYWORD ->
  _consumeWhereClauseOptional fuel p = Throw (unexpected_token p) p.
Proof.
  intros Hv Hty. unfold _consumeWhereClauseOptional, bind at 1, currentToken.
  rewrite Hv. cbn [String.eqb Ascii.eqb Bool.eqb negb].
  unfold bind at 1. rewrite consumeToken_eq. unfold accepts.
  apply TokenType_eqb_neq in Hty. rewrite Hty. reflexivity.
Qed.

Lemma groupBy_keyword_text p :
  value (_currentToken p) = "GROUPBY" -> type (_currentToken p) <> KEYWORD ->
  _consumeGroupByClauseOptional p = Throw (unexpected_token p) p.
Proof.
  intros Hv Hty. unfold _consumeGroupByClauseOptional, bind at 1, currentToken.
  rewrite Hv. cbn [String.eqb Ascii.eqb Bool.eqb negb].
  unfold bind at 1. rewrite consumeToken_eq. unfold accepts.
  apply TokenType_eqb_neq in Hty. rewrite Hty. reflexivity.
Qed.

Lemma limit_keyword_text p :
  value (_currentToken p) = "LIMIT" -> type (_currentToken p) <> KEYWORD ->
  _consumeLimitAndOffsetClauseOptional p = Throw (unexpected_token p) p.
Proof.
  intros Hv Hty. unfold _consumeLimitAndOffsetClauseOptional, bind at 1, currentToken.
  rewrite Hv. cbn [String.eqb Ascii.eqb Bool.eqb negb].
  unfold bind at 1. rewrite consumeToken_eq. unfold accepts.
  apply TokenType_eqb_neq in Hty. rewrite Hty. reflexivity.
Qed.

Lemma where_absent p fuel :
  value (_currentToken p) <> "WHERE" -> _consumeWhereClauseOptional fuel p = Ok None p.
Proof.
  intros Hv. apply String.eqb_neq in Hv.
  unfold _consumeWhereClauseOptional, bind, currentToken. rewrite Hv. reflexivity.
Qed.

Lemma groupBy_absent p :
  value (_currentToken p) <> "GROUPBY" -> _consumeGroupByClauseOptional p = Ok None p.
Proof.
  intros Hv. apply String.eqb_neq in Hv.
  unfold _consumeGroupByClauseOptional, bind, currentToken. rewrite Hv. reflexivity.
Qed.

Lemma limit_absent p :
  value (_currentToken p) <> "LIMIT" ->
  _consumeLimitAndOffsetClauseOptional p = Ok None p.
Proof.
  intros Hv. apply String.eqb_neq in Hv.
  unfold _consumeLimitAndOffsetClauseOptional, bind, currentToken. rewrite Hv.
  reflexivity.
Qed.

(** What follows a select clause that returned: on its IDENTIFIER lookahead
    every path ends in the unexpected-token error, on that token. *)
Lemma after_select_throws {Q} fuel p2
    (k : option WhereCondition -> option string -> option LimitAndOffset -> Q) :
  type (_currentToken p2) = IDENTIFIER ->
  (whereCondition <- _consumeWhereClauseOptional fuel ;;
   groupKey <- _consumeGroupByClauseOptional ;;
   limitAndOffset <- _consumeLimitAndOffsetClauseOptional ;;
   _consumeToken EOF None ;;;
   ret (k whereCondition groupKey limitAndOffset)) p2
  = Throw (unexpected_token p2) p2.
Proof.
  intros Hty.
  assert (Hk : type (_currentToken p2) <> KEYWORD) by (rewrite Hty; discriminate).
  unfold bind at 1.
  destruct (string_dec (value (_currentToken p2)) "WHERE") as [Hw|Hw].
  { rewrite where_keyword_text by assumption. reflexivity. }
  rewrite where_absent by assumption. unfold bind at 1.
  destruct (string_dec (value (_currentToken p2)) "GROUPBY") as [Hg|Hg].
  { rewrite groupBy_keyword_text by assumption. reflexivity. }
  rewrite groupBy_absent by assumption. unfold bind at 1.
  destruct (string_dec (value (_currentToken p2)) "LIMIT") as [Hl|Hl].
  { rewrite limit_keyword_text by assumption. reflexivity. }
  rewrite limit_absent by assumption. unfold bind at 1.
  rewrite consumeToken_eq. unfold accepts. rewrite Hty. reflexivity.
Qed.

(** X2: in [parse()] the WHERE, GROUPBY and LIMIT clauses are out of reach.
    When the plot clause and the select clause have returned, the lookahead
    is an IDENTIFIER and [parse()] throws the unexpected-token error on it,
    without consuming anything more: no condition, group key or limit is
    parsed. *)
Theorem parse_throws_after_select fuel p :
  (forall plot p1 cols p2,
     JS._consumePlotClauseOptional p = Ok plot p1 ->
     JS._consumeSelectClause fuel p1 = Ok cols p2 ->
     type (_currentToken p2) = IDENTIFIER
     /\ JS.parse fuel p = Throw (unexpected_token p2) p2)
  /\ (forall plot p1 cols p2,
     TS._consumePlotClauseOptional p = Ok plot p1 ->
     TS._consumeSelectClause fuel p1 = Ok cols p2 ->
     type (_currentToken p2) = IDENTIFIER
     /\ TS.parse fuel p = Throw (unexpected_token p2) p2).
Proof.
  split; intros plot p1 cols p2 Hplot Hsel.
  - destruct (JS_select_Ok _ _ _ _ Hsel) as [Hty _]. split; [exact Hty|].
    unfold JS.parse. unfold bind at 1. rewrite Hplot. unfold bind at 1. rewrite Hsel.
    apply (after_select_throws fuel p2 (JS.mkSPLQuery plot cols) Hty).
  - destruct (TS_select_Ok _ _ _ _ Hsel) as [Hty _]. split; [exact Hty|].
    unfold TS.parse. unfold bind at 1. rewrite Hplot. unfold bind at 1. rewrite Hsel.
    apply (after_select_throws fuel p2 (TS.mkSPLQuery plot cols) Hty).
Qed.

(** On [SELECT a, b WHERE b > 1] the clause WHERE is not reached: [parse()]
    throws on [b]. *)
Lemma parse_throws_after_select_example :
  JS.parse 3 (parser_on [kw "SELECT"; ident "a"; comma; ident "b"; kw "WHERE";
                         ident "b"; cmp ">"; num "1"] 0 (fun n => n))
  = Throw (unexpected_token
             (parser_on [ident "b"; kw "WHERE"; ident "b"; cmp ">"; num "1"] 3
                (fun n => n)))
          (parser_on [ident "b"; kw "WHERE"; ident "b"; cmp ">"; num "1"] 3 (fun n => n)).
Proof.
  exact (proj2 (proj1 (parse_throws_after_select 3
                  (parser_on [kw "SELECT"; ident "a"; comma; ident "b"; kw "WHERE";
                              ident "b"; cmp ">"; num "1"] 0 (fun n => n)))
           None _ [JS.mkColumnMetadata (Some "a") (Some "a") None]
           (parser_on [ident "b"; kw "WHERE"; ident "b"; cmp ">"; num "1"] 3 (fun n => n))
           eq_refl eq_refl)).
Defined.

(** ** The optional clauses *)

Lemma plot_keyword_text p :
  value (_currentToken p) = "PLOT" -> type (_currentToken p) <> KEYWORD ->
  JS._consumePlotClauseOptional p = Throw (unexpected_token p) p
  /\ TS._consumePlotClauseOptional p = Throw (unexpected_token p) p.
Proof.
  intros Hv Hty. apply TokenType_eqb_neq in Hty. split.
  - unfold JS._consumePlotClauseOptional, bind at 1, currentToken.
    rewrite Hv. cbn [String.eqb Ascii.eqb Bool.eqb negb].
    unfold bind at 1. rewrite consumeToken_eq. unfold accepts.
    rewrite Hty. reflexivity.
  - unfold TS._consumePlotClauseOptional, bind at 1, currentToken.
    rewrite Hv. cbn [String.eqb Ascii.eqb Bool.eqb negb].
    unfold bind at 1. rewrite consumeToken_eq. unfold accepts.
    rewrite Hty. reflexivity.
Qed.

(** X3: a clause is chosen by the text of the lookahead and its keyword then
    consumed as a KEYWORD token.  On a lookahead that has the text PLOT, WHERE,
    GROUPBY or LIMIT and is of another type (a string literal, say) the clause
    is not skipped: it throws the unexpected-token error on that token. *)
Theorem keyword_text_of_other_type p :
  type (_currentToken p) <> KEYWORD ->
  (value (_currentToken p) = "PLOT" ->
   JS._consumePlotClauseOptional p = Throw (unexpected_token p) p
   /\ TS._consumePlotClauseOptional p = Throw (unexpected_token p) p)
  /\ (value (_currentToken p) = "WHERE" ->
      forall fuel, _consumeWhereClauseOptional fuel p = Throw (unexpected_token p) p)
  /\ (value (_currentToken p) = "GROUPBY" ->
      _consumeGroupByClauseOptional p = Throw (unexpected_token p) p)
  /\ (value (_currentToken p) = "LIMIT" ->
      _consumeLimitAndOffsetClauseOptional p = Throw (unexpected_token p) p).
Proof.
  intros Hty. split; [|split; [|split]].
  - intros Hv. apply plot_keyword_text; assumption.
  - intros Hv fuel. apply where_keyword_text; assumption.
  - intros Hv. apply groupBy_keyword_text; assumption.
  - intros Hv. apply limit_keyword_text; assumption.
Qed.

(** The string literal ['LIMIT'] where a LIMIT clause could start. *)
Lemma keyword_text_of_other_type_example :
  _consumeLimitAndOffsetClauseOptional
    (parser_on [mkToken STRING "LIMIT"; num "10"] 0 (fun n => n))
  = Throw (unexpected_token (parser_on [mkToken STRING "LIMIT"; num "10"] 0 (fun n => n)))
          (parser_on [mkToken STRING "LIMIT"; num "10"] 0 (fun n => n)).
Proof.
  exact (proj2 (proj2 (proj2
           (keyword_text_of_other_type
              (parser_on [mkToken STRING "LIMIT"; num "10"] 0 (fun n => n))
              ltac:(simpl; discriminate)))) eq_refl).
Defined.

(** X4: the LIMIT clause, case by case.  On a lookahead whose text is not
    LIMIT it returns nothing and consumes nothing.  After the keyword LIMIT it
    wants a NUMBER and throws on any other token, the end of input too; after
    the number, on a token whose text is not OFFSET it returns the limit with
    offset 0 and stops on that token; after OFFSET it wants a NUMBER again,
    throws on any other token, and returns the limit and the offset. *)
Theorem limit_clause_cases :
  (forall p,
     value (_currentToken p) <> "LIMIT" ->
     _consumeLimitAndOffsetClauseOptional p = Ok None p)
  /\ (forall rest n off,
     type (lookahead rest) <> NUMBER ->
     _consumeLimitAndOffsetClauseOptional (parser_on (kw "LIMIT" :: rest) n off)
     = Throw (unexpected_token (parser_on rest (1 + n) off)) (parser_on rest (1 + n) off))
  /\ (forall text rest n off,
     value (lookahead rest) <> "OFFSET" ->
     _consumeLimitAndOffsetClauseOptional (parser_on (kw "LIMIT" :: num text :: rest) n off)
     = Ok (Some (mkLimitAndOffset (Number text) (JsInt 0))) (parser_on rest (2 + n) off))
  /\ (forall text rest n off,
     type (lookahead rest) <> NUMBER ->
     _consumeLimitAndOffsetClauseOptional
       (parser_on (kw "LIMIT" :: num text :: kw "OFFSET" :: rest) n off)
     = Throw (unexpected_token (parser_on rest (3 + n) off)) (parser_on rest (3 + n) off))
  /\ (forall text text' rest n off,
     _consumeLimitAndOffsetClauseOptional
       (parser_on (kw "LIMIT" :: num text :: kw "OFFSET" :: num text' :: rest) n off)
     = Ok (Some (mkLimitAndOffset (Number text) (Number text')))
          (parser_on rest (4 + n) off)).
Proof.
  split; [exact limit_absent|].
  split; [|split; [exact limit_without_offset|split; [|exact limit_with_offset]]].
  - intros rest n off Hty. apply TokenType_eqb_neq in Hty.
    unfold _consumeLimitAndOffsetClauseOptional. run.
    rewrite consumeToken_eq. unfold accepts. rewrite parser_on_current, Hty.
    reflexivity.
  - intros text rest n off Hty. apply TokenType_eqb_neq in Hty.
    unfold _consumeLimitAndOffsetClauseOptional. run.
    rewrite consumeToken_eq. unfold accepts. rewrite parser_on_current, Hty.
    reflexivity.
Qed.

(** The cases on [LIMIT], [LIMIT x], [LIMIT 10 ,] and [LIMIT 10 OFFSET]. *)
Lemma limit_clause_cases_example :
  _consumeLimitAndOffsetClauseOptional (parser_on [kw "LIMIT"] 0 (fun n => n))
  = Throw (unexpected_token (parser_on [] 1 (fun n => n))) (parser_on [] 1 (fun n => n))
  /\ _consumeLimitAndOffsetClauseOptional
       (parser_on [kw "LIMIT"; ident "x"] 0 (fun n => n))
     = Throw (unexpected_token (parser_on [ident "x"] 1 (fun n => n)))
             (parser_on [ident "x"] 1 (fun n => n))
  /\ _consumeLimitAndOffsetClauseOptional
       (parser_on [kw "LIMIT"; num "10"; comma] 0 (fun n => n))
     = Ok (Some (mkLimitAndOffset (JsInt 10) (JsInt 0))) (parser_on [comma] 2 (fun n => n))
  /\ _consumeLimitAndOffsetClauseOptional
       (parser_on [kw "LIMIT"; num "10"; kw "OFFSET"] 0 (fun n => n))
     = Throw (unexpected_token (parser_on [] 3 (fun n => n))) (parser_on [] 3 (fun n => n)).
Proof.
  split; [|split; [|split]].
  - exact (proj1 (proj2 limit_clause_cases) [] 0 (fun n => n)
             ltac:(simpl; discriminate)).
  - exact (proj1 (proj2 limit_clause_cases) [ident "x"] 0 (fun n => n)
             ltac:(simpl; discriminate)).
  - exact (proj1 (proj2 (proj2 limit_clause_cases)) "10" [comma] 0 (fun n => n)
             ltac:(simpl; discriminate)).
  - exact (proj1 (proj2 (proj2 (proj2 limit_clause_cases))) "10" [] 0 (fun n => n)
             ltac:(simpl; discriminate)).
Defined.

(** X5: the GROUPBY clause, case by case.  On a lookahead whose text is not
    GROUPBY it returns nothing and consumes nothing; after the keyword it
    returns the text of an IDENTIFIER as the group key and throws on any other
    token, the end of input too.  One key is taken: what follows it is left
    to the next clause. *)
Theorem groupBy_clause_cases :
  (forall p,
     value (_currentToken p) <> "GROUPBY" ->
     _consumeGroupByClauseOptional p = Ok None p)
  /\ (forall key rest n off,
     _consumeGroupByClauseOptional (parser_on (kw "GROUPBY" :: ident key :: rest) n off)
     = Ok (Some key) (parser_on rest (2 + n) off))
  /\ (forall rest n off,
     type (lookahead rest) <> IDENTIFIER ->
     _consumeGroupByClauseOptional (parser_on (kw "GROUPBY" :: rest) n off)
     = Throw (unexpected_token (parser_on rest (1 + n) off)) (parser_on rest (1 + n) off)).
Proof.
  split; [exact groupBy_absent|]. split.
  - intros key rest n off. unfold _consumeGroupByClauseOptional. run. reflexivity.
  - intros rest n off Hty. apply TokenType_eqb_neq in Hty.
    unfold _consumeGroupByClauseOptional. run.
    rewrite consumeToken_eq. unfold accepts. rewrite parser_on_current, Hty.
    reflexivity.
Qed.

(** An aggregation is no group key, and a second key is not consumed. *)
Lemma groupBy_clause_cases_example :
  _consumeGroupByClauseOptional
    (parser_on [kw "GROUPBY"; agg "SUM"; lparen; ident "x"; rparen] 0 (fun n => n))
  = Throw (unexpected_token
             (parser_on [agg "SUM"; lparen; ident "x"; rparen] 1 (fun n => n)))
          (parser_on [agg "SUM"; lparen; ident "x"; rparen] 1 (fun n => n))
  /\ _consumeGroupByClauseOptional
       (parser_on [kw "GROUPBY"; ident "a"; comma; ident "b"] 0 (fun n => n))
     = Ok (Some "a") (parser_on [comma; ident "b"] 2 (fun n => n)).
Proof.
  split.
  - exact (proj2 (proj2 groupBy_clause_cases)
             [agg "SUM"; lparen; ident "x"; rparen] 0 (fun n => n)
             ltac:(simpl; discriminate)).
  - exact (proj1 (proj2 groupBy_clause_cases) "a" [comma; ident "b"] 0 (fun n => n)).
Defined.

(** ** Forward only *)

Lemma pull_pull k1 k2 p : pull k2 (pull k1 p) = pull (k2 + k1) p.
Proof. unfold pull. symmetry. apply Nat.iter_add. Qed.

Lemma forward_ret {A} (a : A) : forward (ret a).
Proof. intros p. exists 0. reflexivity. Qed.

Lemma forward_throw {A} msg : forward (@throw A msg).
Proof. intros p. exists 0. reflexivity. Qed.

Lemma forward_out_of_fuel {A} : forward (@out_of_fuel A).
Proof. intros p. exact I. Qed.

Lemma forward_currentToken : forward currentToken.
Proof. intros p. exists 0. reflexivity. Qed.

Lemma forward_advance : forward advance.
Proof. intros p. rewrite advance_eq. exists 1. reflexivity. Qed.

Lemma forward_consumeToken tokenType val : forward (_consumeToken tokenType val).
Proof.
  intros p. rewrite consumeToken_eq. destruct (accepts _ _ _).
  - exists 1. reflexivity.
  - exists 0. reflexivity.
Qed.

Lemma forward_bind {A B} (m : M A) (k : A -> M B) :
  forward m -> (forall a, forward (k a)) -> forward (bind m k).
Proof.
  intros Hm Hk p. unfold bind. specialize (Hm p).
  destruct (m p) as [a p1|e p1|]; [|exact Hm|exact I].
  destruct Hm as [k1 ->]. specialize (Hk a (pull k1 p)).
  destruct (k a (pull k1 p)) as [b p2|e p2|]; [| |exact I];
    destruct Hk as [k2 ->]; exists (k2 + k1); apply pull_pull.
Qed.

#[local] Hint Resolve forward_ret forward_throw forward_out_of_fuel
  forward_currentToken forward_advance forward_consumeToken : spl.

Ltac forward_tac :=
  repeat first
    [ solve [auto with spl]
    | progress cbv zeta
    | match goal with |- forward (match ?c with _ => _ end) => destruct c end
    | apply forward_bind; [|intro] ].

Lemma forward_consumeComparison : forward _consumeComparison.
Proof. unfold _consumeComparison, _consumeComparisonValue. forward_tac. Qed.

Lemma forward_consumeConditionGroup_of (c : M WhereCondition) :
  forward c -> forward (_consumeConditionGroup_of c).
Proof.
  intros Hc. unfold _consumeConditionGroup_of.
  apply forward_bind; [auto with spl|intro token].
  destruct (TokenType_eqb _ _); [apply forward_consumeComparison|].
  apply forward_bind; [auto with spl|intro].
  apply forward_bind; [exact Hc|intro]. forward_tac.
Qed.

Lemma forward_and_loop (g : M WhereCondition) :
  forward g -> forall fuel acc, forward (and_loop g fuel acc).
Proof.
  intros Hg. induction fuel as [|fuel IH]; intros acc; [apply forward_out_of_fuel|].
  cbn [and_loop]. apply forward_bind; [auto with spl|intro token].
  destruct (String.eqb _ _); [|auto with spl].
  apply forward_bind; [auto with spl|intro].
  apply forward_bind; [exact Hg|intro]. apply IH.
Qed.

Lemma forward_or_loop (g : M WhereCondition) :
  forward g -> forall fuel acc, forward (or_loop g fuel acc).
Proof.
  intros Hg. induction fuel as [|fuel IH]; intros acc; [apply forward_out_of_fuel|].
  cbn [or_loop]. apply forward_bind; [exact Hg|intro c].
  apply forward_bind; [apply forward_and_loop; exact Hg|intro inner].
  apply forward_bind; [auto with spl|intro token].
  destruct (negb _); [auto with spl|].
  apply forward_bind; [auto with spl|intro]. apply IH.
Qed.

Lemma forward_consumeCondition fuel : forward (_consumeCondition fuel).
Proof.
  induction fuel as [|fuel IH]; [apply forward_out_of_fuel|].
  cbn [_consumeCondition]. apply forward_bind.
  - apply forward_or_loop, forward_consumeConditionGroup_of. exact IH.
  - intros [|c [|c' l]]; auto with spl.
Qed.

Lemma forward_where fuel : forward (_consumeWhereClauseOptional fuel).
Proof.
  unfold _consumeWhereClauseOptional, fmap.
  apply forward_bind; [auto with spl|intro token].
  destruct (negb _); [auto with spl|].
  apply forward_bind; [auto with spl|intro].
  apply forward_bind; [apply forward_consumeCondition|intro; auto with spl].
Qed.

Lemma forward_groupBy : forward _consumeGroupByClauseOptional.
Proof. unfold _consumeGroupByClauseOptional. forward_tac. Qed.

Lemma forward_limit : forward _consumeLimitAndOffsetClauseOptional.
Proof. unfold _consumeLimitAndOffsetClauseOptional. forward_tac. Qed.

Lemma forward_select_loop {C} (consumeColumn : M C) :
  forward consumeColumn -> forall fuel acc, forward (select_loop consumeColumn fuel acc).
Proof.
  intros Hc. induction fuel as [|fuel IH]; intros acc; [apply forward_out_of_fuel|].
  cbn [select_loop]. apply forward_bind; [exact Hc|intro c].
  apply forward_bind; [auto with spl|intro].
  apply forward_bind; [auto with spl|intro token].
  destruct (negb _); [apply IH | auto with spl].
Qed.

Lemma forward_JS_consumeColumn : forward JS._consumeColumn.
Proof. unfold JS._consumeColumn. forward_tac. Qed.

Lemma forward_TS_consumeColumn : forward TS._consumeColumn.
Proof. unfold TS._consumeColumn. forward_tac. Qed.

#[local] Hint Resolve forward_JS_consumeColumn forward_TS_consumeColumn
  forward_where forward_groupBy forward_limit : spl.

Lemma forward_JS_plot : forward JS._consumePlotClauseOptional.
Proof. unfold JS._consumePlotClauseOptional, JS._consumePlotArgs. forward_tac. Qed.

Lemma forward_TS_plot : forward TS._consumePlotClauseOptional.
Proof. unfold TS._consumePlotClauseOptional, TS._consumePlotArgs. forward_tac. Qed.

Lemma forward_JS_select fuel : forward (JS._consumeSelectClause fuel).
Proof.
  unfold JS._consumeSelectClause. apply forward_bind; [auto with spl|intro].
  apply forward_select_loop. auto with spl.
Qed.

Lemma forward_TS_select fuel : forward (TS._consumeSelectClause fuel).
Proof. unfold TS._consumeSelectClause. apply forward_select_loop. auto with spl. Qed.

(** What pulling [k] tokens does to the lexer: the first [k] pending tokens
    are gone, nothing else of it changes, and the lookahead is the last token
    pulled, or the end-of-input token when the lexer ran out. *)
Lemma pull_lexer k p :
  pending (_lexer (pull k p)) = skipn k (pending (_lexer p))
  /\ offsetAfter (_lexer (pull k p)) = offsetAfter (_lexer p)
  /\ scanned (_lexer (pull k p)) = scanned (_lexer p) + min k (remaining p)
  /\ (0 < k -> _currentToken (pull k p) = nth (k - 1) (pending (_lexer p)) eofToken).
Proof.
  revert p. induction k as [|k IH]; intros p.
  - unfold remaining. cbn. split; [reflexivity|]. split; [reflexivity|].
    split; [lia|]. intros H. lia.
  - assert (Hpull : pull (S k) p = pull k (step p)).
    { unfold pull. rewrite Nat.iter_succ_r. reflexivity. }
    rewrite Hpull. destruct (IH (step p)) as (H1 & H2 & H3 & H4).
    rewrite H1, H2, H3. clear H1 H2 H3 Hpull IH.
    assert (Hstep : pending (_lexer (step p)) = tl (pending (_lexer p))
                    /\ offsetAfter (_lexer (step p)) = offsetAfter (_lexer p)
                    /\ scanned (_lexer (step p))
                       = scanned (_lexer p) + min 1 (remaining p)
                    /\ _currentToken (step p) = hd eofToken (pending (_lexer p))).
    { unfold step, nextToken, remaining.
      destruct (pending (_lexer p)) as [|t ts] eqn:E; cbn; rewrite ?E;
        repeat split; cbn; lia. }
    destruct Hstep as (S1 & S2 & S3 & S4).
    unfold remaining in *. rewrite S1, S2, S3. rewrite S1 in H4.
    destruct (pending (_lexer p)) as [|t ts]; cbn [tl length skipn] in *.
    + rewrite skipn_nil. split; [reflexivity|]. split; [reflexivity|].
      split; [lia|]. intros _. destruct k as [|k].
      * exact S4.
      * rewrite H4 by lia. destruct (S k - 1); reflexivity.
    + split; [reflexivity|]. split; [reflexivity|]. split; [lia|].
      intros _. destruct k as [|k].
      * exact S4.
      * rewrite H4 by lia. cbn [Nat.sub nth]. rewrite Nat.sub_0_r. reflexivity.
Qed.

(** X6: no backtracking.  Whatever a clause or [parse()] does, returning or
    throwing, it leaves the parser in the state reached from where it started
    by pulling some number of tokens from the lexer: the tokens pulled are
    gone from the lexer, in order, none is put back, and the lookahead is the
    last one pulled. *)
Theorem parser_only_moves_forward fuel :
  forward (JS.parse fuel) /\ forward (TS.parse fuel)
  /\ forward JS._consumePlotClauseOptional /\ forward TS._consumePlotClauseOptional
  /\ forward (JS._consumeSelectClause fuel) /\ forward (TS._consumeSelectClause fuel)
  /\ forward (_consumeWhereClauseOptional fuel)
  /\ forward _consumeGroupByClauseOptional
  /\ forward _consumeLimitAndOffsetClauseOptional
  /\ (forall k p,
        pending (_lexer (pull k p)) = skipn k (pending (_lexer p))
        /\ offsetAfter (_lexer (pull k p)) = offsetAfter (_lexer p)
        /\ scanned (_lexer (pull k p)) = scanned (_lexer p) + min k (remaining p)
        /\ (0 < k -> _currentToken (pull k p) = nth (k - 1) (pending (_lexer p)) eofToken)).
Proof.
  pose proof forward_JS_plot. pose proof forward_TS_plot.
  pose proof (forward_JS_select fuel). pose proof (forward_TS_select fuel).
  repeat split; try assumption; try apply pull_lexer; auto with spl.
  - unfold JS.parse. forward_tac.
  - unfold TS.parse. forward_tac.
Qed.

(** ** The errors a routine can throw *)

Lemma throwing_ret {A} E (a : A) : throwing E (ret a).
Proof. intros p e p' H. discriminate H. Qed.

Lemma throwing_currentToken E : throwing E currentToken.
Proof. intros p e p' H. discriminate H. Qed.

Lemma throwing_advance E : throwing E advance.
Proof. intros p e p' H. rewrite advance_eq in H. discriminate H. Qed.

Lemma throwing_out_of_fuel {A} E : throwing E (@out_of_fuel A).
Proof. intros p e p' H. discriminate H. Qed.

Lemma throwing_consumeToken (E : SPLError -> Parser -> Prop) tokenType val :
  (forall p, E (unexpected_token p) p) -> throwing E (_consumeToken tokenType val).
Proof.
  intros HE p e p' H. apply consumeToken_Throw_inv in H. destruct H as [-> ->].
  apply HE.
Qed.

Lemma throwing_bind {A B} E (m : M A) (k : A -> M B) :
  throwing E m -> (forall a, throwing E (k a)) -> throwing E (bind m k).
Proof.
  intros Hm Hk p e p' H. apply bind_Throw_inv in H.
  destruct H as [H|(a & p1 & _ & H)]; [eapply Hm | eapply Hk]; eassumption.
Qed.

Lemma throwing_weaken {A} (E E' : SPLError -> Parser -> Prop) (m : M A) :
  (forall e p, E e p -> E' e p) -> throwing E m -> throwing E' m.
Proof. intros HE Hm p e p' H. apply HE. eapply Hm. exact H. Qed.

Lemma unexpected_is_condition_error p : condition_error (unexpected_token p) p.
Proof. left. reflexivity. Qed.

Lemma unexpected_is_parse_error p : parse_error (unexpected_token p) p.
Proof. left. reflexivity. Qed.

Lemma unexpected_is_unexpected p : is_unexpected_token (unexpected_token p) p.
Proof. reflexivity. Qed.

#[local] Hint Resolve throwing_ret throwing_currentToken throwing_advance
  throwing_out_of_fuel unexpected_is_condition_error unexpected_is_parse_error
  unexpected_is_unexpected : spl.
#[local] Hint Extern 1 (throwing _ (_consumeToken _ _)) =>
  apply throwing_consumeToken; intro : spl.

Ltac throwing_tac :=
  repeat first
    [ solve [auto with spl]
    | progress cbv zeta
    | match goal with |- throwing _ (match ?c with _ => _ end) => destruct c end
    | apply throwing_bind; [|intro] ].

Lemma throwing_consumeComparisonValue : throwing condition_error _consumeComparisonValue.
Proof.
  unfold _consumeComparisonValue.
  apply throwing_bind; [auto with spl|intro token].
  apply throwing_bind; [auto with spl|intro].
  destruct (type token); auto with spl;
    intros p e p' H; injection H as <- <-; right; right; reflexivity.
Qed.

Lemma throwing_consumeComparison : throwing condition_error _consumeComparison.
Proof.
  unfold _consumeComparison.
  apply throwing_bind; [auto with spl|intro keyToken].
  apply throwing_bind; [auto with spl|intro opToken]. cbv zeta.
  destruct (String.eqb (value opToken) ">") eqn:E1; [throwing_tac|].
  destruct (String.eqb (value opToken) ">=") eqn:E2; [throwing_tac|].
  destruct (String.eqb (value opToken) "<") eqn:E3; [throwing_tac|].
  destruct (String.eqb (value opToken) "<=") eqn:E4; [throwing_tac|].
  destruct (String.eqb (value opToken) "=") eqn:E5.
  { apply throwing_bind; [apply throwing_consumeComparisonValue|intro; auto with spl]. }
  destruct (String.eqb (value opToken) "!=") eqn:E6.
  { apply throwing_bind; [apply throwing_consumeComparisonValue|intro; auto with spl]. }
  intros p e p' H. injection H as <- <-. right. left.
  exists (value opToken). split; [reflexivity|].
  apply String.eqb_neq in E1, E2, E3, E4, E5, E6.
  unfold comparison_operators. simpl. intuition congruence.
Qed.

Lemma throwing_consumeConditionGroup_of (c : M WhereCondition) :
  throwing condition_error c -> throwing condition_error (_consumeConditionGroup_of c).
Proof.
  intros Hc. unfold _consumeConditionGroup_of.
  apply throwing_bind; [auto with spl|intro token].
  destruct (TokenType_eqb _ _); [apply throwing_consumeComparison|].
  apply throwing_bind; [auto with spl|intro].
  apply throwing_bind; [exact Hc|intro]. throwing_tac.
Qed.

Lemma throwing_and_loop E (g : M WhereCondition) :
  (forall p, E (unexpected_token p) p) ->
  throwing E g -> forall fuel acc, throwing E (and_loop g fuel acc).
Proof.
  intros HE Hg. induction fuel as [|fuel IH]; intros acc; [apply throwing_out_of_fuel|].
  cbn [and_loop]. apply throwing_bind; [auto with spl|intro token].
  destruct (String.eqb _ _); [|auto with spl].
  apply throwing_bind; [apply throwing_consumeToken; exact HE|intro].
  apply throwing_bind; [exact Hg|intro]. apply IH.
Qed.

Lemma throwing_or_loop E (g : M WhereCondition) :
  (forall p, E (unexpected_token p) p) ->
  throwing E g -> forall fuel acc, throwing E (or_loop g fuel acc).
Proof.
  intros HE Hg. induction fuel as [|fuel IH]; intros acc; [apply throwing_out_of_fuel|].
  cbn [or_loop]. apply throwing_bind; [exact Hg|intro c].
  apply throwing_bind; [apply throwing_and_loop; assumption|intro inner].
  apply throwing_bind; [auto with spl|intro token].
  destruct (negb _); [auto with spl|].
  apply throwing_bind; [auto with spl|intro]. apply IH.
Qed.

Lemma throwing_consumeCondition fuel : throwing condition_error (_consumeCondition fuel).
Proof.
  induction fuel as [|fuel IH]; [apply throwing_out_of_fuel|].
  cbn [_consumeCondition]. apply throwing_bind.
  - apply throwing_or_loop; [auto with spl|].
    apply throwing_consumeConditionGroup_of. exact IH.
  - intros [|c [|c' l]]; auto with spl.
Qed.

(** X7: the errors of the WHERE clause are of three kinds and no other: the
    unexpected-token error, for the token the parser stands on when it is
    thrown; the invalid-operator error, for the text of a COMPARISON_OPERATOR
    token that is none of the six operators; and the error for an operand of
    [=] or [!=] that is no string, number or null. *)
Theorem where_clause_errors fuel p e p' :
  _consumeWhereClauseOptional fuel p = Throw e p' ->
  e = unexpected_token p'
  \/ (exists op, e = mkSPLError ("Invalid comparison operator " ++ op)
                 /\ ~ In op comparison_operators)
  \/ e = mkSPLError "Equal comparison allowed only for string, number, and null".
Proof.
  revert p e p'.
  change (throwing condition_error (_consumeWhereClauseOptional fuel)).
  unfold _consumeWhereClauseOptional, fmap.
  apply throwing_bind; [auto with spl|intro token].
  destruct (negb _); [auto with spl|].
  apply throwing_bind; [auto with spl|intro].
  apply throwing_bind; [apply throwing_consumeCondition|intro; auto with spl].
Qed.

(** Two of the kinds, on [WHERE a > 'x'] and on [WHERE a ~ 1]. *)
Lemma where_clause_errors_example :
  (unexpected_token (parser_on [mkToken STRING "x"] 3 (fun n => n))
   = unexpected_token (parser_on [mkToken STRING "x"] 3 (fun n => n))
   \/ (exists op,
         unexpected_token (parser_on [mkToken STRING "x"] 3 (fun n => n))
         = mkSPLError ("Invalid comparison operator " ++ op)
         /\ ~ In op comparison_operators)
   \/ unexpected_token (parser_on [mkToken STRING "x"] 3 (fun n => n))
      = mkSPLError "Equal comparison allowed only for string, number, and null")
  /\ (mkSPLError "Invalid comparison operator ~" = unexpected_token (parser_on [num "1"] 3 (fun n => n))
      \/ (exists op,
            mkSPLError "Invalid comparison operator ~"
            = mkSPLError ("Invalid comparison operator " ++ op)
            /\ ~ In op comparison_operators)
      \/ mkSPLError "Invalid comparison operator ~"
         = mkSPLError "Equal comparison allowed only for string, number, and null").
Proof.
  split.
  - exact (where_clause_errors 2
             (parser_on [kw "WHERE"; ident "a"; cmp ">"; mkToken STRING "x"] 0 (fun n => n))
             (unexpected_token (parser_on [mkToken STRING "x"] 3 (fun n => n)))
             (parser_on [mkToken STRING "x"] 3 (fun n => n)) eq_refl).
  - exact (where_clause_errors 2
             (parser_on [kw "WHERE"; ident "a"; cmp "~"; num "1"] 0 (fun n => n))
             (mkSPLError "Invalid comparison operator ~")
             (parser_on [num "1"] 3 (fun n => n)) eq_refl).
Defined.

Lemma throwing_select_loop {C} E (consumeColumn : M C) :
  (forall p, E (unexpected_token p) p) ->
  throwing E consumeColumn ->
  forall fuel acc, throwing E (select_loop consumeColumn fuel acc).
Proof.
  intros HE Hc. induction fuel as [|fuel IH]; intros acc; [apply throwing_out_of_fuel|].
  cbn [select_loop]. apply throwing_bind; [exact Hc|intro c].
  apply throwing_bind; [apply throwing_consumeToken; exact HE|intro].
  apply throwing_bind; [auto with spl|intro token].
  destruct (negb _); [apply IH | auto with spl].
Qed.

Lemma throwing_JS_consumeColumn : throwing is_unexpected_token JS._consumeColumn.
Proof. unfold JS._consumeColumn. throwing_tac. Qed.

Lemma throwing_TS_consumeColumn : throwing is_unexpected_token TS._consumeColumn.
Proof. unfold TS._consumeColumn. throwing_tac. Qed.

Lemma unexpected_parse_error e p : is_unexpected_token e p -> parse_error e p.
Proof. intros H. left. exact H. Qed.

Lemma throwing_JS_plot : throwing parse_error JS._consumePlotClauseOptional.
Proof.
  unfold JS._consumePlotClauseOptional.
  apply throwing_bind; [auto with spl|intro token].
  destruct (negb _); [auto with spl|].
  apply throwing_bind; [auto with spl|intro].
  apply throwing_bind; [auto with spl|intro plotFunction].
  apply throwing_bind; [auto with spl|intro].
  apply throwing_bind; [|intro; throwing_tac].
  unfold JS._consumePlotArgs.
  destruct (String.eqb (value plotFunction) "BAR") eqn:E1; [throwing_tac|].
  destruct (String.eqb (value plotFunction) "LINE") eqn:E2; cbn [orb];
    [throwing_tac|].
  destruct (String.eqb (value plotFunction) "SCATTER") eqn:E3; [throwing_tac|].
  intros p e p' H. injection H as <- <-. right.
  exists (value plotFunction). apply String.eqb_neq in E1, E2, E3. auto.
Qed.

Lemma throwing_TS_plot : throwing parse_error TS._consumePlotClauseOptional.
Proof.
  pose proof (throwing_weaken _ _ _ unexpected_parse_error throwing_TS_consumeColumn)
    as Hcol.
  unfold TS._consumePlotClauseOptional.
  apply throwing_bind; [auto with spl|intro token].
  destruct (negb _); [auto with spl|].
  apply throwing_bind; [auto with spl|intro].
  apply throwing_bind; [auto with spl|intro plotFunction].
  apply throwing_bind; [auto with spl|intro].
  apply throwing_bind; [|intro; throwing_tac].
  unfold TS._consumePlotArgs.
  destruct (String.eqb (value plotFunction) "BAR") eqn:E1.
  { apply throwing_bind; [exact Hcol|intro].
    apply throwing_bind; [auto with spl|intro].
    apply throwing_bind; [exact Hcol|intro; auto with spl]. }
  destruct (String.eqb (value plotFunction) "LINE") eqn:E2; cbn [orb].
  { apply throwing_bind; [exact Hcol|intro].
    apply throwing_bind; [auto with spl|intro].
    apply throwing_bind; [exact Hcol|intro; auto with spl]. }
  destruct (String.eqb (value plotFunction) "SCATTER") eqn:E3.
  { apply throwing_bind; [exact Hcol|intro].
    apply throwing_bind; [auto with spl|intro].
    apply throwing_bind; [exact Hcol|intro; auto with spl]. }
  intros p e p' H. injection H as <- <-. right.
  exists (value plotFunction). apply String.eqb_neq in E1, E2, E3. auto.
Qed.

(** X8: the errors of [parse()] are of two kinds and no other: the
    unexpected-token error, for the token the parser stands on when it is
    thrown, and the invalid-plot-type error, for the text of a PLOT_FUNCTION
    token that is none of BAR, LINE and SCATTER.  The two errors of a
    comparison are not among them: [parse()] does not get to a comparison. *)
Theorem parse_errors fuel p :
  (forall e p',
     JS.parse fuel p = Throw e p' ->
     e = unexpected_token p'
     \/ (exists f, e = mkSPLError ("Invalid plot type " ++ f)
                   /\ f <> "BAR" /\ f <> "LINE" /\ f <> "SCATTER"))
  /\ (forall e p',
     TS.parse fuel p = Throw e p' ->
     e = unexpected_token p'
     \/ (exists f, e = mkSPLError ("Invalid plot type " ++ f)
                   /\ f <> "BAR" /\ f <> "LINE" /\ f <> "SCATTER")).
Proof.
  split; intros e p' H.
  - change (parse_error e p'). unfold JS.parse in H.
    apply bind_Throw_inv in H. destruct H as [H|(plot & p1 & Hplot & H)].
    { eapply throwing_JS_plot. exact H. }
    apply bind_Throw_inv in H. destruct H as [H|(cols & p2 & Hsel & H)].
    { left. revert H. unfold JS._consumeSelectClause.
      apply throwing_bind; [auto with spl|intro].
      apply throwing_select_loop; [auto with spl|apply throwing_JS_consumeColumn]. }
    destruct (JS_select_Ok _ _ _ _ Hsel) as [Hty _].
    rewrite (after_select_throws fuel p2 (JS.mkSPLQuery plot cols) Hty) in H.
    injection H as <- <-. left. reflexivity.
  - change (parse_error e p'). unfold TS.parse in H.
    apply bind_Throw_inv in H. destruct H as [H|(plot & p1 & Hplot & H)].
    { eapply throwing_TS_plot. exact H. }
    apply bind_Throw_inv in H. destruct H as [H|(cols & p2 & Hsel & H)].
    { left. revert H. unfold TS._consumeSelectClause.
      apply throwing_select_loop; [auto with spl|apply throwing_TS_consumeColumn]. }
    destruct (TS_select_Ok _ _ _ _ Hsel) as [Hty _].
    rewrite (after_select_throws fuel p2 (TS.mkSPLQuery plot cols) Hty) in H.
    injection H as <- <-. left. reflexivity.
Qed.

(** The second kind, on a plot function that is none of the three. *)
Lemma parse_errors_example :
  mkSPLError "Invalid plot type PIE"
  = unexpected_token (parser_on [ident "a"; comma; ident "b"; rparen] 3 (fun n => n))
  \/ (exists f, mkSPLError "Invalid plot type PIE" = mkSPLError ("Invalid plot type " ++ f)
                /\ f <> "BAR" /\ f <> "LINE" /\ f <> "SCATTER").
Proof.
  exact (proj1 (parse_errors 1
                  (parser_on [kw "PLOT"; plotfn "PIE"; lparen; ident "a"; comma; ident "b";
                              rparen] 0 (fun n => n)))
           (mkSPLError "Invalid plot type PIE")
           (parser_on [ident "a"; comma; ident "b"; rparen] 3 (fun n => n)) eq_refl).
Defined.

(** ** The WHERE clause: where it stops, and that it stops *)

Lemma and_loop_lookahead (g : M WhereCondition) fuel :
  forall acc p l p',
    and_loop g fuel acc p = Ok l p' -> value (_currentToken p') <> "AND".
Proof.
  induction fuel as [|fuel IH]; intros acc p l p' H; simpl in H; [discriminate H|].
  bind_inv H t p1 Ht. apply currentToken_Ok_inv in Ht. destruct Ht as [-> ->].
  destruct (String.eqb (value (_currentToken p)) "AND") eqn:E.
  - bind_inv H a p2 Ha. bind_inv H c p3 Hc. eapply IH. exact H.
  - injection H as _ <-. apply String.eqb_neq. exact E.
Qed.

Lemma or_loop_lookahead (g : M WhereCondition) fuel :
  forall acc p l p',
    or_loop g fuel acc p = Ok l p' ->
    value (_currentToken p') <> "AND" /\ value (_currentToken p') <> "OR".
Proof.
  induction fuel as [|fuel IH]; intros acc p l p' H; simpl in H; [discriminate H|].
  bind_inv H c p1 Hc. bind_inv H inner p2 Hinner. bind_inv H t p3 Ht.
  apply currentToken_Ok_inv in Ht. destruct Ht as [-> ->].
  apply and_loop_lookahead in Hinner.
  destruct (String.eqb (value (_currentToken p2)) "OR") eqn:E; cbn [negb] in H.
  - bind_inv H u p4 Hu. eapply IH. exact H.
  - injection H as _ <-. split; [exact Hinner | apply String.eqb_neq; exact E].
Qed.

(** X9: a condition is consumed as far as it goes.  When the WHERE clause
    returns a condition, the token the parser is left on has neither the text
    AND nor the text OR: no operator of the condition is left unconsumed for
    the clauses that follow. *)
Theorem where_clause_stops_after_condition fuel p c p' :
  _consumeWhereClauseOptional fuel p = Ok (Some c) p' ->
  value (_currentToken p') <> "AND" /\ value (_currentToken p') <> "OR".
Proof.
  intros H. unfold _consumeWhereClauseOptional in H.
  bind_inv H t p1 Ht. destruct (negb _); [discriminate H|].
  bind_inv H k p2 Hk. unfold fmap in H. bind_inv H c' p3 Hc. injection H as _ <-.
  destruct fuel as [|fuel]; simpl in Hc; [discriminate Hc|].
  bind_inv Hc filters p4 Hf. apply or_loop_lookahead in Hf.
  destruct filters as [|c0 [|c1 l]]; injection Hc as _ <-; exact Hf.
Qed.

(** On [WHERE a > 1 AND b > 2 GROUPBY a] the parser is left on GROUPBY. *)
Lemma where_clause_stops_after_condition_example :
  value (kw "GROUPBY") <> "AND" /\ value (kw "GROUPBY") <> "OR".
Proof.
  exact (where_clause_stops_after_condition 5
           (parser_on [kw "WHERE"; ident "a"; cmp ">"; num "1"; tAND;
                       ident "b"; cmp ">"; num "2"; kw "GROUPBY"; ident "a"] 0
              (fun n => n))
           (And [Gt "a" (JsInt 1); Gt "b" (JsInt 2)])
           (parser_on [kw "GROUPBY"; ident "a"] 8 (fun n => n)) eq_refl).
Defined.

(** X10: the WHERE clause ends.  Its two loops and its recursion through
    parentheses pull a token from the lexer on every round, so on a lexer with
    finitely many tokens left the clause returns or throws: with three units
    of fuel more than there are tokens to scan the run is not cut short, and
    any more fuel gives the same result. *)
Theorem where_clause_terminates p k :
  ((exists w p', _consumeWhereClauseOptional (remaining p + 3) p = Ok w p')
   \/ (exists e p', _consumeWhereClauseOptional (remaining p + 3) p = Throw e p'))
  /\ _consumeWhereClauseOptional (remaining p + 3 + k) p
     = _consumeWhereClauseOptional (remaining p + 3) p.
Proof.
  pose proof (where_fuel (remaining p + 3) p (le_n _)) as Hfuel. split.
  - destruct (_consumeWhereClauseOptional (remaining p + 3) p) as [w p'|e p'|].
    + left. exists w, p'. reflexivity.
    + right. exists e, p'. reflexivity.
    + destruct (Hfuel eq_refl).
  - apply where_mono; [lia | exact Hfuel].
Qed.

(** ** Column descriptors and the declared types *)



(** ** What the select clause accepts *)

Lemma lookahead_aggregation c l :
  starts_with_aggregation c = true ->
  type (lookahead (column_and_comma c ++ l)) = AGGREGATION_FUNCTION.
Proof. destruct c as [[x| |f x] a]; intros H; [discriminate H| |]; reflexivity. Qed.

Section SelectLoop.

Variable C : Type.
Variable consumeColumn : M C.
Variable descriptor : ColumnSyntax * option string -> C.
Hypothesis consumeColumn_syntax :
  forall c rest n off,
    column_ok c = true ->
    (snd c = None -> value (lookahead rest) <> "AS") ->
    consumeColumn (parser_on (column_tokens (fst c) (snd c) ++ rest) n off)
    = Ok (descriptor c) (parser_on rest (length (column_tokens (fst c) (snd c)) + n) off).

Lemma select_loop_columns cs :
  forall c acc fuel x rest n off,
    Forall (fun c => column_ok c = true) (c :: cs) ->
    Forall (fun c => starts_with_aggregation c = true) cs ->
    length cs < fuel ->
    select_loop consumeColumn fuel acc
      (parser_on (select_tokens (c :: cs) ++ ident x :: rest) n off)
    = Ok (acc ++ map descriptor (c :: cs))
         (parser_on (ident x :: rest) (length (select_tokens (c :: cs)) + n) off).
Proof.
  induction cs as [|c' cs IH]; intros c acc fuel x rest n off Hok Hagg Hfuel;
    (destruct fuel as [|fuel]; [simpl in Hfuel; lia|]);
    inversion Hok as [|? ? Hc Hcs]; subst.
  - unfold select_tokens, column_and_comma. cbn [map concat].
    rewrite app_nil_r, <- !app_assoc. cbn [app select_loop].
    unfold bind at 1. rewrite consumeColumn_syntax; [|exact Hc|intros _; discriminate].
    unfold bind at 1. rewrite consumeToken_parser_on by reflexivity.
    unfold bind at 1, currentToken. rewrite parser_on_current.
    cbn [lookahead hd ident type TokenType_eqb negb]. unfold ret.
    rewrite length_app. cbn [length]. f_equal. f_equal. lia.
  - inversion Hagg as [|? ? Hagg' Haggs]; subst.
    unfold select_tokens. cbn [map concat]. fold (select_tokens (c' :: cs)).
    unfold column_and_comma at 1. rewrite <- !app_assoc. cbn [app select_loop].
    unfold bind at 1. rewrite consumeColumn_syntax; [|exact Hc|intros _; discriminate].
    unfold bind at 1. rewrite consumeToken_parser_on by reflexivity.
    unfold bind at 1, currentToken. rewrite parser_on_current.
    rewrite lookahead_aggregation by exact Hagg'.
    cbn [TokenType_eqb negb]. rewrite app_assoc.
    change (column_and_comma c' ++ concat (map column_and_comma cs))
      with (select_tokens (c' :: cs)).
    rewrite (IH c' (acc ++ [descriptor c]) fuel x rest); [|exact Hcs|exact Haggs|simpl in Hfuel; lia].
    rewrite <- app_assoc. cbn [app map]. rewrite !length_app.
    unfold column_and_comma at 1. rewrite length_app. cbn [length].
    f_equal. f_equal. lia.
Qed.

End SelectLoop.

(** X12: what the select clause accepts.  After SELECT (which [parser.ts]
    does not take), columns each followed by a comma, the first one any
    column and every later one an aggregation, then an identifier: the clause
    returns the descriptors of the columns, in order, and stops on that
    identifier, which it does not take as a column. *)
Theorem select_clause_columns c cs x rest n off fuel :
  Forall (fun c => column_ok c = true) (c :: cs) ->
  Forall (fun c => starts_with_aggregation c = true) cs ->
  length cs < fuel ->
  JS._consumeSelectClause fuel
    (parser_on (kw "SELECT" :: select_tokens (c :: cs) ++ ident x :: rest) n off)
  = Ok (map JS_descriptor_of (c :: cs))
       (parser_on (ident x :: rest) (length (select_tokens (c :: cs)) + S n) off)
  /\ TS._consumeSelectClause fuel
       (parser_on (select_tokens (c :: cs) ++ ident x :: rest) n off)
     = Ok (map TS_descriptor_of (c :: cs))
          (parser_on (ident x :: rest) (length (select_tokens (c :: cs)) + n) off).
Proof.
  intros Hok Hagg Hfuel. split.
  - unfold JS._consumeSelectClause, bind.
    rewrite consumeToken_eq, step_parser_on. unfold accepts. rewrite parser_on_cons.
    cbn [_currentToken kw type value TokenType_eqb truthy nullish_or String.eqb
         Ascii.eqb Bool.eqb negb andb orb].
    apply (select_loop_columns _ JS._consumeColumn JS_descriptor_of); try assumption.
    intros [s a] rest' n' off'. apply JS_consumeColumn_syntax.
  - unfold TS._consumeSelectClause.
    apply (select_loop_columns _ TS._consumeColumn TS_descriptor_of); try assumption.
    intros [s a] rest' n' off'. apply TS_consumeColumn_syntax.
Qed.

(** [SELECT a AS k, COUNT(), SUM(x) AS s, b]: three columns, and [b] left. *)
Lemma select_clause_columns_example :
  JS._consumeSelectClause 3
    (parser_on [kw "SELECT"; ident "a"; kw "AS"; ident "k"; comma;
                agg "COUNT"; lparen; rparen; comma;
                agg "SUM"; lparen; ident "x"; rparen; kw "AS"; ident "s"; comma;
                ident "b"] 0 (fun n => n))
  = Ok [JS.mkColumnMetadata (Some "k") (Some "a") None;
        JS.mkColumnMetadata (Some "COUNT()") None (Some "COUNT");
        JS.mkColumnMetadata (Some "s") (Some "x") (Some "SUM")]
       (parser_on [ident "b"] 16 (fun n => n)).
Proof.
  exact (proj1 (select_clause_columns (Bare "a", Some "k")
                  [(CountAll, None); (AggregationOf "SUM" "x", Some "s")]
                  "b" [] 0 (fun n => n) 3
                  ltac:(repeat constructor) ltac:(repeat constructor)
                  ltac:(simpl; lia))).
Defined.

(** A bare column after the first is where the clause stops, not a column;
    and a last column without a comma is an error. *)
Example select_stops_at_second_bare_column off :
  JS._consumeSelectClause 2
    (parser_on [kw "SELECT"; ident "a"; comma; ident "b"; comma; ident "c"] 0 off)
  = Ok [JS.mkColumnMetadata (Some "a") (Some "a") None]
       (parser_on [ident "b"; comma; ident "c"] 3 off).
Proof. reflexivity. Qed.

(** X13: the first token of the select clause.  [parser.ts] starts the clause
    with a column: on a lookahead that is neither an AGGREGATION_FUNCTION nor
    an IDENTIFIER, the keyword SELECT included, it throws on that token.  The
    compiled parser starts it with the keyword SELECT and throws on any other
    token, a column included. *)
Theorem select_clause_first_token fuel p :
  (type (_currentToken p) <> AGGREGATION_FUNCTION ->
   type (_currentToken p) <> IDENTIFIER ->
   TS._consumeSelectClause (S fuel) p = Throw (unexpected_token p) p)
  /\ (type (_currentToken p) <> KEYWORD \/ value (_currentToken p) <> "SELECT" ->
      JS._consumeSelectClause fuel p = Throw (unexpected_token p) p).
Proof.
  split.
  - intros Hagg Hid. apply TokenType_eqb_neq in Hagg, Hid.
    unfold TS._consumeSelectClause. cbn [select_loop].
    unfold bind at 1, TS._consumeColumn, bind at 1, currentToken.
    rewrite Hagg. unfold bind at 1, bind at 1. rewrite consumeToken_eq.
    unfold accepts. rewrite Hid. reflexivity.
  - intros H. unfold JS._consumeSelectClause, bind. rewrite consumeToken_eq.
    unfold accepts. cbn [truthy nullish_or String.eqb negb orb].
    destruct H as [H|H].
    + apply TokenType_eqb_neq in H. rewrite H. reflexivity.
    + apply String.eqb_neq in H. rewrite H, andb_false_r. reflexivity.
Qed.

(** [parser.ts] on a query that starts with SELECT, and the compiled parser on
    one that starts with a column. *)
Lemma select_clause_first_token_example :
  TS._consumeSelectClause 1
    (parser_on [kw "SELECT"; ident "a"; comma; ident "b"] 0 (fun n => n))
  = Throw (unexpected_token
             (parser_on [kw "SELECT"; ident "a"; comma; ident "b"] 0 (fun n => n)))
          (parser_on [kw "SELECT"; ident "a"; comma; ident "b"] 0 (fun n => n))
  /\ JS._consumeSelectClause 1 (parser_on [ident "a"; comma; ident "b"] 0 (fun n => n))
     = Throw (unexpected_token (parser_on [ident "a"; comma; ident "b"] 0 (fun n => n)))
             (parser_on [ident "a"; comma; ident "b"] 0 (fun n => n)).
Proof.
  split.
  - apply (proj1 (select_clause_first_token 0 _)); cbn; discriminate.
  - apply (proj2 (select_clause_first_token 1 _)). left. cbn. discriminate.
Defined.

(** ** Plot arguments of [parser.ts] *)

(** X14: [parser.ts] takes any two columns as the arguments of BAR, LINE and
    SCATTER, aggregations and aliases included, and returns their descriptors
    in the plot clause; the compiled parser throws on the first argument when
    it is an aggregation. *)
Theorem plot_clause_columns f x y rest n off :
  is_plot_function f = true ->
  column_ok x = true ->
  column_ok y = true ->
  TS._consumePlotClauseOptional (parser_on (plot_tokens f x y ++ rest) n off)
  = Ok (Some (TS_plot_call f (TS_descriptor_of x) (TS_descriptor_of y)))
       (parser_on rest (length (plot_tokens f x y) + n) off)
  /\ (starts_with_aggregation x = true ->
      JS._consumePlotClauseOptional (parser_on (plot_tokens f x y ++ rest) n off)
      = Throw (unexpected_token (parser_on (plot_arguments x y ++ rest) (3 + n) off))
              (parser_on (plot_arguments x y ++ rest) (3 + n) off)).
Proof.
  intros Hf Hx Hy. unfold plot_tokens, plot_arguments. cbn [app]. rewrite <- !app_assoc.
  cbn [app]. rewrite <- !app_assoc. cbn [app].
  assert (HX : forall m rest', TS._consumeColumn
                 (parser_on (column_tokens (fst x) (snd x) ++ comma :: rest') m off)
               = Ok (TS_descriptor_of x)
                    (parser_on (comma :: rest')
                       (length (column_tokens (fst x) (snd x)) + m) off)).
  { intros m rest'. apply TS_consumeColumn_syntax; [exact Hx|intros _; discriminate]. }
  assert (HY : forall m rest', TS._consumeColumn
                 (parser_on (column_tokens (fst y) (snd y) ++ rparen :: rest') m off)
               = Ok (TS_descriptor_of y)
                    (parser_on (rparen :: rest')
                       (length (column_tokens (fst y) (snd y)) + m) off)).
  { intros m rest'. apply TS_consumeColumn_syntax; [exact Hy|intros _; discriminate]. }
  assert (Hlen : forall a b : nat, S (b + S (a + (3 + n))) = S (S (S (a + S (b + 1)))) + n)
    by (intros; lia).
  split.
  - unfold TS._consumePlotClauseOptional, TS._consumePlotArgs, TS_plot_call, accepts. run.
    rewrite consumeToken_eq, step_parser_on. unfold accepts. rewrite parser_on_cons.
    cbn [_currentToken kw type value TokenType_eqb truthy nullish_or String.eqb
         Ascii.eqb Bool.eqb negb andb orb].
    run.
    cbn [length]. rewrite !length_app. cbn [length]. rewrite length_app. cbn [length].
    unfold is_plot_function in Hf.
    destruct (String.eqb f "BAR") eqn:Ebar.
    + rewrite HX. run. rewrite HY. run. rewrite Hlen. reflexivity.
    + cbn [orb] in Hf. rewrite Hf. rewrite HX. run. rewrite HY. run. rewrite Hlen.
      reflexivity.
  - intros Hagg.
    unfold JS._consumePlotClauseOptional, JS._consumePlotArgs, accepts. run.
    rewrite consumeToken_eq, step_parser_on. unfold accepts. rewrite parser_on_cons.
    cbn [_currentToken kw type value TokenType_eqb truthy nullish_or String.eqb
         Ascii.eqb Bool.eqb negb andb orb].
    run.
    unfold is_plot_function in Hf.
    destruct x as [[c| |g c] a]; [discriminate Hagg| |];
      cbn [fst snd column_tokens app];
      (destruct (String.eqb f "BAR") eqn:Ebar;
       [|cbn [orb] in Hf; rewrite Hf]); run;
      rewrite consumeToken_eq; reflexivity.
Qed.

(** [PLOT LINE(day AS d, AVG(price))] in [parser.ts]. *)
Lemma plot_clause_columns_example :
  TS._consumePlotClauseOptional
    (parser_on [kw "PLOT"; plotfn "LINE"; lparen; ident "day"; kw "AS"; ident "d"; comma;
                agg "AVG"; lparen; ident "price"; rparen; rparen] 0 (fun n => n))
  = Ok (Some (TS.PointPlotCall "LINE"
                (TS.mkColumnMetadata (Some "day") (Some "d") None)
                (TS.mkColumnMetadata (Some "price") None (Some "AVG"))))
       (parser_on [] 12 (fun n => n)).
Proof.
  exact (proj1 (plot_clause_columns "LINE" (Bare "day", Some "d")
                  (AggregationOf "AVG" "price", None) [] 0 (fun n => n)
                  eq_refl eq_refl eq_refl)).
Defined.

(** ** Writing a condition and parsing it back *)

Lemma all_digits_string_of_uint d :
  all_digits (DecimalString.NilEmpty.string_of_uint d) = true.
Proof. induction d; simpl; auto. Qed.

Lemma digits_value_string_of_uint d :
  forall acc,
    digits_value acc (DecimalString.NilEmpty.string_of_uint d)
    = (DecimalPos.Unsigned.of_lu (Decimal.rev d)
       + acc * 10 ^ DecimalPos.Unsigned.usize d)%N.
Proof.
  induction d; intros acc;
    [ simpl; lia
    | unfold Decimal.rev; cbn [Decimal.revapp DecimalString.NilEmpty.string_of_uint
                                digits_value DecimalPos.Unsigned.usize];
      rewrite IHd, DecimalPos.Unsigned.of_lu_revapp, N.pow_succ_r';
      change (N.of_nat (nat_of_ascii _) - 48)%N with 0%N ||
      change (N.of_nat (nat_of_ascii _) - 48)%N with 1%N ||
      change (N.of_nat (nat_of_ascii _) - 48)%N with 2%N ||
      change (N.of_nat (nat_of_ascii _) - 48)%N with 3%N ||
      change (N.of_nat (nat_of_ascii _) - 48)%N with 4%N ||
      change (N.of_nat (nat_of_ascii _) - 48)%N with 5%N ||
      change (N.of_nat (nat_of_ascii _) - 48)%N with 6%N ||
      change (N.of_nat (nat_of_ascii _) - 48)%N with 7%N ||
      change (N.of_nat (nat_of_ascii _) - 48)%N with 8%N ||
      change (N.of_nat (nat_of_ascii _) - 48)%N with 9%N;
      cbn [DecimalPos.Unsigned.of_lu DecimalPos.Unsigned.hd DecimalPos.Unsigned.tl];
      fold (Decimal.rev d); lia .. ].
Qed.

Lemma digits_value_to_uint n :
  digits_value 0 (DecimalString.NilEmpty.string_of_uint (N.to_uint n)) = n.
Proof.
  rewrite digits_value_string_of_uint, <- DecimalPos.Unsigned.of_uint_alt.
  change (Pos.of_uint (N.to_uint n)) with (N.of_uint (N.to_uint n)).
  rewrite DecimalN.Unsigned.of_to. lia.
Qed.

(** [Number] reads the text of a number back. *)
Lemma Number_number_text v : number_ok v = true -> Number (number_text v) = v.
Proof.
  destruct v as [n|text]; cbn [number_ok number_text]; intros H; unfold Number.
  - rewrite all_digits_string_of_uint, digits_value_to_uint, H. reflexivity.
  - apply negb_true_iff in H. rewrite H. reflexivity.
Qed.

Lemma equality_operand_value_token v :
  value_ok v = true -> equality_operand (value_token v) = Some v.
Proof.
  destruct v as [s|n|]; cbn [value_ok value_token]; intros H;
    unfold equality_operand; cbn [type num value]; try reflexivity.
  rewrite (Number_number_text n H). reflexivity.
Qed.

Lemma WhereCondition_nested_ind (P : WhereCondition -> Prop) :
  (forall l, Forall P l -> P (And l)) ->
  (forall l, Forall P l -> P (Or l)) ->
  (forall key v, P (Gt key v)) ->
  (forall key v, P (Gte key v)) ->
  (forall key v, P (Lt key v)) ->
  (forall key v, P (Lte key v)) ->
  (forall key v, P (Eq key v)) ->
  (forall key v, P (Neq key v)) ->
  forall c, P c.
Proof.
  intros HAnd HOr HGt HGte HLt HLte HEq HNeq.
  refine (fix IH (c : WhereCondition) : P c :=
            match c with
            | And l => HAnd l ((fix all (l : list WhereCondition) : Forall P l :=
                                 match l with
                                 | [] => Forall_nil P
                                 | o :: l' => Forall_cons o (IH o) (all l')
                                 end) l)
            | Or l => HOr l ((fix all (l : list WhereCondition) : Forall P l :=
                               match l with
                               | [] => Forall_nil P
                               | o :: l' => Forall_cons o (IH o) (all l')
                               end) l)
            | Gt key v => HGt key v
            | Gte key v => HGte key v
            | Lt key v => HLt key v
            | Lte key v => HLte key v
            | Eq key v => HEq key v
            | Neq key v => HNeq key v
            end).
Qed.

(** A written comparison is a condition unit. *)
Lemma printed_comparison_is_unit c :
  well_formed c = true ->
  match c with And _ | Or _ => True | _ => is_unit 0 (print_condition c, c) end.
Proof.
  destruct c as [l|l|key v|key v|key v|key v|key v|key v]; cbn [well_formed]; intros H;
    try exact I; cbn [print_condition]; apply comparison_is_unit;
    unfold comparison_of, relational_operand; cbn [String.eqb Ascii.eqb Bool.eqb type num];
    try (unfold num; cbn [value]; rewrite (Number_number_text v H); reflexivity);
    rewrite (equality_operand_value_token v H); reflexivity.
Qed.

(** A written operand is a condition unit, when what is written in it is
    parsed back. *)
Lemma operand_is_unit fuel0 c :
  well_formed c = true ->
  parses_to fuel0 (print_condition c) c ->
  is_unit fuel0 (operand_unit c).
Proof.
  intros Hwf Hc. pose proof (printed_comparison_is_unit c Hwf) as Hcmp.
  unfold operand_unit.
  destruct c as [l|l|key v|key v|key v|key v|key v|key v]; cbn [operand_tokens];
    try (apply (is_unit_weaken 0); [lia|exact Hcmp]);
    apply parenthesized_is_unit; intros fuel rest n off Hfuel;
    apply Hc; try assumption; simpl; discriminate.
Qed.

Lemma common_fuel (l : list WhereCondition) :
  Forall (fun c => exists fuel0, is_unit fuel0 (operand_unit c)) l ->
  exists fuel0, Forall (is_unit fuel0) (map operand_unit l).
Proof.
  induction 1 as [|c l [f Hc] _ [f' IH]].
  - exists 0. constructor.
  - exists (Nat.max f f'). cbn [map]. constructor.
    + apply (is_unit_weaken f); [lia|exact Hc].
    + eapply Forall_impl; [|exact IH]. intros u Hu.
      apply (is_unit_weaken f'); [lia|exact Hu].
Qed.

Lemma and_tail_separated us :
  and_tail us = concat (map (cons tAND) (map fst us)).
Proof. unfold and_tail. rewrite map_map. reflexivity. Qed.

Lemma and_tokens l :
  l <> [] ->
  condition_tokens [map operand_unit l]
  = separated tAND (map (fun o => operand_tokens o (print_condition o)) l).
Proof.
  destruct l as [|c l]; [congruence|]. intros _.
  unfold condition_tokens, or_tail. cbn [map concat group_tokens separated].
  rewrite app_nil_r, and_tail_separated, !map_map. reflexivity.
Qed.

Lemma or_tokens l :
  l <> [] ->
  condition_tokens (map (fun o => [operand_unit o]) l)
  = separated tOR (map (fun o => operand_tokens o (print_condition o)) l).
Proof.
  destruct l as [|c l]; [congruence|]. intros _.
  unfold condition_tokens. cbn [map group_tokens separated and_tail concat].
  rewrite app_nil_r. f_equal. unfold or_tail. rewrite !map_map. f_equal.
  apply map_ext. intros o. cbn [group_tokens and_tail map concat].
  rewrite app_nil_r. reflexivity.
Qed.

Lemma and_tree l : (2 <=? length l)%nat = true -> condition_tree [map operand_unit l] = And l.
Proof.
  intros H. unfold condition_tree, group_tree. cbn [map or_of].
  rewrite map_map. cbn [operand_unit snd]. rewrite map_id.
  destruct l as [|a [|b l]]; try discriminate H. reflexivity.
Qed.

Lemma or_tree l :
  (2 <=? length l)%nat = true ->
  condition_tree (map (fun o => [operand_unit o]) l) = Or l.
Proof.
  intros H. unfold condition_tree. rewrite map_map.
  cbn [group_tree map and_of operand_unit snd]. rewrite map_id.
  destruct l as [|a [|b l]]; try discriminate H. reflexivity.
Qed.

Lemma well_formed_operands (P : WhereCondition -> Prop) l :
  Forall (fun c => well_formed c = true -> P c) l ->
  forallb well_formed l = true ->
  Forall (fun c => well_formed c = true /\ P c) l.
Proof.
  induction 1 as [|c l Hc _ IH]; cbn [forallb]; intros H; constructor.
  - apply andb_prop in H. destruct H as [H _]. auto.
  - apply andb_prop in H. destruct H as [_ H]. auto.
Qed.

Lemma operands_are_units l :
  Forall (fun c => well_formed c = true ->
                   exists fuel0, parses_to fuel0 (print_condition c) c) l ->
  forallb well_formed l = true ->
  exists fuel0, Forall (is_unit fuel0) (map operand_unit l).
Proof.
  intros IH Hwf. apply common_fuel.
  eapply Forall_impl; [|exact (well_formed_operands _ l IH Hwf)].
  intros c [Hc [f Hp]]. exists f. apply operand_is_unit; assumption.
Qed.

Lemma groups_parse fuel0 groups c tokens :
  groups <> [] ->
  Forall (fun g => g <> []) groups ->
  Forall (Forall (is_unit fuel0)) groups ->
  condition_tokens groups = tokens ->
  condition_tree groups = c ->
  parses_to (S (fuel0 + groups_size groups)) tokens c.
Proof.
  intros Hne Hgne Hunits <- <- fuel rest n off Hfuel Hand Hor.
  apply (consumeCondition_groups fuel0); first [assumption | lia].
Qed.

(** [_consumeCondition] parses a written condition back. *)
Lemma print_condition_parses c :
  well_formed c = true -> exists fuel0, parses_to fuel0 (print_condition c) c.
Proof.
  induction c as [l IH|l IH|key v|key v|key v|key v|key v|key v]
    using WhereCondition_nested_ind; intros Hwf.
  - cbn [well_formed] in Hwf. apply andb_prop in Hwf. destruct Hwf as [Hlen Hwf].
    destruct (operands_are_units l IH Hwf) as [f Hunits].
    assert (Hl : l <> []) by (intros ->; discriminate Hlen).
    eexists. apply (groups_parse f [map operand_unit l]).
    + discriminate.
    + constructor; [|constructor]. destruct l; [congruence|discriminate].
    + constructor; [exact Hunits|constructor].
    + cbn [print_condition]. apply and_tokens. exact Hl.
    + apply and_tree. exact Hlen.
  - cbn [well_formed] in Hwf. apply andb_prop in Hwf. destruct Hwf as [Hlen Hwf].
    destruct (operands_are_units l IH Hwf) as [f Hunits].
    assert (Hl : l <> []) by (intros ->; discriminate Hlen).
    eexists. apply (groups_parse f (map (fun o => [operand_unit o]) l)).
    + destruct l; [congruence|discriminate].
    + apply Forall_map, Forall_forall. intros; discriminate.
    + apply Forall_map. rewrite Forall_map in Hunits.
      eapply Forall_impl; [|exact Hunits]. intros o Ho. constructor; [exact Ho|constructor].
    + cbn [print_condition]. apply or_tokens. exact Hl.
    + apply or_tree. exact Hlen.
  - eexists. apply (groups_parse 0 [[(print_condition (Gt key v), Gt key v)]]);
      try reflexivity; try discriminate; repeat constructor; try discriminate.
    exact (printed_comparison_is_unit (Gt key v) Hwf).
  - eexists. apply (groups_parse 0 [[(print_condition (Gte key v), Gte key v)]]);
      try reflexivity; try discriminate; repeat constructor; try discriminate.
    exact (printed_comparison_is_unit (Gte key v) Hwf).
  - eexists. apply (groups_parse 0 [[(print_condition (Lt key v), Lt key v)]]);
      try reflexivity; try discriminate; repeat constructor; try discriminate.
    exact (printed_comparison_is_unit (Lt key v) Hwf).
  - eexists. apply (groups_parse 0 [[(print_condition (Lte key v), Lte key v)]]);
      try reflexivity; try discriminate; repeat constructor; try discriminate.
    exact (printed_comparison_is_unit (Lte key v) Hwf).
  - eexists. apply (groups_parse 0 [[(print_condition (Eq key v), Eq key v)]]);
      try reflexivity; try discriminate; repeat constructor; try discriminate.
    exact (printed_comparison_is_unit (Eq key v) Hwf).
  - eexists. apply (groups_parse 0 [[(print_condition (Neq key v), Neq key v)]]);
      try reflexivity; try discriminate; repeat constructor; try discriminate.
    exact (printed_comparison_is_unit (Neq key v) Hwf).
Qed.

(** ** The trees the WHERE clause returns *)

Lemma number_ok_Number text : number_ok (Number text) = true.
Proof.
  unfold Number.
  destruct (all_digits text && (digits_value 0 text <=? 2 ^ 53)%N) eqn:E; cbn [number_ok].
  - apply andb_prop in E. apply E.
  - rewrite E. reflexivity.
Qed.

Lemma consumeComparisonValue_ok p v p' :
  _consumeComparisonValue p = Ok v p' -> value_ok v = true.
Proof.
  unfold _consumeComparisonValue. intros H.
  bind_inv H t p1 Ht. bind_inv H u p2 Hu.
  destruct (type t); try discriminate H; injection H as <- <-; cbn [value_ok];
    try reflexivity.
  apply number_ok_Number.
Qed.

Lemma consumeComparison_well_formed p c p' :
  _consumeComparison p = Ok c p' -> well_formed c = true.
Proof.
  unfold _consumeComparison. intros H.
  bind_inv H k p1 Hk. bind_inv H o p2 Ho.
  repeat match type of H with
         | (if ?b then _ else _) _ = _ => destruct b
         end;
    try (bind_inv H t p3 Ht; injection H as <- <-; cbn [well_formed];
         first [apply number_ok_Number | eapply consumeComparisonValue_ok; eassumption]).
  discriminate H.
Qed.

Lemma consumeConditionGroup_of_well_formed (condition : M WhereCondition) :
  (forall p c p', condition p = Ok c p' -> well_formed c = true) ->
  forall p c p',
    _consumeConditionGroup_of condition p = Ok c p' -> well_formed c = true.
Proof.
  intros Hcond p c p' H. unfold _consumeConditionGroup_of in H.
  bind_inv H t p1 Ht. destruct (TokenType_eqb _ _).
  - eapply consumeComparison_well_formed; eassumption.
  - bind_inv H l p2 Hl. bind_inv H c' p3 Hc. bind_inv H r p4 Hr.
    injection H as <- <-. eapply Hcond; eassumption.
Qed.

Lemma and_loop_well_formed (group : M WhereCondition) :
  (forall p c p', group p = Ok c p' -> well_formed c = true) ->
  forall fuel acc p l p',
    and_loop group fuel acc p = Ok l p' ->
    forallb well_formed acc = true ->
    forallb well_formed l = true /\ length acc <= length l.
Proof.
  intros Hgroup. induction fuel as [|fuel IH]; intros acc p l p' H Hacc; simpl in H.
  - discriminate H.
  - bind_inv H t p1 Ht. destruct (String.eqb _ _).
    + bind_inv H a p2 Ha. bind_inv H c p3 Hc.
      apply IH in H.
      * destruct H as [H1 H2]. split; [exact H1|].
        rewrite length_app in H2. simpl in H2. lia.
      * rewrite forallb_snoc, Hacc. simpl. eapply Hgroup; eassumption.
    + injection H as <- <-. split; [exact Hacc | lia].
Qed.

Lemma and_of_well_formed l :
  forallb well_formed l = true -> 1 <= length l -> well_formed (and_of l) = true.
Proof.
  intros Hl Hlen. destruct l as [|c [|c' l]]; simpl in *; try lia.
  - rewrite andb_true_r in Hl. exact Hl.
  - exact Hl.
Qed.

Lemma or_of_well_formed l :
  forallb well_formed l = true -> 1 <= length l -> well_formed (or_of l) = true.
Proof.
  intros Hl Hlen. destruct l as [|c [|c' l]]; simpl in *; try lia.
  - rewrite andb_true_r in Hl. exact Hl.
  - exact Hl.
Qed.

Lemma or_loop_well_formed (group : M WhereCondition) :
  (forall p c p', group p = Ok c p' -> well_formed c = true) ->
  forall fuel acc p l p',
    or_loop group fuel acc p = Ok l p' ->
    forallb well_formed acc = true ->
    forallb well_formed l = true /\ length acc < length l.
Proof.
  intros Hgroup. induction fuel as [|fuel IH]; intros acc p l p' H Hacc; simpl in H.
  - discriminate H.
  - bind_inv H c p1 Hc. bind_inv H inner p2 Hinner. bind_inv H t p3 Ht.
    apply and_loop_well_formed in Hinner;
      [|exact Hgroup|simpl; rewrite (Hgroup _ _ _ Hc); reflexivity].
    destruct Hinner as [Hin Hlen]. simpl in Hlen.
    assert (Hnew : forallb well_formed (acc ++ [and_of inner]) = true).
    { rewrite forallb_snoc, Hacc. simpl. apply and_of_well_formed; assumption. }
    change (match inner with [c0] => c0 | _ => And inner end) with (and_of inner) in H.
    destruct (negb _).
    + injection H as <- <-. split; [exact Hnew|]. rewrite length_app. simpl. lia.
    + bind_inv H u p4 Hu. apply IH in H; [|exact Hnew].
      destruct H as [H1 H2]. split; [exact H1|].
      rewrite length_app in H2. simpl in H2. lia.
Qed.

Lemma consumeCondition_well_formed fuel :
  forall p c p', _consumeCondition fuel p = Ok c p' -> well_formed c = true.
Proof.
  induction fuel as [|fuel IH]; intros p c p' H; simpl in H.
  - discriminate H.
  - bind_inv H filters p1 Hf.
    apply or_loop_well_formed in Hf;
      [|apply consumeConditionGroup_of_well_formed; exact IH|reflexivity].
    destruct Hf as [Hall Hlen]. simpl in Hlen.
    assert (Hc : c = or_of filters).
    { destruct filters as [|c0 [|c1 l]]; injection H as <- <-; reflexivity. }
    subst c. apply or_of_well_formed; [exact Hall | lia].
Qed.

Lemma where_clause_parses fuel0 tokens c :
  parses_to fuel0 tokens c ->
  forall fuel rest n off,
    fuel0 <= fuel ->
    value (lookahead rest) <> "AND" -> value (lookahead rest) <> "OR" ->
    _consumeWhereClauseOptional fuel (parser_on (kw "WHERE" :: tokens ++ rest) n off)
    = Ok (Some c) (parser_on rest (length tokens + S n) off).
Proof.
  intros Hp fuel rest n off Hfuel Hand Hor.
  unfold _consumeWhereClauseOptional, bind at 1, currentToken.
  rewrite parser_on_current. cbn [lookahead hd kw value String.eqb Ascii.eqb Bool.eqb negb].
  unfold bind at 1. rewrite consumeToken_parser_on by reflexivity.
  unfold fmap, bind. rewrite (Hp fuel rest (S n) off); auto.
Qed.

Lemma remaining_parser_on t ts n off : remaining (parser_on (t :: ts) n off) = length ts.
Proof. reflexivity. Qed.

(** X15: writing a condition and parsing it back.  A well-formed predicate
    tree, written as tokens after the keyword WHERE and followed by anything
    that does not go on with AND or OR, is what the WHERE clause returns, and
    the clause stops right after it: with comparisons as three tokens,
    operands separated by AND or by OR, and an operand that is an [And] or an
    [Or] in parentheses. *)
Theorem where_clause_round_trip c rest n off fuel :
  well_formed c = true ->
  value (lookahead rest) <> "AND" -> value (lookahead rest) <> "OR" ->
  length (print_condition c) + length rest + 3 <= fuel ->
  _consumeWhereClauseOptional fuel
    (parser_on (kw "WHERE" :: print_condition c ++ rest) n off)
  = Ok (Some c) (parser_on rest (length (print_condition c) + S n) off).
Proof.
  intros Hwf Hand Hor Hfuel.
  destruct (print_condition_parses c Hwf) as [fuel0 Hp].
  rewrite <- (where_clause_parses fuel0 _ c Hp (Nat.max fuel0 fuel) rest n off
                (Nat.le_max_l _ _) Hand Hor).
  symmetry. apply where_mono; [apply Nat.le_max_r|].
  apply where_fuel. rewrite remaining_parser_on, length_app. exact Hfuel.
Qed.

(** [WHERE (a > 1 OR a < 0) AND b = null AND c != "x"]. *)
Lemma where_clause_round_trip_example :
  _consumeWhereClauseOptional 20
    (parser_on [kw "WHERE"; lparen; ident "a"; cmp ">"; num "1"; tOR;
                ident "a"; cmp "<"; num "0"; rparen; tAND;
                ident "b"; cmp "="; mkToken NULL "null"; tAND;
                ident "c"; cmp "!="; mkToken STRING "x"] 0 (fun n => n))
  = Ok (Some (And [Or [Gt "a" (JsInt 1); Lt "a" (JsInt 0)];
                   Eq "b" VNull; Neq "c" (VString "x")]))
       (parser_on [] 18 (fun n => n)).
Proof.
  apply (where_clause_round_trip
           (And [Or [Gt "a" (JsInt 1); Lt "a" (JsInt 0)];
                 Eq "b" VNull; Neq "c" (VString "x")])
           [] 0 (fun n => n) 20);
    [reflexivity | discriminate | discriminate | simpl; lia].
Defined.

(** X16: the trees of the WHERE clause.  The predicate trees the WHERE
    clause returns, over all inputs, are the well-formed ones: those in which
    every [And] and every [Or] has at least two operands and every number is
    a value of [Number], an integer up to 2^53 or the number of a text that
    is not the digits of one. *)
Theorem where_clause_trees c :
  well_formed c = true
  <-> exists fuel p p', _consumeWhereClauseOptional fuel p = Ok (Some c) p'.
Proof.
  split.
  - intros Hwf. destruct (print_condition_parses c Hwf) as [fuel0 Hp].
    exists fuel0, (parser_on (kw "WHERE" :: print_condition c ++ []) 0 (fun n => n)).
    eexists.
    apply (where_clause_parses fuel0 _ c Hp fuel0 [] 0 (fun n => n));
      [apply Nat.le_refl | discriminate | discriminate].
  - intros (fuel & p & p' & H). unfold _consumeWhereClauseOptional in H.
    bind_inv H t p1 Ht. destruct (negb _); [discriminate H|].
    bind_inv H k p2 Hk. unfold fmap in H. bind_inv H w p3 Hw.
    injection H as <- <-. eapply consumeCondition_well_formed; eassumption.
Qed.

(** A tree with an [And] of one operand is none the clause returns, nor is
    one with the integer 2^53 + 1. *)
Example where_clause_trees_excluded :
  well_formed (And [Gt "a" (JsInt 1)]) = false
  /\ well_formed (Gt "a" (JsInt 9007199254740993)) = false
  /\ Number "9007199254740993" = JsNumberOf "9007199254740993".
Proof. repeat split; reflexivity. Qed.

(** ** Parentheses *)

Lemma parses_to_weaken fuel0 fuel1 tokens c :
  fuel0 <= fuel1 -> parses_to fuel0 tokens c -> parses_to fuel1 tokens c.
Proof. intros Hle Hp fuel rest n off Hfuel. apply Hp. lia. Qed.

Lemma comparison_parses key op rhs c :
  comparison_of key op rhs = Some c -> parses_to 3 [ident key; cmp op; rhs] c.
Proof.
  intros Hc. apply (groups_parse 0 [[([ident key; cmp op; rhs], c)]]);
    try reflexivity; try discriminate; repeat constructor; try discriminate.
  exact (comparison_is_unit key op rhs c Hc).
Qed.

(** X17: parentheses add no node.  Tokens that are parsed to a tree are
    parsed to the same tree when written in parentheses, as a condition and
    after WHERE: the tree keeps no trace of parentheses around a whole
    condition. *)
Theorem parentheses_add_no_node fuel0 tokens c :
  parses_to fuel0 tokens c ->
  parses_to (fuel0 + 3) (in_parentheses tokens) c
  /\ (forall fuel rest n off,
        fuel0 + 3 <= fuel ->
        value (lookahead rest) <> "AND" -> value (lookahead rest) <> "OR" ->
        _consumeWhereClauseOptional fuel
          (parser_on (kw "WHERE" :: in_parentheses tokens ++ rest) n off)
        = Ok (Some c) (parser_on rest (length (in_parentheses tokens) + S n) off)).
Proof.
  intros Hp.
  assert (Hu : is_unit fuel0 (in_parentheses tokens, c)).
  { apply parenthesized_is_unit. intros fuel rest n off Hfuel.
    apply Hp; [exact Hfuel | simpl; discriminate | simpl; discriminate]. }
  assert (Hparen : parses_to (fuel0 + 3) (in_parentheses tokens) c).
  { apply (parses_to_weaken (S (fuel0 + groups_size [[(in_parentheses tokens, c)]])));
      [unfold groups_size; cbn [map list_sum length fold_right]; lia|].
    apply groups_parse; try discriminate; repeat constructor; try discriminate.
    - exact Hu.
    - unfold condition_tokens, or_tail. cbn [group_tokens and_tail map concat fst].
      rewrite !app_nil_r. reflexivity. }
  split; [exact Hparen|].
  intros fuel rest n off Hfuel Hand Hor.
  apply (where_clause_parses (fuel0 + 3)); assumption.
Qed.

(** [WHERE (a > 1)] is parsed to the comparison [a > 1]. *)
Lemma parentheses_add_no_node_example :
  parses_to 6 (in_parentheses [ident "a"; cmp ">"; num "1"]) (Gt "a" (JsInt 1))
  /\ (forall fuel rest n off,
        6 <= fuel ->
        value (lookahead rest) <> "AND" -> value (lookahead rest) <> "OR" ->
        _consumeWhereClauseOptional fuel
          (parser_on (kw "WHERE" :: in_parentheses [ident "a"; cmp ">"; num "1"] ++ rest)
             n off)
        = Ok (Some (Gt "a" (JsInt 1))) (parser_on rest (5 + S n) off)).
Proof.
  apply (parentheses_add_no_node 3 [ident "a"; cmp ">"; num "1"] (Gt "a" (JsInt 1))).
  apply comparison_parses. reflexivity.
Defined.
